(** * Object store of openpathsampling: a shallow embedding

    The development follows [openpathsampling/storage/object_storage.py]:
    the class [ObjectStore] and the decorators [loadcache], [savecache],
    [loadidx] and [saveidx] that [ObjectStore.__init__] wraps around the
    [load] and [save] methods of every store instance.

    Python objects live in a heap and are referred to by their location, so
    that "the very same instance" is equality of locations.  Methods are
    computations in a state-and-exception monad over the heap and the
    stores; a raised exception keeps the mutations made before it, as in
    Python. *)

From stdpp Require Import gmap strings list fin_maps.
From Stdlib Require Import ZArith Lia.

Local Open Scope Z_scope.

(** ** Python values *)

Definition loc := nat.

(** Keys of the dictionaries [cache] and [name_idx]: integers, strings and
    [None] (a name that was never set). *)
Inductive key : Type :=
  | KInt (z : Z)
  | KStr (s : string)
  | KNone.

#[global] Instance key_eq_dec : EqDecision key.
Proof. solve_decision. Defined.

#[global] Instance key_countable : Countable key.
Proof.
  refine (inj_countable'
    (λ k, match k with
          | KInt z => inl z
          | KStr s => inr (inl s)
          | KNone => inr (inr ())
          end)
    (λ x, match x with
          | inl z => KInt z
          | inr (inl s) => KStr s
          | inr (inr _) => KNone
          end) _).
  by intros [].
Defined.

(** The index argument of [load] and [save]: an [int], a [str], or a numpy
    integer, which is what indexing a variable of the file gives
    ([type(idx) is int] does not hold of it, [int(idx)] is its value, and as
    a key of a dictionary it is the key of its value). *)
Inductive pyidx : Type :=
  | IInt (z : Z)
  | IStr (s : string)
  | INp (z : Z).

Definition key_of_idx (i : pyidx) : key :=
  match i with IInt z | INp z => KInt z | IStr s => KStr s end.

(** The value of [obj._name]: [None] or a string. *)
Definition key_of_name (n : option string) : key :=
  match n with Some s => KStr s | None => KNone end.

Inductive exn : Type :=
  | ValueError | AttributeError | KeyError | IndexError | TypeError
  | RuntimeError | OverflowError.

(** A storable object.  [o_idx] is the dictionary [obj.idx], keyed by the
    store (a store is identified by the prefix it is registered under);
    the optional fields are attributes that [hasattr] may find missing. *)
Record pyobj : Type := PyObj {
  o_idx : gmap string Z;
  o_uid : option string;
  o_name : option (option string);
  o_name_fixed : bool;
  o_json : option string;
  o_body : string
}.

Definition set_o_idx (o : pyobj) (m : gmap string Z) : pyobj :=
  PyObj m (o_uid o) (o_name o) (o_name_fixed o) (o_json o) (o_body o).
Definition set_o_uid (o : pyobj) (u : option string) : pyobj :=
  PyObj (o_idx o) u (o_name o) (o_name_fixed o) (o_json o) (o_body o).
Definition set_o_name (o : pyobj) (n : option (option string)) : pyobj :=
  PyObj (o_idx o) (o_uid o) n (o_name_fixed o) (o_json o) (o_body o).
Definition set_o_json (o : pyobj) (j : option string) : pyobj :=
  PyObj (o_idx o) (o_uid o) (o_name o) (o_name_fixed o) j (o_body o).
(** [obj.fix_name()] of a nameable object. *)
Definition fix_name (o : pyobj) : pyobj :=
  PyObj (o_idx o) (o_uid o) (o_name o) true (o_json o) (o_body o).

(** ** Stores *)

(** The attributes of a store that are set once in [__init__] and
    [register] and never assigned again.  [content_named] says whether the
    instances of [content_class] carry a [_name] attribute; [caching] is
    [caching is not False]. *)
Record ObjectStore : Type := {
  prefix : string;
  content_named : bool;
  has_uid : bool;
  has_name : bool;
  caching : bool;
  nestable : bool
}.

(** The mutable attributes of a store, together with the part of the file
    that belongs to its prefix. *)
Record store_state : Type := StoreState {
  cache : gmap key loc;
  name_idx : gmap key (list pyidx);
  _free : gset Z;
  _cached_all : bool;
  _names_loaded : bool;
  dim : nat;
  var_json : gmap Z string;
  var_name : gmap Z string;
  var_uid : gmap Z string
}.

Definition set_cache (st : store_state) (c : gmap key loc) : store_state :=
  StoreState c (name_idx st) (_free st) (_cached_all st) (_names_loaded st)
    (dim st) (var_json st) (var_name st) (var_uid st).
Definition set_name_idx (st : store_state) (n : gmap key (list pyidx)) : store_state :=
  StoreState (cache st) n (_free st) (_cached_all st) (_names_loaded st)
    (dim st) (var_json st) (var_name st) (var_uid st).
Definition set_free (st : store_state) (f : gset Z) : store_state :=
  StoreState (cache st) (name_idx st) f (_cached_all st) (_names_loaded st)
    (dim st) (var_json st) (var_name st) (var_uid st).
Definition set_names_loaded (st : store_state) (b : bool) : store_state :=
  StoreState (cache st) (name_idx st) (_free st) (_cached_all st) b
    (dim st) (var_json st) (var_name st) (var_uid st).

(** The state of a freshly constructed and initialised store. *)
Definition new_store : store_state :=
  StoreState ∅ ∅ ∅ false false 0%nat ∅ ∅ ∅.

Record world : Type := World {
  heap : list pyobj;
  stores : gmap string store_state;
  storage_attrs : gmap string ObjectStore;
  variables : gmap string (gmap Z Z)
}.

Definition set_heap (w : world) (h : list pyobj) : world :=
  World h (stores w) (storage_attrs w) (variables w).
Definition set_stores (w : world) (s : gmap string store_state) : world :=
  World (heap w) s (storage_attrs w) (variables w).

(** ** The monad *)

Inductive outcome (A : Type) : Type :=
  | Ret (a : A)
  | Raise (e : exn).
Arguments Ret {A} a.
Arguments Raise {A} e.

Definition M (A : Type) : Type := world → outcome A * world.

#[global] Instance M_ret : MRet M := λ A a w, (Ret a, w).
#[global] Instance M_bind : MBind M := λ A B f m w,
  match m w with
  | (Ret a, w') => f a w'
  | (Raise e, w') => (Raise e, w')
  end.

Definition raise {A : Type} (e : exn) : M A := λ w, (Raise e, w).

(** [self.storage] raises [RuntimeError] for a store that was not added
    to a storage. *)
Definition get_state (self : ObjectStore) : M store_state := λ w,
  match stores w !! prefix self with
  | Some st => (Ret st, w)
  | None => (Raise RuntimeError, w)
  end.

Definition put_state (self : ObjectStore) (st : store_state) : M unit := λ w,
  (Ret tt, set_stores w (<[prefix self := st]> (stores w))).

Definition getobj (obj : loc) : M pyobj := λ w,
  match heap w !! obj with
  | Some o => (Ret o, w)
  | None => (Raise RuntimeError, w)
  end.

Definition setobj (obj : loc) (o : pyobj) : M unit := λ w,
  (Ret tt, set_heap w (<[obj := o]> (heap w))).

Definition newobj (o : pyobj) : M loc := λ w,
  (Ret (length (heap w)), set_heap w (heap w ++ [o])).

(** Monadic [for] over a list, collecting the results. *)
Fixpoint mapM {A B : Type} (f : A → M B) (l : list A) : M (list B) :=
  match l with
  | [] => mret []
  | x :: l' => y ← f x; ys ← mapM f l'; mret (y :: ys)
  end.

Fixpoint forM_ {A : Type} (f : A → M unit) (l : list A) : M unit :=
  match l with
  | [] => mret tt
  | x :: l' => f x;; forM_ f l'
  end.

(** ** The file *)

(** Modelled from the spec: the Columnar Backing Store (the netCDF file,
    whose class is not part of the sources at hand) is "a key-value map
    from (variable_name, index) to scalar/array values, with dynamically
    growable dimensions", the variables of a prefix being "keyed by a
    shared per-type dimension whose length equals count()".  Writing at an
    index at or beyond the length grows the dimension; a negative index
    counts from the end, as for every Python sequence, and is an
    [IndexError] when it reaches before the start.  A cell that was never
    written reads as the empty string. *)
Definition resolve_write (d : nat) (idx : Z) : option (Z * nat) :=
  if decide (0 ≤ idx) then Some (idx, Nat.max d (Z.to_nat idx + 1))
  else if decide (- Z.of_nat d ≤ idx) then Some (Z.of_nat d + idx, d)
  else None.

Definition resolve_read (d : nat) (idx : Z) : option Z :=
  if decide (0 ≤ idx) then
    if decide (idx < Z.of_nat d) then Some idx else None
  else if decide (- Z.of_nat d ≤ idx) then Some (Z.of_nat d + idx)
  else None.

Definition cell (col : gmap Z string) (i : Z) : string := default "" (col !! i).

Inductive store_var : Type := v_json | v_name | v_uid.

Definition get_var (v : store_var) (st : store_state) : gmap Z string :=
  match v with v_json => var_json st | v_name => var_name st | v_uid => var_uid st end.

Definition set_var (v : store_var) (st : store_state) (d : nat) (c : gmap Z string) : store_state :=
  match v with
  | v_json => StoreState (cache st) (name_idx st) (_free st) (_cached_all st)
                (_names_loaded st) d c (var_name st) (var_uid st)
  | v_name => StoreState (cache st) (name_idx st) (_free st) (_cached_all st)
                (_names_loaded st) d (var_json st) c (var_uid st)
  | v_uid => StoreState (cache st) (name_idx st) (_free st) (_cached_all st)
                (_names_loaded st) d (var_json st) (var_name st) c
  end.

(** [self.storage.variables[self.prefix + '_' + v][idx] = value] *)
Definition write_var (self : ObjectStore) (v : store_var) (idx : Z) (value : string) : M unit :=
  st ← get_state self;
  match resolve_write (dim st) idx with
  | Some (i, d) => put_state self (set_var v st d (<[i := value]> (get_var v st)))
  | None => raise IndexError
  end.

(** [self.storage.variables[self.prefix + '_' + v][idx]] *)
Definition read_var (self : ObjectStore) (v : store_var) (idx : Z) : M string :=
  st ← get_state self;
  match resolve_read (dim st) idx with
  | Some i => mret (cell (get_var v st) i)
  | None => raise IndexError
  end.

(** ** ObjectStore methods *)

(** [ObjectStore.count] *)
Definition count (self : ObjectStore) : M Z :=
  st ← get_state self;
  mret (Z.of_nat (dim st)).

(** The [while idx in self._free: idx += 1] loop of [free]; [fuel] bounds
    the number of iterations. *)
Fixpoint free_loop (fuel : nat) (fr : gset Z) (idx : Z) : Z :=
  match fuel with
  | O => idx
  | S n => if decide (idx ∈ fr) then free_loop n fr (idx + 1) else idx
  end.

(** [ObjectStore.free] *)
Definition free (self : ObjectStore) : M Z :=
  n ← count self;
  st ← get_state self;
  let fr := filter (λ idx, n ≤ idx) (_free st) in
  put_state self (set_free st fr);;
  mret (free_loop (S (size fr)) fr n).

(** [ObjectStore.reserve_idx] *)
Definition reserve_idx (self : ObjectStore) (idx : Z) : M unit :=
  st ← get_state self;
  put_state self (set_free st ({[idx]} ∪ _free st)).

(** Modelled from the spec: the Serializer ("Simplifier", not part of the
    sources at hand) is a "bidirectional mapping between a live object and
    a portable structured representation".  The portable form of an object
    is taken to be its body; building an object from it gives a new object
    with an empty [idx] dictionary that carries a [_name] attribute when
    its class is nameable.  This is the Serializer on an object that refers
    to no other storable object.  For an object that refers to one, the
    Serializer also saves the referenced object through its store before
    the portable form is written, and loads it through its store when the
    object is built; [save_nesting] is a [save] that does the former. *)
Definition object_to_json (o : pyobj) : string := o_body o.

Definition build (named : bool) (json : string) : pyobj :=
  PyObj ∅ None (if named then Some (Some "") else None) false None json.

(** [ObjectStore.save_json] *)
Definition save_json (self : ObjectStore) (v : store_var) (idx : Z) (obj : loc) : M unit :=
  o ← getobj obj;
  match o_json o with
  | Some j => write_var self v idx j
  | None =>
      setobj obj (set_o_json o (Some (object_to_json o)));;
      write_var self v idx (object_to_json o)
  end.

(** [ObjectStore.load_json] *)
Definition load_json (self : ObjectStore) (v : store_var) (idx : Z) : M loc :=
  json_string ← read_var self v idx;
  newobj (set_o_json (build (content_named self) json_string) (Some json_string)).

(** [ObjectStore.save], the method that [__init__] wraps. *)
Definition save (self : ObjectStore) (obj : loc) (idx : Z) : M unit :=
  o ← getobj obj;
  (if has_uid self then
     match o_uid o with
     | Some u => write_var self v_uid idx u
     | None => mret tt
     end
   else mret tt);;
  save_json self v_json idx obj.

(** [ObjectStore.load], the method that [__init__] wraps. *)
Definition load (self : ObjectStore) (idx : Z) : M loc :=
  load_json self v_json idx.

(** [ObjectStore.get_uid], as called under [self.has_uid]. *)
Definition get_uid (self : ObjectStore) (idx : Z) : M string :=
  read_var self v_uid idx.

(** [ObjectStore._update_name_in_cache].  The membership test is made on
    [self.cache]; when the name is a key of the cache, [idx not in
    self.cache[name]] asks a stored object for membership, which is a
    [TypeError]. *)
Definition _update_name_in_cache (self : ObjectStore) (name : option string) (idx : pyidx) : M unit :=
  if decide (name = Some "") then mret tt
  else
    st ← get_state self;
    match cache st !! key_of_name name with
    | None => put_state self (set_name_idx st (<[key_of_name name := [idx]]> (name_idx st)))
    | Some _ => raise TypeError
    end.

(** [ObjectStore.update_name_cache] *)
Definition update_name_cache (self : ObjectStore) : M unit :=
  if has_name self then
    st ← get_state self;
    if _names_loaded st then mret tt
    else
      forM_ (λ i : nat, _update_name_in_cache self
                          (Some (cell (var_name st) (Z.of_nat i))) (IInt (Z.of_nat i)))
            (seq 0 (dim st));;
      st' ← get_state self;
      put_state self (set_names_loaded st' true)
  else mret tt.

(** ** The decorators *)

(** [loadidx] *)
Definition loadidx (func : Z → M loc) (self : ObjectStore) (idx : pyidx) : M (option loc) :=
  match idx with
  | IStr _ => raise ValueError
  | IInt n_idx | INp n_idx =>
      if decide (n_idx < 0) then mret None
      else
        n ← count self;
        if decide (n ≤ n_idx) then mret None
        else if decide (n_idx < 0) then mret None
        else
          obj ← func n_idx;
          o ← getobj obj;
          setobj obj (set_o_idx o (<[prefix self := n_idx]> (o_idx o)));;
          (if has_uid self then
             o ← getobj obj;
             match o_uid o with
             | None => u ← get_uid self n_idx; setobj obj (set_o_uid o (Some u))
             | Some _ => mret tt
             end
           else mret tt);;
          (if has_name self then
             o ← getobj obj;
             match o_name o with
             | Some _ =>
                 nm ← read_var self v_name n_idx;
                 setobj obj (fix_name (set_o_name o (Some (Some nm))))
             | None => mret tt
             end
           else mret tt);;
          mret (Some obj)
  end.

(** [saveidx] *)
Definition saveidx (func : loc → Z → M unit) (self : ObjectStore) (obj : loc)
    (idx : option pyidx) : M Z :=
  _ ← get_state self;
  o ← getobj obj;
  match idx, o_idx o !! prefix self with
  | None, Some i => mret i
  | _, _ =>
      idx' ← match idx with
             | None => free self
             | Some (IStr _) => raise ValueError
             | Some (IInt z) | Some (INp z) => mret z
             end;
      o ← getobj obj;
      setobj obj (set_o_idx o (<[prefix self := idx']> (o_idx o)));;
      reserve_idx self idx';;
      func obj idx';;
      (if has_uid self then
         o ← getobj obj;
         match o_uid o with
         | Some u => if decide (u = "") then mret tt else write_var self v_uid idx' u
         | None => mret tt
         end
       else mret tt);;
      (if has_name self then
         o ← getobj obj;
         match o_name o with
         | Some None => raise AttributeError
         | Some (Some s) => setobj obj (fix_name o);; write_var self v_name idx' s
         | None => mret tt
         end
       else mret tt);;
      mret idx'
  end.

(** [loadcache].  For an index that is neither a [str] nor an [int] the
    [else] branch builds the message of a [ValueError] by adding [idx] to
    a string, which is a [TypeError] for a numpy integer. *)
Definition loadcache (func : pyidx → M (option loc)) (self : ObjectStore) (idx : pyidx) :
    M (option loc) :=
  if match idx with IInt z | INp z => bool_decide (z < 0) | IStr _ => false end
  then mret None
  else
    n_idx ← match idx with
            | IStr s =>
                if has_name self then
                  update_name_cache self;;
                  st ← get_state self;
                  match name_idx st !! KStr s with
                  | Some l =>
                      (if decide (1 < length l)%nat then
                         match cache st !! KStr s with
                         | Some _ => raise TypeError
                         | None => raise KeyError
                         end
                       else mret tt);;
                      match l with
                      | i :: _ => mret i
                      | [] => raise IndexError
                      end
                  | None => raise ValueError
                  end
                else mret idx
            | IInt _ => mret idx
            | INp _ => raise TypeError
            end;
    st ← get_state self;
    match cache st !! key_of_idx n_idx with
    | Some obj => mret (Some obj)
    | None =>
        r ← func n_idx;
        match r with
        | Some obj =>
            o ← getobj obj;
            match o_idx o !! prefix self with
            | Some i =>
                st ← get_state self;
                put_state self (set_cache st (<[KInt i := obj]> (cache st)));;
                (if has_name self then
                   match o_name o with
                   | Some nm =>
                       if decide (nm = Some "") then mret tt
                       else _update_name_in_cache self nm n_idx
                   | None => raise AttributeError
                   end
                 else mret tt);;
                mret (Some obj)
            | None => raise KeyError
            end
        | None => mret None
        end
    end.

(** [savecache] *)
Definition savecache (func : loc → option pyidx → M Z) (self : ObjectStore) (obj : loc)
    (idx : option pyidx) : M Z :=
  func obj idx;;
  o ← getobj obj;
  match o_idx o !! prefix self with
  | Some i =>
      st ← get_state self;
      put_state self (set_cache st (<[KInt i := obj]> (cache st)));;
      (if has_name self then
         match o_name o with
         | Some nm =>
             if decide (nm = Some "") then mret tt
             else _update_name_in_cache self nm (IInt i)
         | None => raise AttributeError
         end
       else mret tt);;
      mret i
  | None => raise KeyError
  end.

(** The methods [self.save] and [self.load] of a store instance, as
    [__init__] binds them (partial loading is off: [ObjectStore] has no
    [load_empty]). *)
Definition self_save (self : ObjectStore) : loc → option pyidx → M Z :=
  if caching self then savecache (saveidx (save self) self) self
  else saveidx (save self) self.

Definition self_load (self : ObjectStore) : pyidx → M (option loc) :=
  if caching self then loadcache (loadidx (load self) self) self
  else loadidx (load self) self.

(** ** Queries *)

Inductive pyitem : Type :=
  | ItemIdx (i : pyidx)
  | ItemList (l : list pyidx).

Inductive pyresult : Type :=
  | RObj (o : option loc)
  | RList (l : list (option loc)).

(** [try: ... except KeyError: return None] *)
Definition except_KeyError (m : M pyresult) : M pyresult := λ w,
  match m w with
  | (Raise KeyError, w') => (Ret (RObj None), w')
  | r => r
  end.

(** [ObjectStore.__getitem__], for an index, a name or a list of them; an
    item of another type, as a numpy integer is, meets no branch, and the
    result is [None]. *)
Definition __getitem__ (self : ObjectStore) (item : pyitem) : M pyresult :=
  except_KeyError
    match item with
    | ItemIdx (INp _) => mret (RObj None)
    | ItemIdx i => r ← self_load self i; mret (RObj r)
    | ItemList l => rs ← mapM (self_load self) l; mret (RList rs)
    end.

(** [ObjectStore.find] *)
Definition find (self : ObjectStore) (name : string) : M pyresult :=
  if has_name self then
    st ← get_state self;
    (if decide (name_idx st !! KStr name = None) then update_name_cache self
     else mret tt);;
    st ← get_state self;
    match name_idx st !! KStr name with
    | Some l => __getitem__ self (ItemList l)
    | None => raise KeyError
    end
  else mret (RList []).

(** [ObjectStore.find_first] *)
Definition find_first (self : ObjectStore) (name : string) : M pyresult :=
  if has_name self then
    st ← get_state self;
    (if decide (name_idx st !! KStr name = None) then update_name_cache self
     else mret tt);;
    st ← get_state self;
    match name_idx st !! KStr name with
    | Some (i :: _) => __getitem__ self (ItemIdx i)
    | Some [] => mret (RObj None)
    | None => raise KeyError
    end
  else mret (RObj None).

(** [ObjectStore.last] *)
Definition last (self : ObjectStore) : M (option loc) :=
  n ← count self;
  self_load self (IInt (n - 1)).

(** [ObjectStore.first] *)
Definition first (self : ObjectStore) : M (option loc) :=
  self_load self (IInt 0).

(** ** Conversion utilities *)

(** The element types that [_parse_var_type_as_np_type] and
    [list_to_numpy] choose from. *)
Inductive np_type : Type :=
  | np_float32
  | np_int32
  | np_uint8
  | np_str.

(** [ObjectStore._parse_var_type_as_np_type]: the result is [types[var_type]],
    a [KeyError] for a type that is not in the table. *)
Definition _parse_var_type_as_np_type (var_type : string) : outcome np_type :=
  if decide (var_type = "float") then Ret np_float32
  else if decide (var_type = "int") then Ret np_int32
  else if decide (var_type = "index") then Ret np_int32
  else if decide (var_type = "length") then Ret np_int32
  else if decide (var_type = "bool") then Ret np_uint8
  else if decide (var_type = "str") then Ret np_str
  else Raise KeyError.

(** Two's-complement wrap-around of a C cast to a 32-bit signed and to an
    8-bit unsigned integer, and the cast of the integer part of a float to
    a 32-bit signed integer, which gives the least integer when 32 bits do
    not hold it. *)
Definition wrap_int32 (z : Z) : Z := (z + 2 ^ 31) mod 2 ^ 32 - 2 ^ 31.
Definition wrap_uint8 (z : Z) : Z := z mod 2 ^ 8.
Definition cast_int32 (z : Z) : Z :=
  if decide (- 2 ^ 31 ≤ z < 2 ^ 31) then z else - 2 ^ 31.

(** The integers that numpy holds in 64 bits, signed or unsigned; a list
    with an integer beyond them becomes an array of objects, whose
    conversion to a C integer is an [OverflowError]. *)
Definition fits_64 (z : Z) : bool := bool_decide (- 2 ^ 63 ≤ z < 2 ^ 64).

(** [self.load_variable(name, idx)] on an integer variable of the file. *)
Definition load_variable (name : string) (idx : Z) : M Z := λ w,
  match variables w !! name with
  | Some col =>
      match col !! idx with
      | Some z => (Ret z, w)
      | None => (Raise IndexError, w)
      end
  | None => (Raise KeyError, w)
  end.

(** [getattr(self.storage, name)]: the store that the storage exposes
    under an attribute name. *)
Definition storage_getattr (name : string) : M ObjectStore := λ w,
  match storage_attrs w !! name with
  | Some store => (Ret store, w)
  | None => (Raise AttributeError, w)
  end.

(** [ObjectStore.load_object]; the index that is read from the file is
    passed to [load] as it is, a numpy integer. *)
Definition load_object (self : ObjectStore) (name : string) (idx : Z) (store : ObjectStore) :
    M (option loc) :=
  index ← load_variable (name +:+ "_idx") idx;
  if decide (index < 0) then mret None
  else self_load store (INp index).

Section numpy.

(** Floating-point numbers are kept abstract: [float] is the type of
    Python floats, [single] rounds to single precision (the effect of
    [astype(np.float32)] on a float), [float_of_int] converts an integer
    and [trunc] is the conversion of a float to an integer. *)
Variable float : Type.
Variable float_of_int : Z → float.
Variable single : float → float.
Variable trunc : float → Z.

Inductive pyval : Type :=
  | PyNone
  | PyBool (b : bool)
  | PyInt (z : Z)
  | PyFloat (x : float)
  | PyRef (l : loc).

(** A one-dimensional numpy array: its element type and its elements,
    as [tolist] gives them back. *)
Record ndarray : Type := NdArray {
  dtype : np_type;
  items : list pyval
}.

Definition int_of_bool (b : bool) : Z := if b then 1 else 0.

(** One element of [np.array(data).astype(t)], for a list whose elements
    are of one type. *)
Definition astype_item (t : np_type) (v : pyval) : outcome pyval :=
  match t, v with
  | np_float32, PyBool b => Ret (PyFloat (single (float_of_int (int_of_bool b))))
  | np_float32, PyInt z => Ret (PyFloat (single (float_of_int z)))
  | np_float32, PyFloat x => Ret (PyFloat (single x))
  | np_int32, PyBool b => Ret (PyInt (int_of_bool b))
  | np_int32, PyInt z =>
      if fits_64 z then Ret (PyInt (wrap_int32 z)) else Raise OverflowError
  | np_int32, PyFloat x => Ret (PyInt (cast_int32 (trunc x)))
  | np_uint8, PyBool b => Ret (PyInt (int_of_bool b))
  | np_uint8, PyInt z =>
      if fits_64 z then Ret (PyInt (wrap_uint8 z)) else Raise OverflowError
  | np_uint8, PyFloat x => Ret (PyInt (wrap_uint8 (trunc x)))
  | _, _ => Raise TypeError
  end.

Fixpoint astype_items (t : np_type) (data : list pyval) : outcome (list pyval) :=
  match data with
  | [] => Ret []
  | v :: data' =>
      match astype_item t v with
      | Ret x =>
          match astype_items t data' with
          | Ret xs => Ret (x :: xs)
          | Raise e => Raise e
          end
      | Raise e => Raise e
      end
  end.

(** [np.array(data).astype(t)] *)
Definition astype (t : np_type) (data : list pyval) : M ndarray := λ w,
  match astype_items t data with
  | Ret xs => (Ret (NdArray t xs), w)
  | Raise e => (Raise e, w)
  end.

(** [-1 if value is None and allow_empty is True else value.idx[self]] *)
Definition index_of_value (self : ObjectStore) (allow_empty : bool) (value : pyval) : M pyval :=
  match value with
  | PyNone => if allow_empty then mret (PyInt (-1)) else raise AttributeError
  | PyRef l =>
      o ← getobj l;
      match o_idx o !! prefix self with
      | Some i => mret (PyInt i)
      | None => raise KeyError
      end
  | _ => raise AttributeError
  end.

(** [ObjectStore.list_to_numpy] *)
Definition list_to_numpy (self : ObjectStore) (data : list pyval) (value_type : string)
    (allow_empty : bool) : M ndarray :=
  if decide (value_type = "int") then astype np_float32 data
  else if decide (value_type = "float") then astype np_float32 data
  else if decide (value_type = "bool") then astype np_uint8 data
  else if decide (value_type = "index") then astype np_int32 data
  else if decide (value_type = "length") then astype np_int32 data
  else
    values ← mapM (index_of_value self allow_empty) data;
    astype np_int32 values.

(** [key_store.load(obj_idx) if allow_empty is False or obj_idx >= 0
    else None]; the elements of an index array are integers. *)
Definition value_of_index (key_store : ObjectStore) (allow_empty : bool) (obj_idx : pyval) :
    M pyval :=
  match obj_idx with
  | PyInt i =>
      if negb allow_empty || bool_decide (0 ≤ i) then
        r ← self_load key_store (IInt i);
        mret (match r with Some l => PyRef l | None => PyNone end)
      else mret PyNone
  | _ => raise TypeError
  end.

(** [ObjectStore.list_from_numpy] *)
Definition list_from_numpy (self : ObjectStore) (values : ndarray) (value_type : string)
    (allow_empty : bool) : M (list pyval) :=
  if decide (value_type = "int") then mret (items values)
  else if decide (value_type = "float") then mret (items values)
  else if decide (value_type = "bool") then mret (items values)
  else if decide (value_type = "index") then mret (items values)
  else if decide (value_type = "length") then mret (items values)
  else
    _ ← get_state self;
    key_store ← storage_getattr value_type;
    mapM (value_of_index key_store allow_empty) (items values).

End numpy.

Arguments PyNone {float}.
Arguments PyBool {float} b.
Arguments PyInt {float} z.
Arguments PyFloat {float} x.
Arguments PyRef {float} l.
Arguments NdArray {float} dtype items.
Arguments dtype {float} n.
Arguments items {float} n.


(** ** Further methods of [ObjectStore] *)

Definition set_cached_all (st : store_state) (b : bool) : store_state :=
  StoreState (cache st) (name_idx st) (_free st) b (_names_loaded st)
    (dim st) (var_json st) (var_name st) (var_uid st).

(** [ObjectStore.idx]; every storable object has an [idx] dictionary. *)
Definition idx (self : ObjectStore) (obj : loc) : M (option Z) :=
  o ← getobj obj;
  mret (o_idx o !! prefix self).

(** [ObjectStore.__len__] *)
Definition __len__ (self : ObjectStore) : M Z := count self.

(** [ObjectStore.idx_by_name].  The values of the cache are objects, so
    that [type(self.cache[needle]) is int] does not hold. *)
Definition idx_by_name (self : ObjectStore) (needle : string) : M (option Z) :=
  if has_uid self then
    st ← get_state self;
    match cache st !! KStr needle with
    | Some obj =>
        o ← getobj obj;
        match o_idx o !! prefix self with
        | Some i => mret (Some i)
        | None => raise KeyError
        end
    | None =>
        let found_idx :=
          filter (λ i : nat, cell (var_uid st) (Z.of_nat i) = needle) (seq 0 (dim st)) in
        match found_idx with
        | i :: _ => mret (Some (Z.of_nat i))
        | [] => mret None
        end
    end
  else raise ValueError.

(** [ObjectStore.find_indices] *)
Definition find_indices (self : ObjectStore) (name : string) : M (list pyidx) :=
  if has_name self then
    st ← get_state self;
    (if decide (name_idx st !! KStr name = None) then update_name_cache self
     else mret tt);;
    st ← get_state self;
    match name_idx st !! KStr name with
    | Some l => mret l
    | None => raise KeyError
    end
  else mret [].

(** [ObjectStore.clear_cache] *)
Definition clear_cache (self : ObjectStore) : M unit :=
  st ← get_state self;
  put_state self (set_cached_all (set_cache st ∅) false).

(** [ObjectStore.add_single_to_cache] *)
Definition add_single_to_cache (self : ObjectStore) (idx : Z) (json : string) : M unit :=
  st ← get_state self;
  match cache st !! KInt idx with
  | Some _ => mret tt
  | None =>
      obj ← newobj (build (content_named self) json);
      o ← getobj obj;
      setobj obj (set_o_json o (Some json));;
      o ← getobj obj;
      setobj obj (set_o_idx o (<[prefix self := idx]> (o_idx o)));;
      st ← get_state self;
      put_state self (set_cache st (<[KInt idx := obj]> (cache st)));;
      (if has_name self then
         name ← read_var self v_name idx;
         o ← getobj obj;
         setobj obj (set_o_name o (Some (Some name)));;
         if decide (name = "") then mret tt
         else _update_name_in_cache self (Some name) (IInt idx)
       else mret tt);;
      (if has_uid self then
         o ← getobj obj;
         match o_uid o with
         | None => u ← get_uid self idx; setobj obj (set_o_uid o (Some u))
         | Some _ => mret tt
         end
       else mret tt)
  end.

(** [ObjectStore.cache_all]; the payloads are read at once before the
    loop. *)
Definition cache_all (self : ObjectStore) : M unit :=
  st ← get_state self;
  if _cached_all st then mret tt
  else
    forM_ (λ i : nat, add_single_to_cache self (Z.of_nat i)
                        (cell (var_json st) (Z.of_nat i)))
          (seq 0 (dim st));;
    st' ← get_state self;
    put_state self (set_cached_all st' true).

(** ** Iteration *)

(** A [slice] with integer bounds. *)
Record pyslice : Type := PySlice {
  start : Z;
  stop : Z;
  step : option Z
}.

(** The attributes of an [ObjectIterator]. *)
Record ObjectIterator : Type := MkIterator {
  it_storage : ObjectStore;
  it_range : option pyslice;
  it_idx : Z;
  it_end : Z
}.

(** [ObjectStore.iterator]: the constructor of [ObjectIterator]. *)
Definition iterator (this : ObjectStore) (iter_range : option pyslice) : M ObjectIterator :=
  match iter_range with
  | None => n ← count this; mret (MkIterator this None 0 n)
  | Some r => mret (MkIterator this (Some r) (start r) (stop r))
  end.

(** [ObjectStore.__iter__] *)
Definition __iter__ (self : ObjectStore) : M ObjectIterator := iterator self None.

(** What a call of [next] gives: the object that was loaded, or the end
    of the iteration ([raise StopIteration()]).  The iterator is returned
    with its new position. *)
Inductive iteration : Type :=
  | Yield (obj : option loc)
  | StopIteration.

(** [ObjectIterator.next] *)
Definition next (it : ObjectIterator) : M (iteration * ObjectIterator) :=
  if decide (it_idx it < it_end it) then
    obj ← self_load (it_storage it) (IInt (it_idx it));
    let idx' := match it_range it with
                | Some r => match step r with
                            | Some s => it_idx it + s
                            | None => it_idx it + 1
                            end
                | None => it_idx it + 1
                end in
    mret (Yield obj, MkIterator (it_storage it) (it_range it) idx' (it_end it))
  else mret (StopIteration, it).

(** A [for] loop over an iterator, as in [list(store)]: [next] is called
    until the iteration stops; [fuel] bounds the number of calls, and the
    result is [None] when the bound is reached first. *)
Fixpoint collect (fuel : nat) (it : ObjectIterator) : M (option (list (option loc))) :=
  match fuel with
  | O => mret None
  | S fuel' =>
      r ← next it;
      match r with
      | (Yield obj, it') =>
          rest ← collect fuel' it';
          mret (cons obj <$> rest)
      | (StopIteration, _) => mret (Some [])
      end
  end.
(** ** Auxiliary definitions *)

(** The index that [free] returns in a store state, and the reservation
    set that it leaves behind. *)
Definition live_free (st : store_state) : gset Z :=
  filter (λ idx, Z.of_nat (dim st) ≤ idx) (_free st).

Definition free_idx (st : store_state) : Z :=
  free_loop (S (size (live_free st))) (live_free st) (Z.of_nat (dim st)).

(** The state of a store after a write of [value] at a nonnegative index
    of one of its variables. *)
Definition st_write (v : store_var) (st : store_state) (idx : Z) (value : string) : store_state :=
  set_var v st (Nat.max (dim st) (Z.to_nat idx + 1)) (<[idx := value]> (get_var v st)).

(** The effect of [saveidx] around [save] once the index [i] is chosen:
    the object and the store state that it leaves, and its outcome. *)
Definition obj_saved (self : ObjectStore) (o : pyobj) (i : Z) : pyobj :=
  let o1 := set_o_idx o (<[prefix self := i]> (o_idx o)) in
  let o2 := match o_json o1 with
            | Some _ => o1
            | None => set_o_json o1 (Some (object_to_json o1))
            end in
  if has_name self then
    match o_name o2 with
    | Some (Some _) => fix_name o2
    | _ => o2
    end
  else o2.

Definition st_saved (self : ObjectStore) (o : pyobj) (i : Z) (st : store_state) : store_state :=
  let st1 := set_free st ({[i]} ∪ _free st) in
  let st2 := if has_uid self then
               match o_uid o with
               | Some u => st_write v_uid st1 i u
               | None => st1
               end
             else st1 in
  let st3 := st_write v_json st2 i (default (object_to_json o) (o_json o)) in
  let st4 := if has_uid self then
               match o_uid o with
               | Some u => if decide (u = "") then st3 else st_write v_uid st3 i u
               | None => st3
               end
             else st3 in
  if has_name self then
    match o_name o with
    | Some (Some s) => st_write v_name st4 i s
    | _ => st4
    end
  else st4.

Definition save_outcome (self : ObjectStore) (o : pyobj) (i : Z) : outcome Z :=
  if has_name self then
    match o_name o with
    | Some None => Raise AttributeError
    | _ => Ret i
    end
  else Ret i.

(** The effect of the cache update that [savecache] and [loadcache] make
    for the object [obj], whose attributes are [o], under the index [i]
    and the recorded index [n_idx]. *)
Definition st_cached (self : ObjectStore) (o : pyobj) (obj : loc) (i : Z) (n_idx : pyidx)
    (st : store_state) : store_state :=
  let st1 := set_cache st (<[KInt i := obj]> (cache st)) in
  if has_name self then
    match o_name o with
    | Some nm =>
        if decide (nm = Some "") then st1
        else
          match cache st1 !! key_of_name nm with
          | None => set_name_idx st1 (<[key_of_name nm := [n_idx]]> (name_idx st1))
          | Some _ => st1
          end
    | None => st1
    end
  else st1.

Definition cached_outcome {A : Type} (self : ObjectStore) (o : pyobj) (obj : loc) (i : Z)
    (st : store_state) (a : A) : outcome A :=
  if has_name self then
    match o_name o with
    | Some nm =>
        if decide (nm = Some "") then Ret a
        else
          match <[KInt i := obj]> (cache st) !! key_of_name nm with
          | None => Ret a
          | Some _ => Raise TypeError
          end
    | None => Raise AttributeError
    end
  else Ret a.

(** ** Well-formed worlds *)

(** The keys of the cache are integer indices of rows of the table. *)
Definition cache_ok (st : store_state) : Prop :=
  ∀ k l, cache st !! k = Some l → ∃ z, k = KInt z ∧ z < Z.of_nat (dim st).

(** The index of an object in a store is the index of a row of its table:
    "an object ... transitions from unsaved to saved (assigned a
    nonnegative integer index)", and the table has that row. *)
Definition idx_ok (w : world) : Prop :=
  ∀ l o p i st, heap w !! l = Some o → o_idx o !! p = Some i →
    stores w !! p = Some st → 0 ≤ i < Z.of_nat (dim st).

Definition wf_world (w : world) : Prop :=
  (∀ p st, stores w !! p = Some st → cache_ok st) ∧ idx_ok w.

(** An object that a store can hold: the instances of the content class of
    a name-enabled store carry a [_name] attribute. *)
Definition storable (self : ObjectStore) (o : pyobj) : Prop :=
  has_name self = true → is_Some (o_name o).

(** The rows of the table of a store: the length of its dimension and the
    three variables over it. *)
Definition same_rows (st st' : store_state) : Prop :=
  dim st' = dim st ∧ var_json st' = var_json st
  ∧ var_name st' = var_name st ∧ var_uid st' = var_uid st.

(** The object that [loadidx] around [load] builds from row [n] of the
    table of a store. *)
Definition obj_loaded (self : ObjectStore) (st : store_state) (n : Z) : pyobj :=
  let json_string := cell (var_json st) n in
  let o0 := set_o_json (build (content_named self) json_string) (Some json_string) in
  let o1 := set_o_idx o0 (<[prefix self := n]> (o_idx o0)) in
  let o2 := if has_uid self then
              match o_uid o1 with
              | None => set_o_uid o1 (Some (cell (var_uid st) n))
              | Some _ => o1
              end
            else o1 in
  if has_name self then
    match o_name o2 with
    | Some _ => fix_name (set_o_name o2 (Some (Some (cell (var_name st) n))))
    | None => o2
    end
  else o2.

(** A computation that keeps worlds well formed, whatever its outcome. *)
Definition preserves {A : Type} (m : M A) : Prop :=
  ∀ w, wf_world w → wf_world (m w).2.

(** The name of an object is set: under a name-enabled store the object
    has a [_name] attribute that holds a string. *)
Definition name_is_set (self : ObjectStore) (o : pyobj) : Prop :=
  has_name self = true → ∃ s, o_name o = Some (Some s).

(** ** A small storage *)

(** A name-enabled store with caching, registered under the prefix "traj"
    and exposed by the storage as [trajectories]; three objects that were
    never saved, two of them with the same name and one whose name is
    still [None]. *)
Definition traj_store : ObjectStore :=
  {| prefix := "traj"; content_named := true; has_uid := false;
     has_name := true; caching := true; nestable := false |}.

Definition named_obj (name : option string) (body : string) : pyobj :=
  PyObj ∅ None (Some name) false None body.

Definition example_world : world :=
  World [named_obj (Some "x") "A"; named_obj (Some "x") "B"; named_obj None "C"]
        {["traj" := new_store]} {["trajectories" := traj_store]} ∅.

(** Modelled from the spec: the Serializer resolves "nested storable
    references to indices via their own stores", that is, it saves a
    referenced object before the payload of the referring one is written.
    [save_nesting self inner] is the [save] method of a store for an
    object that refers to the object [inner] of the same store. *)
Definition save_nesting (self : ObjectStore) (inner : loc) (save_ : loc → option pyidx → M Z) :
    loc → Z → M unit :=
  λ obj idx, save_ inner None;; save self obj idx.

(** A value type that names a store, that is, none of the five scalar
    types that [list_to_numpy] and [list_from_numpy] test for. *)
Definition object_type (value_type : string) : Prop :=
  value_type ≠ "int" ∧ value_type ≠ "float" ∧ value_type ≠ "bool"
  ∧ value_type ≠ "index" ∧ value_type ≠ "length".

(** The Python value that stands for the result of a [load]. *)
Definition value_of_loaded {float : Type} (r : option loc) : pyval float :=
  match r with Some l => PyRef l | None => PyNone end.

(** The small storage after the first object was saved, and after the
    second one was saved too. *)
Definition saved_world : world :=
  (self_save traj_store 0%nat None example_world).2.

Definition twice_saved_world : world :=
  (self_save traj_store 1%nat None saved_world).2.

(** A storage opened again on the same file: the tables are what they
    were, the heap and the memory of the stores are new. *)
Definition reopen (w : world) : world :=
  World []
    ((λ st, StoreState ∅ ∅ ∅ false false (dim st) (var_json st) (var_name st) (var_uid st))
       <$> stores w)
    (storage_attrs w) (variables w).

(** ** Reachable worlds *)

(** The index argument of a [save]: none, a name, or an index that is not
    negative ("assigned a nonnegative integer index"). *)
Definition save_index_ok (idx : option pyidx) : Prop :=
  match idx with Some (IInt j) | Some (INp j) => 0 ≤ j | _ => True end.

(** The worlds that a program reaches from a storage that was just
    created when its objects refer to no other storable object: it makes
    new objects, changes attributes of objects other than [idx], and calls
    the methods of the stores.  (A save that nests and fails leaves an
    index without a row, see [failed_world]; [reaches] has such saves.) *)
Inductive reachable : world → Prop :=
  | reach_created s a v :
      (∀ p st, s !! p = Some st → st = new_store) → reachable (World [] s a v)
  | reach_new_object w o :
      reachable w → o_idx o = ∅ → reachable (set_heap w (heap w ++ [o]))
  | reach_set_attribute w l o o' :
      reachable w → heap w !! l = Some o → o_idx o' = o_idx o →
      reachable (set_heap w (<[l := o']> (heap w)))
  | reach_save w self obj idx :
      reachable w → save_index_ok idx → reachable (self_save self obj idx w).2
  | reach_load w self idx :
      reachable w → reachable (self_load self idx w).2
  | reach_find w self name :
      reachable w → reachable (find self name w).2
  | reach_find_first w self name :
      reachable w → reachable (find_first self name w).2
  | reach_first w self :
      reachable w → reachable (first self w).2
  | reach_last w self :
      reachable w → reachable (last self w).2
  | reach_free w self :
      reachable w → reachable (free self w).2
  | reach_reserve_idx w self idx :
      reachable w → reachable (reserve_idx self idx w).2.

(** ** Definitions for the further properties *)

(** The payload that [save_json] writes for an object: the [json]
    attribute when the object has one, its serialised form otherwise. *)
Definition payload (o : pyobj) : string := default (object_to_json o) (o_json o).

(** The instances that a name-enabled store builds carry a name. *)
Definition class_ok (self : ObjectStore) : Prop :=
  has_name self = true → content_named self = true.

(** A store without caching and without names, registered under the
    prefix "snap", and a storage that holds it with one saved object. *)
Definition snap_store : ObjectStore :=
  {| prefix := "snap"; content_named := false; has_uid := true;
     has_name := false; caching := false; nestable := false |}.

Definition snap_world : world :=
  (self_save snap_store 0%nat None
     (World [PyObj ∅ (Some "u0") None false None "S"] {["snap" := new_store]}
            {["snapshots" := snap_store]} ∅)).2.

(** A computation whose final world is related to the initial one by [R],
    whatever its outcome. *)
Definition stays {A : Type} (R : world → world → Prop) (m : M A) : Prop :=
  ∀ w, R w (m w).2.

(** What a call of a method of the store [self] for the object [obj] may
    change: the attributes of [obj] and the state of [self]. *)
Definition save_frame (self : ObjectStore) (obj : loc) (w w' : world) : Prop :=
  length (heap w') = length (heap w)
  ∧ (∀ l, l ≠ obj → heap w' !! l = heap w !! l)
  ∧ (∀ q, q ≠ prefix self → stores w' !! q = stores w !! q)
  ∧ storage_attrs w' = storage_attrs w
  ∧ variables w' = variables w.

(** What a query of the store [self] may change: it makes new objects
    and updates the memory of [self] (the cache, the index of names and
    the flags); the objects that exist, the table of [self] with its
    reservations and the other stores stay as they are. *)
Definition read_only (self : ObjectStore) (w w' : world) : Prop :=
  (∃ new, heap w' = heap w ++ new)
  ∧ (∀ q, q ≠ prefix self → stores w' !! q = stores w !! q)
  ∧ (∀ st, stores w !! prefix self = Some st →
       ∃ st', stores w' !! prefix self = Some st' ∧ same_rows st st' ∧ _free st' = _free st)
  ∧ (stores w !! prefix self = None → stores w' !! prefix self = None)
  ∧ storage_attrs w' = storage_attrs w
  ∧ variables w' = variables w.

(** The index of names after the loop of [update_name_cache] went through
    the rows [rows] of the name column [col], from the index [m]. *)
Definition names_of (col : gmap Z string) (rows : list nat) (m : gmap key (list pyidx)) :
    gmap key (list pyidx) :=
  foldl (λ m i, if decide (cell col (Z.of_nat i) = "") then m
                else <[KStr (cell col (Z.of_nat i)) := [IInt (Z.of_nat i)]]> m) m rows.

(** The step of an iterator: [iter_range.step] when there is a range with
    a step, one otherwise. *)
Definition step_of (it : ObjectIterator) : Z :=
  match it_range it with
  | Some r => default 1 (step r)
  | None => 1
  end.

(** The object that [add_single_to_cache] builds for row [i] of the table
    from the payload [json]. *)
Definition obj_cached (self : ObjectStore) (st : store_state) (i : Z) (json : string) : pyobj :=
  let o0 := set_o_json (build (content_named self) json) (Some json) in
  let o1 := set_o_idx o0 (<[prefix self := i]> (o_idx o0)) in
  let o2 := if has_name self
            then set_o_name o1 (Some (Some (cell (var_name st) i)))
            else o1 in
  if has_uid self then
    match o_uid o2 with
    | None => set_o_uid o2 (Some (cell (var_uid st) i))
    | Some _ => o2
    end
  else o2.

(** An element of a list of references that a store can convert and give
    back: [None], or an object that the store holds in its cache under
    the index that the object carries, the index being one that a 32-bit
    integer holds. *)
Definition held_value {float : Type} (self : ObjectStore) (w : world) (v : pyval float) : Prop :=
  match v with
  | PyNone => True
  | PyRef l =>
      ∃ o i st, heap w !! l = Some o ∧ o_idx o !! prefix self = Some i
                ∧ stores w !! prefix self = Some st ∧ cache st !! KInt i = Some l
                ∧ 0 ≤ i < 2 ^ 31
  | _ => False
  end.

(** The small storage with two saved objects, opened again. *)
Definition reopened_world : world := reopen twice_saved_world.

(** The state of the store of the small storage after the first save,
    and the one after it was opened again with two rows. *)
Definition saved_state : store_state :=
  StoreState {[KInt 0 := 0%nat]} {[KStr "x" := [IInt 0]]} {[0]} false false 1%nat
    {[0 := "A"]} {[0 := "x"]} ∅.

Definition reopened_state : store_state :=
  StoreState ∅ ∅ ∅ false false 2%nat {[0 := "A"; 1 := "B"]} {[0 := "x"; 1 := "x"]} ∅.

Definition snap_state : store_state :=
  StoreState ∅ ∅ {[0]} false false 1%nat {[0 := "S"]} ∅ {[0 := "u0"]}.

(** ** A save that fails after the index was assigned *)

(** The [save] method of a store instance, as [__init__] binds it, for an
    object whose serialisation saves the object [inner] through [save_]
    (see [save_nesting]). *)
Definition self_save_nesting (self : ObjectStore) (inner : loc)
    (save_ : loc → option pyidx → M Z) : loc → option pyidx → M Z :=
  if caching self then savecache (saveidx (save_nesting self inner save_) self) self
  else saveidx (save_nesting self inner save_) self.

(** A storage with two name-enabled stores and two objects that were
    never saved: object 0 belongs to the store "traj" and refers to
    object 1, which belongs to the store "ens" and whose name is still
    [None]. *)
Definition ens_store : ObjectStore :=
  {| prefix := "ens"; content_named := true; has_uid := false;
     has_name := true; caching := true; nestable := false |}.

Definition pair_world : world :=
  World [named_obj (Some "x") "A"; named_obj None "E"]
        {["traj" := new_store; "ens" := new_store]}
        {["trajectories" := traj_store; "ensembles" := ens_store]} ∅.

(** The storage after [trajectories.save] of object 0 was tried, and after
    it was tried again. *)
Definition failed_world : world :=
  (self_save_nesting traj_store 1%nat (self_save ens_store) 0%nat None pair_world).2.

Definition retried_world : world :=
  (self_save_nesting traj_store 1%nat (self_save ens_store) 0%nat None failed_world).2.

(** The small storage after the first save, with an integer variable
    [sample_idx] that holds the index 0 in its row 0 and -1 in its
    row 1. *)
Definition ref_world : world :=
  World (heap saved_world) (stores saved_world) (storage_attrs saved_world)
        {["sample_idx" := {[0 := 0; 1 := -1]}]}.

(** What no query changes, in whichever store: the objects that exist,
    and the rows and the reservations of every table. *)
Definition file_kept (w w' : world) : Prop :=
  (∀ l o, heap w !! l = Some o → heap w' !! l = Some o)
  ∧ (∀ q st, stores w !! q = Some st →
       ∃ st', stores w' !! q = Some st' ∧ same_rows st st' ∧ _free st' = _free st).

(** A storage with an object that carries its [json] attribute and an
    index in a store of another storage, as an object does that was
    loaded there. *)
Definition copied_obj : pyobj :=
  PyObj {["arch" := 3]} None (Some (Some "x")) true (Some "A") "A".

Definition copy_world : world :=
  World [copied_obj] {["traj" := new_store]} {["trajectories" := traj_store]} ∅.


(** ** What every program keeps *)




(** A property of the world that, once it holds, holds afterwards. *)
Definition persists (P : world → Prop) (w w' : world) : Prop := P w → P w'.

(** * Properties *)

(** ** Running a computation step by step *)

Lemma run_bind {A B : Type} (m : M A) (f : A → M B) w a w' :
  m w = (Ret a, w') → (m ≫= f) w = f a w'.
Proof. intros H. unfold mbind, M_bind. by rewrite H. Qed.

Lemma run_bind_raise {A B : Type} (m : M A) (f : A → M B) w e w' :
  m w = (Raise e, w') → (m ≫= f) w = (Raise e, w').
Proof. intros H. unfold mbind, M_bind. by rewrite H. Qed.

Lemma run_get_state self w st :
  stores w !! prefix self = Some st → get_state self w = (Ret st, w).
Proof. intros H. unfold get_state. by rewrite H. Qed.

Lemma run_getobj obj w o :
  heap w !! obj = Some o → getobj obj w = (Ret o, w).
Proof. intros H. unfold getobj. by rewrite H. Qed.

Lemma run_count self w st :
  stores w !! prefix self = Some st → count self w = (Ret (Z.of_nat (dim st)), w).
Proof. intros H. unfold count. by rewrite (run_bind _ _ _ _ _ (run_get_state _ _ _ H)). Qed.

(** ** The free index *)

Lemma run_free self w st :
  stores w !! prefix self = Some st →
  free self w =
    (Ret (free_idx st),
     set_stores w (<[prefix self := set_free st (live_free st)]> (stores w))).
Proof.
  intros H. unfold free.
  rewrite (run_bind _ _ _ _ _ (run_count _ _ _ H)).
  rewrite (run_bind _ _ _ _ _ (run_get_state _ _ _ H)).
  reflexivity.
Qed.

Lemma free_loop_spec fuel (fr : gset Z) (idx : Z) :
  (size (filter (λ i : Z, (idx ≤ i)%Z) fr) < fuel)%nat →
  (idx ≤ free_loop fuel fr idx)
  ∧ (free_loop fuel fr idx ∉ fr)
  ∧ ∀ j, idx ≤ j < free_loop fuel fr idx → j ∈ fr.
Proof.
  revert idx. induction fuel as [|fuel IH]; intros idx Hsz; [lia|].
  simpl. destruct (decide (idx ∈ fr)) as [Hin|Hout].
  - destruct (IH (idx + 1)) as (Hle & Hnot & Hbelow).
    + assert (filter (λ i : Z, idx + 1 ≤ i) fr ⊂ filter (λ i : Z, idx ≤ i) fr) as Hsub.
      { split.
        - intros x. rewrite !elem_of_filter. intros [? ?]. split; [lia | done].
        - intros Hback. specialize (Hback idx).
          rewrite !elem_of_filter in Hback.
          destruct Hback as [? _]; [split; [lia | done] | lia]. }
      apply subset_size in Hsub. lia.
    + split; [lia|]. split; [done|].
      intros j Hj. destruct (decide (j = idx)) as [->|]; [done|].
      apply Hbelow. lia.
  - split; [lia|]. split; [done|]. intros j Hj. lia.
Qed.

Lemma free_idx_spec st :
  (Z.of_nat (dim st) ≤ free_idx st)
  ∧ (free_idx st ∉ _free st)
  ∧ ∀ j, Z.of_nat (dim st) ≤ j < free_idx st → j ∈ _free st.
Proof.
  unfold free_idx.
  destruct (free_loop_spec (S (size (live_free st))) (live_free st) (Z.of_nat (dim st)))
    as (Hle & Hnot & Hbelow).
  { apply Nat.lt_succ_r, subseteq_size. intros x. rewrite elem_of_filter. tauto. }
  split; [done|]. split.
  - intros Hin. apply Hnot. unfold live_free. rewrite elem_of_filter. done.
  - intros j Hj. specialize (Hbelow j Hj). unfold live_free in Hbelow.
    rewrite elem_of_filter in Hbelow. tauto.
Qed.

(** ** The primitive steps on an explicit world *)

Lemma run_write_var self v idx value w st :
  stores w !! prefix self = Some st → 0 ≤ idx →
  write_var self v idx value w =
    (Ret tt, set_stores w (<[prefix self := st_write v st idx value]> (stores w))).
Proof.
  intros H Hidx. unfold write_var.
  rewrite (run_bind _ _ _ _ _ (run_get_state _ _ _ H)).
  unfold resolve_write. rewrite decide_True by done. reflexivity.
Qed.

Lemma run_read_var self v idx w st :
  stores w !! prefix self = Some st → 0 ≤ idx < Z.of_nat (dim st) →
  read_var self v idx w = (Ret (cell (get_var v st) idx), w).
Proof.
  intros H Hidx. unfold read_var.
  rewrite (run_bind _ _ _ _ _ (run_get_state _ _ _ H)).
  unfold resolve_read. rewrite !decide_True by lia. reflexivity.
Qed.

Lemma run_reserve_idx self idx w st :
  stores w !! prefix self = Some st →
  reserve_idx self idx w =
    (Ret tt, set_stores w (<[prefix self := set_free st ({[idx]} ∪ _free st)]> (stores w))).
Proof.
  intros H. unfold reserve_idx.
  by rewrite (run_bind _ _ _ _ _ (run_get_state _ _ _ H)).
Qed.

Lemma bind_ret {A B : Type} (a : A) (f : A → M B) w : (mret a ≫= f) w = f a w.
Proof. reflexivity. Qed.

Lemma bind_raise {A B : Type} e (f : A → M B) w : (raise e ≫= f) w = (Raise e, w).
Proof. reflexivity. Qed.

Lemma bind_assoc {A B C : Type} (m : M A) (f : A → M B) (g : B → M C) w :
  ((m ≫= f) ≫= g) w = (m ≫= (λ a, f a ≫= g)) w.
Proof. unfold mbind, M_bind. destruct (m w) as [[a|e] w']; reflexivity. Qed.

Lemma bind_get_state {B : Type} (f : store_state → M B) self w st :
  stores w !! prefix self = Some st → (get_state self ≫= f) w = f st w.
Proof. intros H. by rewrite (run_bind _ _ _ _ _ (run_get_state _ _ _ H)). Qed.

Lemma bind_getobj {B : Type} (f : pyobj → M B) obj w o :
  heap w !! obj = Some o → (getobj obj ≫= f) w = f o w.
Proof. intros H. by rewrite (run_bind _ _ _ _ _ (run_getobj _ _ _ H)). Qed.

Lemma bind_setobj {B : Type} (f : unit → M B) obj o w :
  (setobj obj o ≫= f) w = f tt (set_heap w (<[obj := o]> (heap w))).
Proof. reflexivity. Qed.

Lemma bind_put_state {B : Type} (f : unit → M B) self st w :
  (put_state self st ≫= f) w = f tt (set_stores w (<[prefix self := st]> (stores w))).
Proof. reflexivity. Qed.

Lemma bind_count {B : Type} (f : Z → M B) self w st :
  stores w !! prefix self = Some st → (count self ≫= f) w = f (Z.of_nat (dim st)) w.
Proof. intros H. by rewrite (run_bind _ _ _ _ _ (run_count _ _ _ H)). Qed.

Lemma bind_write_var {B : Type} (f : unit → M B) self v idx value w st :
  stores w !! prefix self = Some st → 0 ≤ idx →
  (write_var self v idx value ≫= f) w =
    f tt (set_stores w (<[prefix self := st_write v st idx value]> (stores w))).
Proof. intros H Hi. by rewrite (run_bind _ _ _ _ _ (run_write_var _ _ _ _ _ _ H Hi)). Qed.

Lemma bind_read_var {B : Type} (f : string → M B) self v idx w st :
  stores w !! prefix self = Some st → 0 ≤ idx < Z.of_nat (dim st) →
  (read_var self v idx ≫= f) w = f (cell (get_var v st) idx) w.
Proof. intros H Hi. by rewrite (run_bind _ _ _ _ _ (run_read_var _ _ _ _ _ H Hi)). Qed.

Lemma bind_reserve_idx {B : Type} (f : unit → M B) self idx w st :
  stores w !! prefix self = Some st →
  (reserve_idx self idx ≫= f) w =
    f tt (set_stores w (<[prefix self := set_free st ({[idx]} ∪ _free st)]> (stores w))).
Proof. intros H. by rewrite (run_bind _ _ _ _ _ (run_reserve_idx _ _ _ _ H)). Qed.

Lemma bind_free {B : Type} (f : Z → M B) self w st :
  stores w !! prefix self = Some st →
  (free self ≫= f) w =
    f (free_idx st) (set_stores w (<[prefix self := set_free st (live_free st)]> (stores w))).
Proof. intros H. by rewrite (run_bind _ _ _ _ _ (run_free _ _ _ H)). Qed.

(** Symbolic execution: [step] runs the first action of the computation
    in the goal when the world determines its result. *)
Ltac world_simpl :=
  unfold set_stores, set_heap;
  cbn [stores heap storage_attrs variables].

Ltac solve_lookup :=
  world_simpl;
  first [ eassumption
        | apply lookup_insert_eq
        | (apply list_lookup_insert_eq; rewrite ?length_insert; eassumption) ].


Ltac step :=
  first
  [ rewrite bind_ret
  | rewrite bind_raise
  | rewrite bind_assoc
  | erewrite bind_get_state by solve_lookup
  | erewrite bind_getobj by solve_lookup
  | rewrite bind_setobj
  | rewrite bind_put_state
  | erewrite bind_count by solve_lookup
  | erewrite bind_write_var by first [solve_lookup | eassumption]
  | erewrite bind_reserve_idx by solve_lookup
  | erewrite bind_free by solve_lookup ];
  world_simpl.

Ltac obj_simpl :=
  cbn [o_idx o_uid o_name o_json o_body o_name_fixed set_o_idx set_o_json
       set_o_uid set_o_name fix_name object_to_json default from_option].

Ltac run :=
  repeat first
    [ step
    | progress obj_simpl
    | rewrite decide_True by done
    | rewrite decide_False by done ].

Ltac normal_world :=
  world_simpl; rewrite ?insert_insert_eq, ?list_insert_insert_eq.

(** ** [saveidx] around [save] *)

(** A numpy integer is turned into an [int] by [saveidx] and by [loadidx]. *)
Lemma saveidx_np func self obj j :
  saveidx func self obj (Some (INp j)) = saveidx func self obj (Some (IInt j)).
Proof. reflexivity. Qed.

Lemma loadidx_np func self n : loadidx func self (INp n) = loadidx func self (IInt n).
Proof. reflexivity. Qed.

Lemma run_saveidx_explicit self obj i w st o :
  stores w !! prefix self = Some st → heap w !! obj = Some o → 0 ≤ i →
  saveidx (save self) self obj (Some (IInt i)) w =
    (save_outcome self o i,
     World (<[obj := obj_saved self o i]> (heap w))
           (<[prefix self := st_saved self o i st]> (stores w))
           (storage_attrs w) (variables w)).
Proof.
  intros Hst Ho Hi.
  destruct w as [h s a vs]. simpl in Hst, Ho.
  assert (Hlt : (obj < length h)%nat) by (by eapply lookup_lt_Some).
  unfold saveidx, save_outcome, obj_saved, st_saved. do 2 step.
  repeat step. unfold save, save_json. repeat step.
  destruct o as [oi ou on onf oj ob]. obj_simpl.
  destruct (has_uid self), (has_name self), ou as [u|], oj as [j|], on as [[nm|]|];
    try destruct (decide (u = "")) as [->|Hu];
    run; normal_world; reflexivity.
Qed.

Lemma run_saveidx_unregistered func self obj idx w :
  stores w !! prefix self = None →
  saveidx func self obj idx w = (Raise RuntimeError, w).
Proof.
  intros H. unfold saveidx. apply run_bind_raise. unfold get_state. by rewrite H.
Qed.

Lemma run_saveidx_invalid func self obj idx w st :
  stores w !! prefix self = Some st → heap w !! obj = None →
  saveidx func self obj idx w = (Raise RuntimeError, w).
Proof.
  intros H Ho. unfold saveidx. step. apply run_bind_raise. unfold getobj. by rewrite Ho.
Qed.

Lemma run_saveidx_str func self obj s w st o :
  stores w !! prefix self = Some st → heap w !! obj = Some o →
  saveidx func self obj (Some (IStr s)) w = (Raise ValueError, w).
Proof.
  intros H Ho. unfold saveidx. do 2 step. reflexivity.
Qed.

Lemma run_saveidx_known func self obj w st o i :
  stores w !! prefix self = Some st → heap w !! obj = Some o →
  o_idx o !! prefix self = Some i →
  saveidx func self obj None w = (Ret i, w).
Proof.
  intros H Ho Hi. unfold saveidx. do 2 step. by rewrite Hi.
Qed.

Lemma run_saveidx_fresh self obj w st o :
  stores w !! prefix self = Some st → heap w !! obj = Some o →
  o_idx o !! prefix self = None →
  saveidx (save self) self obj None w =
    (save_outcome self o (free_idx st),
     World (<[obj := obj_saved self o (free_idx st)]> (heap w))
           (<[prefix self := st_saved self o (free_idx st)
                               (set_free st (live_free st))]> (stores w))
           (storage_attrs w) (variables w)).
Proof.
  intros Hst Ho Hidx.
  pose proof (free_idx_spec st) as (Hge & _ & _).
  set (w1 := set_stores w (<[prefix self := set_free st (live_free st)]> (stores w))).
  assert (saveidx (save self) self obj None w =
          saveidx (save self) self obj (Some (IInt (free_idx st))) w1) as ->.
  { unfold saveidx at 1. do 2 step. rewrite Hidx. step.
    symmetry. subst w1. unfold saveidx. do 2 step. reflexivity. }
  erewrite run_saveidx_explicit; [| subst w1; solve_lookup | subst w1; solve_lookup | lia].
  subst w1. normal_world. reflexivity.
Qed.

(** ** [savecache] *)

Lemma run_savecache_raise func self obj idx w e w1 :
  func obj idx w = (Raise e, w1) →
  savecache func self obj idx w = (Raise e, w1).
Proof. intros H. unfold savecache. by apply run_bind_raise. Qed.

Lemma run_savecache func self obj idx w x w1 o1 i st1 :
  func obj idx w = (Ret x, w1) →
  heap w1 !! obj = Some o1 → o_idx o1 !! prefix self = Some i →
  stores w1 !! prefix self = Some st1 →
  savecache func self obj idx w =
    (cached_outcome self o1 obj i st1 i,
     set_stores w1 (<[prefix self := st_cached self o1 obj i (IInt i) st1]> (stores w1))).
Proof.
  intros Hf Ho Hi Hst. unfold savecache.
  rewrite (run_bind _ _ _ _ _ Hf). step. rewrite Hi. do 2 step.
  unfold cached_outcome, st_cached, _update_name_in_cache.
  destruct (has_name self); [|by run].
  destruct (o_name o1) as [nm|]; [|by run].
  destruct (decide (nm = Some "")); [by run|].
  rewrite bind_assoc. step. cbn [cache set_cache].
  destruct (<[KInt i:=obj]> (cache st1) !! key_of_name nm); run; normal_world; reflexivity.
Qed.

Lemma st_cached_lookup self o obj i n_idx st :
  cache (st_cached self o obj i n_idx st) !! KInt i = Some obj.
Proof.
  unfold st_cached.
  repeat case_match; cbn [cache set_cache set_name_idx]; apply lookup_insert_eq.
Qed.

(** ** [loadcache] *)

Lemma run_loadcache_negative func self i w :
  i < 0 → loadcache func self (IInt i) w = (Ret None, w).
Proof. intros H. unfold loadcache. by rewrite bool_decide_true. Qed.

Lemma run_loadcache_hit func self i w st obj :
  0 ≤ i → stores w !! prefix self = Some st → cache st !! KInt i = Some obj →
  loadcache func self (IInt i) w = (Ret (Some obj), w).
Proof.
  intros Hi Hst Hc. unfold loadcache. rewrite bool_decide_false by lia.
  do 2 step. cbn [key_of_idx]. by rewrite Hc.
Qed.

(** ** Facts about the effect functions *)

Lemma dim_set_var v st d c : dim (set_var v st d c) = d.
Proof. by destruct v. Qed.

Lemma cache_set_var v st d c : cache (set_var v st d c) = cache st.
Proof. by destruct v. Qed.

Lemma free_set_var v st d c : _free (set_var v st d c) = _free st.
Proof. by destruct v. Qed.

Lemma name_idx_set_var v st d c : name_idx (set_var v st d c) = name_idx st.
Proof. by destruct v. Qed.

Lemma dim_st_write v st i x :
  dim (st_write v st i x) = Nat.max (dim st) (Z.to_nat i + 1).
Proof. apply dim_set_var. Qed.

Lemma cache_st_write v st i x : cache (st_write v st i x) = cache st.
Proof. apply cache_set_var. Qed.

Lemma dim_st_saved self o i st :
  dim (st_saved self o i st) = Nat.max (dim st) (Z.to_nat i + 1).
Proof.
  unfold st_saved. repeat case_match; rewrite ?dim_st_write; cbn [dim set_free]; lia.
Qed.

Lemma cache_st_saved self o i st : cache (st_saved self o i st) = cache st.
Proof.
  unfold st_saved. repeat case_match; rewrite ?cache_st_write; reflexivity.
Qed.

Lemma o_idx_obj_saved self o i :
  o_idx (obj_saved self o i) = <[prefix self := i]> (o_idx o).
Proof. unfold obj_saved. destruct o as [? ? [[?|]|] ? [?|] ?]; by destruct (has_name self). Qed.

Lemma o_name_obj_saved self o i : o_name (obj_saved self o i) = o_name o.
Proof. unfold obj_saved. destruct o as [? ? [[?|]|] ? [?|] ?]; by destruct (has_name self). Qed.

Lemma dim_st_cached self o obj i n st : dim (st_cached self o obj i n st) = dim st.
Proof. unfold st_cached. by repeat case_match. Qed.

Lemma same_rows_st_cached self o obj i n st : same_rows st (st_cached self o obj i n st).
Proof. unfold st_cached, same_rows. by repeat case_match. Qed.

Lemma cache_st_cached self o obj i n st :
  cache (st_cached self o obj i n st) = <[KInt i := obj]> (cache st).
Proof. unfold st_cached. by repeat case_match. Qed.

Lemma cache_ok_st_cached self o obj i n st :
  cache_ok st → i < Z.of_nat (dim st) → cache_ok (st_cached self o obj i n st).
Proof.
  intros Hok Hi k l. rewrite cache_st_cached, dim_st_cached.
  destruct (decide (k = KInt i)) as [->|Hne].
  - intros _. eauto.
  - rewrite lookup_insert_ne by done. apply Hok.
Qed.

Lemma cached_outcome_ok {A : Type} self o obj i st (a : A) :
  cache_ok st → storable self o → cached_outcome self o obj i st a = Ret a.
Proof.
  intros Hok Hs. unfold cached_outcome.
  destruct (has_name self) eqn:Hn; [|done].
  destruct (Hs Hn) as [nm ->].
  destruct (decide (nm = Some "")); [done|].
  destruct (<[KInt i:=obj]> (cache st) !! key_of_name nm) as [l|] eqn:Hl; [|done].
  rewrite lookup_insert_ne in Hl by (by destruct nm).
  apply Hok in Hl as (z & Hz & _). by destruct nm.
Qed.

(** ** Well-formed worlds are preserved *)

Lemma wf_update_store w p st st' :
  wf_world w → stores w !! p = Some st →
  (dim st ≤ dim st')%nat → cache_ok st' →
  wf_world (set_stores w (<[p := st']> (stores w))).
Proof.
  intros [Hc Hi] Hst Hd Hok. unfold idx_ok in Hi. split.
  - intros q sq. cbn. destruct (decide (p = q)) as [->|Hne].
    + rewrite lookup_insert_eq. by intros [= <-].
    + rewrite lookup_insert_ne by done. apply Hc.
  - intros l o q i sq Hl Ho. cbn in Hl |- *.
    destruct (decide (p = q)) as [->|Hne].
    + rewrite lookup_insert_eq. intros [= <-].
      specialize (Hi l o q i st Hl Ho Hst). lia.
    + rewrite lookup_insert_ne by done. exact (Hi l o q i sq Hl Ho).
Qed.

Lemma wf_update_obj w obj o o' :
  wf_world w → heap w !! obj = Some o →
  (∀ p i st, o_idx o' !! p = Some i → stores w !! p = Some st →
             0 ≤ i < Z.of_nat (dim st)) →
  wf_world (set_heap w (<[obj := o']> (heap w))).
Proof.
  intros [Hc Hi] Ho Hnew. unfold idx_ok in Hi. split; [exact Hc|].
  intros l ol q i sq. cbn.
  destruct (decide (obj = l)) as [->|Hne].
  - rewrite list_lookup_insert_eq by (by eapply lookup_lt_Some).
    intros [= <-]. apply Hnew.
  - rewrite list_lookup_insert_ne by done. apply Hi.
Qed.

Lemma wf_new_obj w o :
  wf_world w → o_idx o = ∅ → wf_world (set_heap w (heap w ++ [o])).
Proof.
  intros [Hc Hi] Ho. unfold idx_ok in Hi. split; [exact Hc|].
  intros l ol q i sq. cbn. intros Hl.
  apply lookup_app_Some in Hl as [Hl|[_ Hl]].
  - exact (Hi l ol q i sq Hl).
  - apply list_lookup_singleton_Some in Hl as [_ <-]. by rewrite Ho, lookup_empty.
Qed.

Lemma wf_fresh_world h s a v :
  Forall (λ o, o_idx o = ∅) h → (∀ p st, s !! p = Some st → cache st = ∅) →
  wf_world (World h s a v).
Proof.
  intros Hh Hs. split.
  - intros p st Hp k l. cbn in Hp. by rewrite (Hs p st Hp), lookup_empty.
  - intros l o p i st Hl. cbn in Hl.
    rewrite Forall_lookup in Hh. by rewrite (Hh l o Hl), lookup_empty.
Qed.

Lemma cache_ok_mono st st' :
  cache_ok st → cache st' = cache st → (dim st ≤ dim st')%nat → cache_ok st'.
Proof.
  intros Hok Hc Hd k l. rewrite Hc. intros Hl.
  destruct (Hok k l Hl) as (z & -> & Hz). exists z. split; [done | lia].
Qed.

Lemma wf_cache_ok w p st : wf_world w → stores w !! p = Some st → cache_ok st.
Proof. intros [Hc _]. apply Hc. Qed.

Lemma wf_idx_ok w l o p i st :
  wf_world w → heap w !! l = Some o → o_idx o !! p = Some i →
  stores w !! p = Some st → 0 ≤ i < Z.of_nat (dim st).
Proof. intros [_ Hi]. apply Hi. Qed.

Lemma wf_saved self obj i w st o :
  wf_world w → stores w !! prefix self = Some st → heap w !! obj = Some o → 0 ≤ i →
  wf_world (World (<[obj := obj_saved self o i]> (heap w))
                  (<[prefix self := st_saved self o i st]> (stores w))
                  (storage_attrs w) (variables w)).
Proof.
  intros Hwf Hst Ho Hi.
  change (wf_world (set_heap (set_stores w (<[prefix self := st_saved self o i st]> (stores w)))
                     (<[obj := obj_saved self o i]>
                        (heap (set_stores w (<[prefix self := st_saved self o i st]> (stores w))))))).
  eapply wf_update_obj; [| exact Ho |].
  - eapply wf_update_store; [done | exact Hst | rewrite dim_st_saved; lia |].
    eapply cache_ok_mono; [by eapply wf_cache_ok | apply cache_st_saved |].
    rewrite dim_st_saved. lia.
  - intros q j sq. rewrite o_idx_obj_saved. cbn.
    destruct (decide (prefix self = q)) as [<-|Hne].
    + rewrite !lookup_insert_eq. intros [= <-] [= <-]. rewrite dim_st_saved. lia.
    + rewrite !lookup_insert_ne by done. intros Hj Hq. by eapply wf_idx_ok.
Qed.

Lemma wf_set_free w p st fr :
  wf_world w → stores w !! p = Some st →
  wf_world (set_stores w (<[p := set_free st fr]> (stores w))).
Proof.
  intros Hwf Hst. eapply wf_update_store; [done | exact Hst | done |].
  eapply cache_ok_mono; [by eapply wf_cache_ok | done | done].
Qed.

Lemma saveidx_wf self obj idx w :
  wf_world w → save_index_ok idx →
  wf_world (saveidx (save self) self obj idx w).2.
Proof.
  intros Hwf Hidx.
  destruct (stores w !! prefix self) as [st|] eqn:Hst;
    [| by rewrite run_saveidx_unregistered].
  destruct (heap w !! obj) as [o|] eqn:Ho;
    [| by erewrite run_saveidx_invalid].
  destruct idx as [[j|s|j]|].
  - erewrite run_saveidx_explicit by done. by apply wf_saved.
  - by erewrite run_saveidx_str.
  - rewrite saveidx_np. erewrite run_saveidx_explicit by done. by apply wf_saved.
  - destruct (o_idx o !! prefix self) as [i|] eqn:Hi.
    + by erewrite run_saveidx_known.
    + erewrite run_saveidx_fresh by done. cbn [snd].
      pose proof (free_idx_spec st) as (Hge & _ & _).
      pose proof (wf_saved self obj (free_idx st)
                    (set_stores w (<[prefix self := set_free st (live_free st)]> (stores w)))
                    (set_free st (live_free st)) o) as Hs.
      unfold set_stores in Hs. cbn [heap stores storage_attrs variables] in Hs.
      rewrite insert_insert_eq in Hs. apply Hs.
      * by apply wf_set_free.
      * apply lookup_insert_eq.
      * done.
      * lia.
Qed.

Lemma savecache_wf func self obj idx w :
  wf_world (func obj idx w).2 → wf_world (savecache func self obj idx w).2.
Proof.
  destruct (func obj idx w) as [[x|e] w1] eqn:Hf; cbn [snd]; intros Hwf;
    [| by erewrite run_savecache_raise].
  unfold savecache. rewrite (run_bind _ _ _ _ _ Hf).
  destruct (heap w1 !! obj) as [o1|] eqn:Ho.
  2: { erewrite run_bind_raise; [done|]. unfold getobj. by rewrite Ho. }
  step. destruct (o_idx o1 !! prefix self) as [i|] eqn:Hi; [|done].
  destruct (stores w1 !! prefix self) as [st1|] eqn:Hst.
  2: { erewrite run_bind_raise; [done|]. unfold get_state. by rewrite Hst. }
  pose proof (run_savecache func self obj idx w x w1 o1 i st1 Hf Ho Hi Hst) as Hrun.
  unfold savecache in Hrun. rewrite (run_bind _ _ _ _ _ Hf) in Hrun.
  erewrite bind_getobj in Hrun by done. rewrite Hi in Hrun.
  rewrite Hrun. cbn [snd].
  eapply wf_update_store; [done | exact Hst | by rewrite dim_st_cached |].
  apply cache_ok_st_cached; [by eapply wf_cache_ok |].
  by eapply wf_idx_ok.
Qed.

Lemma self_save_wf self obj idx w :
  wf_world w → save_index_ok idx →
  wf_world (self_save self obj idx w).2.
Proof.
  intros Hwf Hidx. unfold self_save. destruct (caching self).
  - apply savecache_wf. by apply saveidx_wf.
  - by apply saveidx_wf.
Qed.

(** ** [loadidx] around [load] *)

Lemma bind_newobj {B : Type} (f : loc → M B) o w :
  (newobj o ≫= f) w = f (length (heap w)) (set_heap w (heap w ++ [o])).
Proof. reflexivity. Qed.

Lemma insert_snoc (h : list pyobj) o o' : <[length h := o']> (h ++ [o]) = h ++ [o'].
Proof.
  rewrite insert_app_r_alt by lia. by rewrite Nat.sub_diag.
Qed.

Lemma lookup_snoc (h : list pyobj) o : (h ++ [o]) !! length h = Some o.
Proof. by apply list_lookup_middle. Qed.

Lemma run_loadidx_negative func self n w :
  n < 0 → loadidx func self (IInt n) w = (Ret None, w).
Proof. intros H. unfold loadidx. by rewrite decide_True. Qed.

Lemma run_loadidx_str func self s w :
  loadidx func self (IStr s) w = (Raise ValueError, w).
Proof. reflexivity. Qed.

Lemma run_loadidx_unregistered func self n w :
  0 ≤ n → stores w !! prefix self = None →
  loadidx func self (IInt n) w = (Raise RuntimeError, w).
Proof.
  intros Hn H. unfold loadidx. rewrite decide_False by lia.
  apply run_bind_raise. unfold count. apply run_bind_raise.
  unfold get_state. by rewrite H.
Qed.

Lemma run_loadidx_beyond func self n w st :
  stores w !! prefix self = Some st → Z.of_nat (dim st) ≤ n →
  loadidx func self (IInt n) w = (Ret None, w).
Proof.
  intros H Hn. unfold loadidx. rewrite decide_False by lia.
  step. by rewrite decide_True.
Qed.

Lemma run_loadidx_row self n w st :
  stores w !! prefix self = Some st → 0 ≤ n < Z.of_nat (dim st) →
  loadidx (load self) self (IInt n) w =
    (Ret (Some (length (heap w))),
     set_heap w (heap w ++ [obj_loaded self st n])).
Proof.
  intros Hst Hn. destruct w as [h s a vs]. cbn in Hst.
  unfold loadidx, obj_loaded. rewrite decide_False by lia.
  step. rewrite !decide_False by lia.
  unfold load, load_json, get_uid.
  rewrite bind_assoc. erewrite bind_read_var by (done || lia).
  cbn [get_var]. rewrite bind_newobj. world_simpl.
  erewrite bind_getobj by (world_simpl; apply lookup_snoc).
  rewrite bind_setobj. world_simpl. rewrite insert_snoc.
  unfold build. obj_simpl.
  destruct (has_uid self), (has_name self), (content_named self); obj_simpl;
    repeat first
      [ rewrite bind_ret
      | rewrite bind_assoc
      | erewrite bind_getobj by (world_simpl; apply lookup_snoc)
      | erewrite bind_read_var by (done || lia)
      | rewrite bind_setobj; world_simpl; rewrite insert_snoc
      | progress obj_simpl
      | progress cbn [get_var] ];
    reflexivity.
Qed.

Lemma o_idx_obj_loaded self st n : o_idx (obj_loaded self st n) = {[prefix self := n]}.
Proof.
  unfold obj_loaded, build.
  destruct (has_uid self), (has_name self), (content_named self); reflexivity.
Qed.

Lemma o_name_obj_loaded self st n :
  is_Some (o_name (obj_loaded self st n)) ↔ content_named self = true.
Proof.
  unfold obj_loaded, build.
  destruct (has_uid self), (has_name self), (content_named self); cbn;
    split; intros H; try done; try (by destruct H); eauto.
Qed.

(** ** Preservation of well-formedness by [load] *)

Lemma wf_snoc w o :
  wf_world w →
  (∀ p i st, o_idx o !! p = Some i → stores w !! p = Some st →
             0 ≤ i < Z.of_nat (dim st)) →
  wf_world (set_heap w (heap w ++ [o])).
Proof.
  intros [Hc Hi] Ho. unfold idx_ok in Hi. split; [exact Hc|].
  intros l ol q i sq. cbn. intros Hl.
  apply lookup_app_Some in Hl as [Hl|[_ Hl]].
  - exact (Hi l ol q i sq Hl).
  - apply list_lookup_singleton_Some in Hl as [_ <-]. apply Ho.
Qed.

Lemma loadidx_wf self idx : preserves (loadidx (load self) self idx).
Proof.
  assert (∀ n, preserves (loadidx (load self) self (IInt n))) as Hint.
  { intros n w Hwf.
    destruct (decide (n < 0)); [by rewrite run_loadidx_negative|].
    destruct (stores w !! prefix self) as [st|] eqn:Hst;
      [| by rewrite run_loadidx_unregistered by (done || lia)].
    destruct (decide (Z.of_nat (dim st) ≤ n)); [by erewrite run_loadidx_beyond|].
    erewrite run_loadidx_row by (done || lia). cbn [snd].
    apply wf_snoc; [done|]. intros p i sp. rewrite o_idx_obj_loaded.
    intros [<- <-]%lookup_singleton_Some. rewrite Hst. intros [= <-]. lia. }
  destruct idx as [n|s|n]; [apply Hint | by intros w | rewrite loadidx_np; apply Hint].
Qed.

(** ** Preservation, compositionally *)

Lemma preserves_ret {A : Type} (a : A) : preserves (mret a).
Proof. by intros w. Qed.

Lemma preserves_raise {A : Type} e : preserves (raise e : M A).
Proof. by intros w. Qed.

Lemma preserves_bind {A B : Type} (m : M A) (f : A → M B) :
  preserves m → (∀ a, preserves (f a)) → preserves (m ≫= f).
Proof.
  intros Hm Hf w Hwf. specialize (Hm w Hwf).
  unfold mbind, M_bind. destruct (m w) as [[a|e] w']; [by apply Hf | done].
Qed.

Lemma preserves_get_state {B : Type} self (f : store_state → M B) :
  (∀ st w, wf_world w → stores w !! prefix self = Some st → wf_world (f st w).2) →
  preserves (get_state self ≫= f).
Proof.
  intros Hf w Hwf. destruct (stores w !! prefix self) as [st|] eqn:Hst.
  - erewrite bind_get_state by done. by apply Hf.
  - erewrite run_bind_raise; [done|]. unfold get_state. by rewrite Hst.
Qed.

Lemma preserves_getobj {B : Type} obj (f : pyobj → M B) :
  (∀ o w, wf_world w → heap w !! obj = Some o → wf_world (f o w).2) →
  preserves (getobj obj ≫= f).
Proof.
  intros Hf w Hwf. destruct (heap w !! obj) as [o|] eqn:Ho.
  - erewrite bind_getobj by done. by apply Hf.
  - erewrite run_bind_raise; [done|]. unfold getobj. by rewrite Ho.
Qed.

Lemma preserves_forM_ {A : Type} (f : A → M unit) l :
  (∀ a, preserves (f a)) → preserves (forM_ f l).
Proof.
  intros Hf. induction l as [|x l IH]; [apply preserves_ret|].
  cbn [forM_]. apply preserves_bind; [apply Hf | by intros _].
Qed.

Lemma preserves_mapM {A B : Type} (f : A → M B) l :
  (∀ a, preserves (f a)) → preserves (mapM f l).
Proof.
  intros Hf. induction l as [|x l IH]; [apply preserves_ret|].
  cbn [mapM]. apply preserves_bind; [apply Hf|]. intros y.
  apply preserves_bind; [done|]. intros ys. apply preserves_ret.
Qed.

Lemma preserves_update_name_in_cache self name idx :
  preserves (_update_name_in_cache self name idx).
Proof.
  unfold _update_name_in_cache. destruct (decide (name = Some "")); [apply preserves_ret|].
  apply preserves_get_state. intros st w Hwf Hst.
  destruct (cache st !! key_of_name name); [done|]. cbn [snd put_state].
  eapply wf_update_store; [done | exact Hst | done |].
  eapply cache_ok_mono; [by eapply wf_cache_ok | done | done].
Qed.

Lemma preserves_update_name_cache self : preserves (update_name_cache self).
Proof.
  unfold update_name_cache. destruct (has_name self); [|apply preserves_ret].
  apply preserves_get_state. intros st w Hwf Hst.
  destruct (_names_loaded st); [done|]. revert w Hwf Hst.
  assert (preserves
            (forM_ (λ i : nat, _update_name_in_cache self
                      (Some (cell (var_name st) (Z.of_nat i))) (IInt (Z.of_nat i)))
               (seq 0 (dim st)) ≫= λ _ : unit,
             get_state self ≫= λ st' : store_state,
             put_state self (set_names_loaded st' true))) as H.
  { apply preserves_bind.
    - apply preserves_forM_. intros i. apply preserves_update_name_in_cache.
    - intros _. apply preserves_get_state. intros st' w Hwf Hst'. cbn [snd put_state].
      eapply wf_update_store; [done | exact Hst' | done |].
      eapply cache_ok_mono; [by eapply wf_cache_ok | done | done]. }
  intros w Hwf _. by apply H.
Qed.

Lemma loadcache_wf func self idx :
  (∀ i, preserves (func i)) → preserves (loadcache func self idx).
Proof.
  intros Hfunc. unfold loadcache.
  destruct (match idx with IInt z | INp z => bool_decide (z < 0) | IStr _ => false end);
    [apply preserves_ret|].
  apply preserves_bind.
  { destruct idx as [z|s|z]; [apply preserves_ret| |apply preserves_raise].
    destruct (has_name self); [|apply preserves_ret].
    apply preserves_bind; [apply preserves_update_name_cache|]. intros _.
    apply preserves_get_state. intros st w Hwf Hst.
    destruct (name_idx st !! KStr s) as [l|]; [|done].
    destruct (decide (1 < length l)%nat).
    - by destruct (cache st !! KStr s).
    - by destruct l. }
  intros n_idx. apply preserves_get_state. intros st w Hwf Hst.
  destruct (cache st !! key_of_idx n_idx); [done|].
  revert w Hwf Hst.
  assert (preserves (func n_idx ≫= λ r : option loc,
            match r with
            | Some obj =>
                getobj obj ≫= λ o : pyobj,
                match o_idx o !! prefix self with
                | Some i =>
                    get_state self ≫= λ st0 : store_state,
                    put_state self (set_cache st0 (<[KInt i:=obj]> (cache st0))) ≫= λ _ : unit,
                    (if has_name self then
                       match o_name o with
                       | Some nm =>
                           if decide (nm = Some "") then mret ()
                           else _update_name_in_cache self nm n_idx
                       | None => raise AttributeError
                       end
                     else mret ()) ≫= λ _ : unit, mret (Some obj)
                | None => raise KeyError
                end
            | None => mret None
            end)) as H.
  { apply preserves_bind; [apply Hfunc|]. intros [obj|]; [|apply preserves_ret].
    apply preserves_getobj. intros o w Hwf Ho.
    destruct (o_idx o !! prefix self) as [i|] eqn:Hi; [|done].
    revert w Hwf Ho. 
    assert (∀ w, wf_world w → heap w !! obj = Some o →
              wf_world ((get_state self ≫= λ st0 : store_state,
                    put_state self (set_cache st0 (<[KInt i:=obj]> (cache st0))) ≫= λ _ : unit,
                    (if has_name self then
                       match o_name o with
                       | Some nm =>
                           if decide (nm = Some "") then mret ()
                           else _update_name_in_cache self nm n_idx
                       | None => raise AttributeError
                       end
                     else mret ()) ≫= λ _ : unit, mret (Some obj)) w).2) as H2; [|exact H2].
    intros w Hwf Ho.
    destruct (stores w !! prefix self) as [st0|] eqn:Hst0.
    2: { erewrite run_bind_raise; [done|]. unfold get_state. by rewrite Hst0. }
    erewrite bind_get_state by done. rewrite bind_put_state.
    assert (preserves ((if has_name self then
                       match o_name o with
                       | Some nm =>
                           if decide (nm = Some "") then mret ()
                           else _update_name_in_cache self nm n_idx
                       | None => raise AttributeError
                       end
                     else mret ()) ≫= λ _ : unit, mret (Some obj))) as H3.
    { apply preserves_bind; [|intros; apply preserves_ret].
      destruct (has_name self); [|apply preserves_ret].
      destruct (o_name o) as [nm|]; [|apply preserves_raise].
      destruct (decide (nm = Some "")); [apply preserves_ret|].
      apply preserves_update_name_in_cache. }
    apply H3.
    eapply wf_update_store; [done | exact Hst0 | done |].
    intros k l. cbn [cache set_cache dim].
    destruct (decide (k = KInt i)) as [->|Hne].
    - intros _. exists i. split; [done|]. by eapply wf_idx_ok.
    - rewrite lookup_insert_ne by done. by eapply wf_cache_ok. }
  intros w Hwf _. by apply H.
Qed.

Lemma self_load_wf self idx : preserves (self_load self idx).
Proof.
  unfold self_load. destruct (caching self).
  - apply loadcache_wf. intros i. apply loadidx_wf.
  - apply loadidx_wf.
Qed.

(** ** Every reachable world is well formed *)

Lemma preserves_except_KeyError m : preserves m → preserves (except_KeyError m).
Proof.
  intros Hm w Hwf. specialize (Hm w Hwf). unfold except_KeyError.
  by destruct (m w) as [[r|[]] w'].
Qed.

Lemma preserves_getitem self item : preserves (__getitem__ self item).
Proof.
  unfold __getitem__. apply preserves_except_KeyError. destruct item as [i|l].
  - destruct i; [|
      |apply preserves_ret];
      (apply preserves_bind; [apply self_load_wf | intros; apply preserves_ret]).
  - apply preserves_bind; [|intros; apply preserves_ret].
    apply preserves_mapM. intros i. apply self_load_wf.
Qed.

Lemma preserves_find self name : preserves (find self name).
Proof.
  unfold find. destruct (has_name self); [|apply preserves_ret].
  apply preserves_get_state. intros st w Hwf Hst. revert w Hwf Hst.
  assert (preserves
            ((if decide (name_idx st !! KStr name = None) then update_name_cache self
              else mret ()) ≫= λ _ : unit,
             get_state self ≫= λ st0 : store_state,
             match name_idx st0 !! KStr name with
             | Some l => __getitem__ self (ItemList l)
             | None => raise KeyError
             end)) as H.
  { apply preserves_bind.
    - destruct (decide (name_idx st !! KStr name = None));
        [apply preserves_update_name_cache | apply preserves_ret].
    - intros _. apply preserves_get_state. intros st0 w Hwf Hst0.
      destruct (name_idx st0 !! KStr name); [by apply preserves_getitem | done]. }
  intros w Hwf _. by apply H.
Qed.

Lemma preserves_find_first self name : preserves (find_first self name).
Proof.
  unfold find_first. destruct (has_name self); [|apply preserves_ret].
  apply preserves_get_state. intros st w Hwf Hst. revert w Hwf Hst.
  assert (preserves
            ((if decide (name_idx st !! KStr name = None) then update_name_cache self
              else mret ()) ≫= λ _ : unit,
             get_state self ≫= λ st0 : store_state,
             match name_idx st0 !! KStr name with
             | Some (i :: _) => __getitem__ self (ItemIdx i)
             | Some [] => mret (RObj None)
             | None => raise KeyError
             end)) as H.
  { apply preserves_bind.
    - destruct (decide (name_idx st !! KStr name = None));
        [apply preserves_update_name_cache | apply preserves_ret].
    - intros _. apply preserves_get_state. intros st0 w Hwf Hst0.
      destruct (name_idx st0 !! KStr name) as [[|i l]|]; [done | | done].
      by apply preserves_getitem. }
  intros w Hwf _. by apply H.
Qed.

Lemma preserves_first self : preserves (first self).
Proof. apply self_load_wf. Qed.

Lemma preserves_count self : preserves (count self).
Proof.
  unfold count. apply preserves_get_state. by intros st w Hwf _.
Qed.

Lemma preserves_last self : preserves (last self).
Proof.
  unfold last. apply preserves_bind; [apply preserves_count|].
  intros n. apply self_load_wf.
Qed.

Lemma preserves_free self : preserves (free self).
Proof.
  intros w Hwf. destruct (stores w !! prefix self) as [st|] eqn:Hst.
  - erewrite run_free by done. by apply wf_set_free.
  - unfold free. erewrite run_bind_raise; [done|].
    unfold count. apply run_bind_raise. unfold get_state. by rewrite Hst.
Qed.

Lemma preserves_reserve_idx self idx : preserves (reserve_idx self idx).
Proof.
  intros w Hwf. destruct (stores w !! prefix self) as [st|] eqn:Hst.
  - erewrite run_reserve_idx by done. by apply wf_set_free.
  - unfold reserve_idx. erewrite run_bind_raise; [done|].
    unfold get_state. by rewrite Hst.
Qed.

(** Well-formedness holds in every world of [reachable]: it is kept by
    making objects, setting attributes other than [idx], and calling
    [save], [load], [find], [find_first], [first], [last], [free] and
    [reserve_idx] on objects that refer to no other storable object. *)
Theorem reachable_wf w : reachable w → wf_world w.
Proof.
  induction 1 as [s a v Hs | w o _ IH Ho | w l o o' _ IH Hl Ho
                 | w self obj idx _ IH Hidx | w self idx _ IH
                 | w self name _ IH | w self name _ IH | w self _ IH | w self _ IH
                 | w self _ IH | w self idx _ IH].
  - apply wf_fresh_world; [constructor|].
    intros p st Hp. by rewrite (Hs p st Hp).
  - by apply wf_new_obj.
  - eapply wf_update_obj; [done | exact Hl |].
    intros p i st. rewrite Ho. intros Hi Hst. by eapply wf_idx_ok.
  - by apply self_save_wf.
  - by apply self_load_wf.
  - by apply preserves_find.
  - by apply preserves_find_first.
  - by apply preserves_first.
  - by apply preserves_last.
  - by apply preserves_free.
  - by apply preserves_reserve_idx.
Qed.

(** ** Loading *)

Lemma count_inv self w n w' :
  count self w = (Ret n, w') →
  ∃ st, stores w !! prefix self = Some st ∧ n = Z.of_nat (dim st) ∧ w' = w.
Proof.
  unfold count, mbind, M_bind, get_state.
  destruct (stores w !! prefix self) as [st|]; [|done].
  intros [= <- <-]. eauto.
Qed.

Lemma run_loadcache_beyond self n w st :
  stores w !! prefix self = Some st → cache_ok st → Z.of_nat (dim st) ≤ n →
  loadcache (loadidx (load self) self) self (IInt n) w = (Ret None, w).
Proof.
  intros Hst Hok Hn.
  destruct (decide (n < 0)); [by apply run_loadcache_negative|].
  unfold loadcache. rewrite bool_decide_false by done.
  do 2 step. cbn [key_of_idx].
  destruct (cache st !! KInt n) as [l|] eqn:Hl.
  { apply Hok in Hl as (z & [= <-] & Hz). lia. }
  by erewrite run_bind; [|by eapply run_loadidx_beyond].
Qed.

Lemma run_self_load_out_of_range self w st idx :
  wf_world w → stores w !! prefix self = Some st →
  idx < 0 ∨ Z.of_nat (dim st) ≤ idx →
  self_load self (IInt idx) w = (Ret None, w).
Proof.
  intros Hwf Hst Hidx. unfold self_load. destruct (caching self).
  - destruct Hidx; [by apply run_loadcache_negative|].
    eapply run_loadcache_beyond; [done | by eapply wf_cache_ok | done].
  - destruct Hidx; [by apply run_loadidx_negative | by eapply run_loadidx_beyond].
Qed.

Lemma run_self_load_negative self w idx :
  idx < 0 → self_load self (IInt idx) w = (Ret None, w).
Proof.
  intros Hidx. unfold self_load.
  destruct (caching self); [by apply run_loadcache_negative | by apply run_loadidx_negative].
Qed.

Lemma run_self_load_beyond self w st idx :
  stores w !! prefix self = Some st → Z.of_nat (dim st) ≤ idx →
  caching self = false ∨ cache st !! KInt idx = None →
  self_load self (IInt idx) w = (Ret None, w).
Proof.
  intros Hst Hidx Hc. unfold self_load. destruct (caching self) eqn:Hcache.
  - destruct Hc as [?|Hc]; [done|].
    unfold loadcache. rewrite bool_decide_false by lia.
    do 2 step. cbn [key_of_idx]. rewrite Hc.
    by erewrite run_bind; [|by eapply run_loadidx_beyond].
  - by eapply run_loadidx_beyond.
Qed.

Lemma run_self_load_hit self w st idx obj :
  caching self = true → stores w !! prefix self = Some st → 0 ≤ idx →
  cache st !! KInt idx = Some obj →
  self_load self (IInt idx) w = (Ret (Some obj), w).
Proof.
  intros Hc Hst Hidx Hhit. unfold self_load. rewrite Hc.
  by eapply run_loadcache_hit.
Qed.

(** C3, as the code has it.  Out-of-range load is a soft failure where
    the cache does not hold the index.  For every store, cached or not,
    registered or not, [load(idx)] with a negative integer [idx] returns
    [None]; it does not raise and leaves the world as it is; so does
    [load(-1)].  With [idx] at least [count()], [load(idx)] returns [None]
    in a store without caching and in a store whose cache holds no object
    under [idx], as in every well-formed world; where the cache of a store
    with caching holds an object under [idx], [load(idx)] returns that
    object: the cache is asked before the range is checked. *)
Theorem load_out_of_range_without_cache_entry self w :
  (∀ idx, idx < 0 → self_load self (IInt idx) w = (Ret None, w))
  ∧ self_load self (IInt (-1)) w = (Ret None, w)
  ∧ (∀ n st idx,
       count self w = (Ret n, w) → stores w !! prefix self = Some st → n ≤ idx →
       (caching self = false ∨ cache st !! KInt idx = None →
        self_load self (IInt idx) w = (Ret None, w))
       ∧ (∀ obj, caching self = true → cache st !! KInt idx = Some obj →
          self_load self (IInt idx) w = (Ret (Some obj), w)))
  ∧ (∀ n idx, wf_world w → count self w = (Ret n, w) → n ≤ idx →
       self_load self (IInt idx) w = (Ret None, w)).
Proof.
  split; [intros idx Hidx; by apply run_self_load_negative|].
  split; [by apply run_self_load_negative|].
  split.
  - intros n st idx (st' & Hst' & -> & _)%count_inv Hst Hidx.
    replace st' with st in * by congruence.
    split.
    + intros Hc. by eapply run_self_load_beyond.
    + intros obj Hc Hhit. eapply run_self_load_hit; [done..|lia|done].
  - intros n idx Hwf (st & Hst & -> & _)%count_inv Hidx.
    eapply run_self_load_out_of_range; eauto.
Qed.

(** The claim C3 fails on the code.  In a storage with the stores "traj"
    and "ens", the object 0 refers to the object 1, whose name is [None].
    The first [save] of object 0 in "traj" assigns it the index 0, saves
    object 1 in "ens", which raises [AttributeError], and so writes no row
    of "traj"; the second [save] of object 0 finds its index, returns 0
    and caches the object.  Then [count()] is 0 and [load(count())]
    returns the object. *)
Lemma load_at_count_returns_cached_object :
  (self_save_nesting traj_store 1%nat (self_save ens_store) 0%nat None pair_world).1
    = Raise AttributeError
  ∧ (self_save_nesting traj_store 1%nat (self_save ens_store) 0%nat None failed_world).1
    = Ret 0
  ∧ count traj_store retried_world = (Ret 0, retried_world)
  ∧ self_load traj_store (IInt 0) retried_world = (Ret (Some 0%nat), retried_world).
Proof. vm_compute. done. Qed.

(** C10, as the code has it.  For a store whose [count()] is 0, [last()],
    which loads the index -1, returns [None] without raising; [first()],
    which loads the index 0, returns [None] without raising in a store
    without caching and in a store whose cache holds no object under the
    index 0, as in every well-formed world; where the cache holds an
    object under the index 0, [first()] returns that object. *)
Theorem first_last_of_empty_store_without_cache_entry self w st :
  count self w = (Ret 0, w) → stores w !! prefix self = Some st →
  last self w = (Ret None, w)
  ∧ (caching self = false ∨ cache st !! KInt 0 = None → first self w = (Ret None, w))
  ∧ (∀ obj, caching self = true → cache st !! KInt 0 = Some obj →
     first self w = (Ret (Some obj), w))
  ∧ (wf_world w → first self w = (Ret None, w)).
Proof.
  intros Hcount Hst.
  pose proof Hcount as (st' & Hst' & Hdim & _)%count_inv.
  replace st' with st in * by congruence.
  split.
  { unfold last. rewrite (run_bind _ _ _ _ _ Hcount). by apply run_self_load_negative. }
  split.
  { intros Hc. unfold first. eapply run_self_load_beyond; [done|lia|done]. }
  split.
  { intros obj Hc Hhit. unfold first. by eapply run_self_load_hit. }
  intros Hwf. unfold first. eapply run_self_load_out_of_range; eauto. lia.
Qed.

(** The claim C10 fails on the code: in the storage of the two saves
    above, [count()] of "traj" is 0, [last()] returns [None] and
    [first()] returns the object 0. *)
Lemma first_of_empty_store_returns_cached_object :
  count traj_store retried_world = (Ret 0, retried_world)
  ∧ last traj_store retried_world = (Ret None, retried_world)
  ∧ first traj_store retried_world = (Ret (Some 0%nat), retried_world).
Proof. vm_compute. done. Qed.

(** ** Saving *)








Lemma name_is_set_storable self o : name_is_set self o → storable self o.
Proof. intros H Hn. destruct (H Hn) as [s ->]. eauto. Qed.

Lemma save_outcome_set self o i : name_is_set self o → save_outcome self o i = Ret i.
Proof.
  intros H. unfold save_outcome. destruct (has_name self) eqn:Hn; [|done].
  by destruct (H Hn) as [s ->].
Qed.


Lemma wf_example_world : wf_world example_world.
Proof.
  apply wf_fresh_world.
  - repeat constructor.
  - intros p st [_ <-]%lookup_singleton_Some. reflexivity.
Qed.

(** C7, as the code has it.  Saving an object that already has the index
    [i] under an explicit index [j], equal to [i] or not, does not
    raise: the object is given the index [j] and [j] is returned. *)
Theorem save_under_explicit_index_reindexes self obj w st o i j :
  wf_world w → stores w !! prefix self = Some st → heap w !! obj = Some o →
  name_is_set self o → o_idx o !! prefix self = Some i → 0 ≤ j →
  ∃ w' o', self_save self obj (Some (IInt j)) w = (Ret j, w')
           ∧ heap w' !! obj = Some o' ∧ o_idx o' !! prefix self = Some j.
Proof.
  intros Hwf Hst Ho Hn _ Hj.
  assert (heap (World (<[obj := obj_saved self o j]> (heap w))
                      (<[prefix self := st_saved self o j st]> (stores w))
                      (storage_attrs w) (variables w)) !! obj
          = Some (obj_saved self o j)) as Ho'.
  { cbn [heap]. apply list_lookup_insert_eq. by eapply lookup_lt_Some. }
  unfold self_save. destruct (caching self).
  - erewrite run_savecache;
      [| erewrite run_saveidx_explicit by done; by rewrite save_outcome_set
       | exact Ho'
       | rewrite o_idx_obj_saved; apply lookup_insert_eq
       | cbn [stores]; apply lookup_insert_eq ].
    rewrite cached_outcome_ok.
    + eexists _, _. split; [done|]. split; [exact Ho'|].
      rewrite o_idx_obj_saved. apply lookup_insert_eq.
    + eapply cache_ok_mono; [by eapply wf_cache_ok | apply cache_st_saved |].
      rewrite dim_st_saved. lia.
    + unfold storable. rewrite o_name_obj_saved. by apply name_is_set_storable.
  - erewrite run_saveidx_explicit by done. rewrite save_outcome_set by done.
    eexists _, _. split; [done|]. split; [exact Ho'|].
    rewrite o_idx_obj_saved. apply lookup_insert_eq.
Qed.

(** The claim C7 fails on the code: an object saved under the index 0 and
    saved again under the explicit index 5 gets the index 5, and 5 is
    returned. *)
Lemma resave_under_conflicting_index_returns :
  (self_save traj_store 0%nat None example_world).1 = Ret 0
  ∧ (self_save traj_store 0%nat (Some (IInt 5))
       (self_save traj_store 0%nat None example_world).2).1 = Ret 5
  ∧ (o ← (self_save traj_store 0%nat (Some (IInt 5))
            (self_save traj_store 0%nat None example_world).2).2.(heap) !! 0%nat;
     o_idx o !! "traj") = Some 5.
Proof. vm_compute. done. Qed.



(** ** Nested saves *)

Lemma run_self_save_fresh self obj w st o :
  stores w !! prefix self = Some st → heap w !! obj = Some o →
  o_idx o !! prefix self = None → name_is_set self o → cache_ok st →
  self_save self obj None w =
    (Ret (free_idx st),
     World (<[obj := obj_saved self o (free_idx st)]> (heap w))
       (<[prefix self :=
            if caching self
            then st_cached self (obj_saved self o (free_idx st)) obj (free_idx st)
                   (IInt (free_idx st))
                   (st_saved self o (free_idx st) (set_free st (live_free st)))
            else st_saved self o (free_idx st) (set_free st (live_free st))]> (stores w))
       (storage_attrs w) (variables w)).
Proof.
  intros Hst Ho Hi Hn Hok. unfold self_save. destruct (caching self).
  - erewrite run_savecache;
      [| erewrite run_saveidx_fresh by done; by rewrite save_outcome_set
       | cbn [heap]; apply list_lookup_insert_eq; by eapply lookup_lt_Some
       | rewrite o_idx_obj_saved; apply lookup_insert_eq
       | cbn [stores]; apply lookup_insert_eq ].
    rewrite cached_outcome_ok.
    + normal_world. reflexivity.
    + eapply cache_ok_mono; [exact Hok | by rewrite cache_st_saved |].
      rewrite dim_st_saved. cbn [dim set_free]. lia.
    + unfold storable. rewrite o_name_obj_saved. by apply name_is_set_storable.
  - erewrite run_saveidx_fresh by done. by rewrite save_outcome_set.
Qed.

Lemma set_o_idx_id o p i :
  o_idx o !! p = Some i → set_o_idx o (<[p := i]> (o_idx o)) = o.
Proof. intros H. rewrite insert_id by done. by destruct o. Qed.

Lemma set_free_id st i : i ∈ _free st → set_free st ({[i]} ∪ _free st) = st.
Proof.
  intros H. rewrite (subseteq_union_1_L {[i]} (_free st)) by (by apply singleton_subseteq_l).
  by destruct st.
Qed.

(** Resuming [saveidx] in a world where the object carries the index and
    the index is reserved already. *)
Lemma run_saveidx_nesting self obj inner save_ i w w3 w4 st o x st4 o4 :
  stores w !! prefix self = Some st → heap w !! obj = Some o →
  w3 = World (<[obj := set_o_idx o (<[prefix self := i]> (o_idx o))]> (heap w))
             (<[prefix self := set_free st ({[i]} ∪ _free st)]> (stores w))
             (storage_attrs w) (variables w) →
  save_ inner None w3 = (Ret x, w4) →
  stores w4 !! prefix self = Some st4 → i ∈ _free st4 →
  heap w4 !! obj = Some o4 → o_idx o4 !! prefix self = Some i →
  saveidx (save_nesting self inner save_) self obj (Some (IInt i)) w =
  saveidx (save self) self obj (Some (IInt i)) w4.
Proof.
  intros Hst Ho -> Hin Hst4 Hi4 Ho4 Hoi4.
  destruct w as [h s a vs]. cbn [heap stores storage_attrs variables] in *.
  assert (Hlt : (obj < length h)%nat) by (by eapply lookup_lt_Some).
  unfold saveidx at 1. repeat step.
  unfold save_nesting. rewrite bind_assoc.
  rewrite (run_bind _ _ _ _ _ Hin).
  symmetry. unfold saveidx.
  destruct w4 as [h4 s4 a4 vs4]. cbn [heap stores storage_attrs variables] in *.
  assert (Hlt4 : (obj < length h4)%nat) by (by eapply lookup_lt_Some).
  repeat step.
  rewrite set_o_idx_id by done. rewrite set_free_id by done.
  rewrite list_insert_id by done. rewrite insert_id by done.
  reflexivity.
Qed.

Lemma run_saveidx_alloc func self obj w st o :
  stores w !! prefix self = Some st → heap w !! obj = Some o →
  o_idx o !! prefix self = None →
  saveidx func self obj None w =
  saveidx func self obj (Some (IInt (free_idx st)))
    (set_stores w (<[prefix self := set_free st (live_free st)]> (stores w))).
Proof.
  intros Hst Ho Hidx.
  unfold saveidx at 1. do 2 step. rewrite Hidx. step.
  symmetry. unfold saveidx. do 2 step. reflexivity.
Qed.

Lemma free_st_write v st i x : _free (st_write v st i x) = _free st.
Proof. apply free_set_var. Qed.

Lemma free_st_saved self o i st : _free (st_saved self o i st) = {[i]} ∪ _free st.
Proof.
  unfold st_saved. repeat case_match; rewrite ?free_st_write; reflexivity.
Qed.

Lemma free_st_cached self o obj i n st : _free (st_cached self o obj i n st) = _free st.
Proof. unfold st_cached. by repeat case_match. Qed.

Lemma name_is_set_eq self o o' : o_name o' = o_name o → name_is_set self o → name_is_set self o'.
Proof. intros Heq H Hn. rewrite Heq. by apply H. Qed.

Lemma run_saveidx_nested_fresh self obj inner w st o oi :
  cache_ok st → stores w !! prefix self = Some st → obj ≠ inner →
  heap w !! obj = Some o → heap w !! inner = Some oi →
  o_idx o !! prefix self = None → o_idx oi !! prefix self = None →
  name_is_set self o → name_is_set self oi →
  ∃ i i' w' o' oi',
    saveidx (save_nesting self inner (self_save self)) self obj None w = (Ret i, w')
    ∧ heap w' !! obj = Some o' ∧ o_idx o' !! prefix self = Some i
    ∧ heap w' !! inner = Some oi' ∧ o_idx oi' !! prefix self = Some i'
    ∧ i ≠ i'.
Proof.
  intros Hok Hst Hne Ho Hoi Hidx Hidxi Hn Hni.
  pose proof (free_idx_spec st) as (Hge & _ & _).
  set (i := free_idx st).
  set (stA := set_free st (live_free st)).
  set (stB := set_free stA ({[i]} ∪ _free stA)).
  set (o1 := set_o_idx o (<[prefix self := i]> (o_idx o))).
  set (i' := free_idx stB).
  assert (Hlt : (obj < length (heap w))%nat) by (by eapply lookup_lt_Some).
  assert (Hlti : (inner < length (heap w))%nat) by (by eapply lookup_lt_Some).
  assert (i ∈ live_free stB) as HiB.
  { unfold live_free. rewrite elem_of_filter. subst stB. cbn [dim _free set_free].
    split; [fold i in Hge; subst stA; cbn [dim set_free]; lia |].
    apply elem_of_union_l, elem_of_singleton. reflexivity. }
  assert (i ≠ i') as Hii.
  { pose proof (free_idx_spec stB) as (_ & Hnot & _). fold i' in Hnot.
    intros Heq. apply Hnot. rewrite <- Heq. subst stB. cbn [_free set_free].
    apply elem_of_union_l, elem_of_singleton. reflexivity. }
  erewrite run_saveidx_alloc by done. fold i stA.
  erewrite run_saveidx_nesting with (st := stA) (o := o);
    [ | cbn [stores set_stores]; apply lookup_insert_eq
      | exact Ho
      | reflexivity
      | apply run_self_save_fresh with (st := stB) (o := oi)
      | | | | ].
  - erewrite run_saveidx_explicit with (o := o1); [| | | subst i; lia].
    + rewrite save_outcome_set by (by apply (name_is_set_eq self o)).
      eexists i, i', _, _, _. split; [reflexivity|]. cbn [heap].
      split; [apply list_lookup_insert_eq; by rewrite !length_insert|].
      split; [rewrite o_idx_obj_saved; apply lookup_insert_eq|].
      split; [rewrite list_lookup_insert_ne by done;
              apply list_lookup_insert_eq; by rewrite length_insert|].
      split; [rewrite o_idx_obj_saved; apply lookup_insert_eq | done].
    + cbn [stores]. apply lookup_insert_eq.
    + cbn [heap]. rewrite list_lookup_insert_ne by done.
      apply list_lookup_insert_eq. done.
  - cbn [stores set_stores]. rewrite insert_insert_eq. apply lookup_insert_eq.
  - cbn [heap set_stores]. by rewrite list_lookup_insert_ne.
  - done.
  - done.
  - subst stB stA. intros k l. cbn [cache set_free dim]. apply Hok.
  - cbn [stores]. apply lookup_insert_eq.
  - destruct (caching self); rewrite ?free_st_cached, free_st_saved;
      cbn [_free set_free]; apply elem_of_union_r; exact HiB.
  - cbn [heap set_stores]. rewrite list_lookup_insert_ne by done.
    apply list_lookup_insert_eq. done.
  - subst o1. cbn [o_idx set_o_idx]. apply lookup_insert_eq.
Qed.

(** C9.  Free-index allocation skips reservations: [free()] returns the
    smallest index that is at least [count()] and is not in the
    reservation set.  [save] reserves the index it allocates before the
    payload is written, so that a save of another object of the store that
    is triggered while the first one is in flight gets a different
    index. *)
Theorem free_skips_reservations self w st :
  stores w !! prefix self = Some st →
  count self w = (Ret (Z.of_nat (dim st)), w)
  ∧ (∃ i w', free self w = (Ret i, w')
       ∧ Z.of_nat (dim st) ≤ i ∧ (i ∉ _free st)
       ∧ ∀ j, Z.of_nat (dim st) ≤ j < i → j ∈ _free st)
  ∧ (∀ obj inner o oi,
       cache_ok st → obj ≠ inner →
       heap w !! obj = Some o → heap w !! inner = Some oi →
       o_idx o !! prefix self = None → o_idx oi !! prefix self = None →
       name_is_set self o → name_is_set self oi →
       ∃ i i' w' o' oi',
         saveidx (save_nesting self inner (self_save self)) self obj None w = (Ret i, w')
         ∧ heap w' !! obj = Some o' ∧ o_idx o' !! prefix self = Some i
         ∧ heap w' !! inner = Some oi' ∧ o_idx oi' !! prefix self = Some i'
         ∧ i ≠ i').
Proof.
  intros Hst. split; [by apply run_count|]. split.
  - eexists _, _. split; [by apply run_free|]. apply free_idx_spec.
  - intros obj inner o oi Hok Hne Ho Hoi Hi Hii Hn Hni.
    by eapply run_saveidx_nested_fresh.
Qed.

(** ** Conversion utilities *)

Section numpy_facts.

Variable float : Type.
Variable float_of_int : Z → float.
Variable single : float → float.
Variable trunc : float → Z.

Local Abbreviation list_to_numpy' := (list_to_numpy float float_of_int single trunc).
Local Abbreviation astype' := (astype float float_of_int single trunc).
Local Abbreviation astype_items' := (astype_items float float_of_int single trunc).
Local Abbreviation astype_item' := (astype_item float float_of_int single trunc).

Lemma run_astype t (data xs : list (pyval float)) w :
  astype_items' t data = Ret xs → astype' t data w = (Ret (NdArray t xs), w).
Proof. intros H. unfold astype. by rewrite H. Qed.

Lemma astype_inv t (data : list (pyval float)) w arr w' :
  astype' t data w = (Ret arr, w') →
  dtype arr = t ∧ astype_items' t data = Ret (items arr) ∧ w' = w.
Proof.
  unfold astype. destruct (astype_items' t data) as [xs|e]; [|done].
  by intros [= <- <-].
Qed.

Lemma astype_items_lookup t (data xs : list (pyval float)) k v :
  astype_items' t data = Ret xs → data !! k = Some v →
  ∃ x, astype_item' t v = Ret x ∧ xs !! k = Some x.
Proof.
  revert xs k. induction data as [|d data IH]; intros xs k; [done|].
  cbn [astype_items].
  destruct (astype_item' t d) as [x|e] eqn:Hx; [|done].
  destruct (astype_items' t data) as [xs'|e] eqn:Hxs; [|done].
  intros [= <-]. destruct k as [|k]; cbn.
  - intros [= <-]. eauto.
  - by apply IH.
Qed.

Lemma astype_items_replicate t n (v x : pyval float) :
  astype_item' t v = Ret x →
  astype_items' t (replicate n v) = Ret (replicate n x).
Proof.
  intros H. induction n as [|n IH]; [done|].
  cbn [replicate astype_items]. by rewrite H, IH.
Qed.

Lemma mapM_index_of_value_lookup self allow_empty (data values : list (pyval float)) w w' k :
  mapM (index_of_value float self allow_empty) data w = (Ret values, w') →
  data !! k = Some PyNone → values !! k = Some (PyInt (-1)).
Proof.
  revert values w k. induction data as [|d data IH]; intros values w k; [done|].
  cbn [mapM]. unfold mbind at 1, M_bind at 1.
  destruct (index_of_value float self allow_empty d w) as [[x|e] w1] eqn:Hx; [|done].
  unfold mbind at 1, M_bind at 1.
  destruct (mapM (index_of_value float self allow_empty) data w1) as [[xs|e] w2] eqn:Hxs; [|done].
  intros [= <- <-]. destruct k as [|k]; cbn.
  - intros [= ->]. cbn in Hx. destruct allow_empty; [|done]. by injection Hx as <- _.
  - by eapply IH.
Qed.

Lemma mapM_replicate {A B : Type} (f : A → M B) a b n w :
  f a w = (Ret b, w) → mapM f (replicate n a) w = (Ret (replicate n b), w).
Proof.
  intros H. induction n as [|n IH]; [done|].
  cbn [replicate mapM]. rewrite (run_bind _ _ _ _ _ H).
  by rewrite (run_bind _ _ _ _ _ IH).
Qed.

Lemma run_value_of_index_negative key_store allow_empty i w :
  i < 0 → value_of_index float key_store allow_empty (PyInt i) w = (Ret PyNone, w).
Proof.
  intros Hi. unfold value_of_index. rewrite bool_decide_false by lia.
  destruct allow_empty; [done|]. cbn [negb orb].
  assert (self_load key_store (IInt i) w = (Ret None, w)) as Hload.
  { unfold self_load. destruct (caching key_store);
      [by apply run_loadcache_negative | by apply run_loadidx_negative]. }
  by rewrite (run_bind _ _ _ _ _ Hload).
Qed.

Lemma run_value_of_index_nonneg key_store allow_empty i w :
  0 ≤ i →
  value_of_index float key_store allow_empty (PyInt i) w =
    (r ← self_load key_store (IInt i); mret (value_of_loaded r)) w.
Proof.
  intros Hi. unfold value_of_index. rewrite bool_decide_true by lia.
  by rewrite orb_true_r.
Qed.

Lemma mapM_value_of_index_lookup key_store allow_empty (xs data : list (pyval float)) w w' k i :
  mapM (value_of_index float key_store allow_empty) xs w = (Ret data, w') →
  xs !! k = Some (PyInt i) → i < 0 → data !! k = Some PyNone.
Proof.
  revert data w k. induction xs as [|x xs IH]; intros data w k; [done|].
  cbn [mapM]. unfold mbind at 1, M_bind at 1.
  destruct (value_of_index float key_store allow_empty x w) as [[y|e] w1] eqn:Hy; [|done].
  unfold mbind at 1, M_bind at 1.
  destruct (mapM (value_of_index float key_store allow_empty) xs w1) as [[ys|e] w2] eqn:Hys;
    [|done].
  intros [= <- <-]. destruct k as [|k]; cbn.
  - intros [= ->] Hi. rewrite run_value_of_index_negative in Hy by done. by injection Hy as <- _.
  - by eapply IH.
Qed.

Lemma run_list_to_numpy_object self data value_type allow_empty w :
  object_type value_type →
  list_to_numpy' self data value_type allow_empty w =
    (values ← mapM (index_of_value float self allow_empty) data; astype' np_int32 values) w.
Proof.
  intros (? & ? & ? & ? & ?). unfold list_to_numpy. by rewrite !decide_False.
Qed.

Lemma run_list_from_numpy_object self values value_type allow_empty w st key_store :
  object_type value_type →
  stores w !! prefix self = Some st → storage_attrs w !! value_type = Some key_store →
  list_from_numpy float self values value_type allow_empty w =
    mapM (value_of_index float key_store allow_empty) (items values) w.
Proof.
  intros (? & ? & ? & ? & ?) Hst Hattr. unfold list_from_numpy.
  rewrite !decide_False by done. step.
  unfold mbind, M_bind, storage_getattr. by rewrite Hattr.
Qed.

(** C6.  Sentinel correctness.  In an array made by [list_to_numpy] from
    a list of references, every position that holds [None] holds the
    index -1; [list_from_numpy] gives [None] at every position that holds
    a negative index, so that a list of [None] comes back as a list of
    [None] and nothing is loaded; an index that is not negative is
    reconstructed by [load] on the store that the value type names.
    [load_object] gives [None] for a negative index too; an index that is
    not negative it passes to [load] as the numpy integer that it read:
    a store without a cache loads the index, a store with a cache raises
    [TypeError]. *)
Theorem none_is_stored_as_minus_one self value_type key_store w st :
  object_type value_type →
  stores w !! prefix self = Some st →
  storage_attrs w !! value_type = Some key_store →
  (∀ data allow_empty arr w',
     list_to_numpy' self data value_type allow_empty w = (Ret arr, w') →
     dtype arr = np_int32
     ∧ ∀ k, data !! k = Some PyNone → items arr !! k = Some (PyInt (-1)))
  ∧ (∀ values allow_empty data w',
       list_from_numpy float self values value_type allow_empty w = (Ret data, w') →
       ∀ k i, items values !! k = Some (PyInt i) → i < 0 → data !! k = Some PyNone)
  ∧ (∀ n allow_empty,
       list_to_numpy' self (replicate n PyNone) value_type true w =
         (Ret (NdArray np_int32 (replicate n (PyInt (-1)))), w)
       ∧ list_from_numpy float self (NdArray np_int32 (replicate n (PyInt (-1))))
           value_type allow_empty w = (Ret (replicate n PyNone), w))
  ∧ (∀ t i allow_empty, 0 ≤ i →
       list_from_numpy float self (NdArray t [PyInt i]) value_type allow_empty w =
         (r ← self_load key_store (IInt i); mret [value_of_loaded r]) w)
  ∧ (∀ name idx index store,
       load_variable (name +:+ "_idx") idx w = (Ret index, w) →
       (index < 0 → load_object self name idx store w = (Ret None, w))
       ∧ (0 ≤ index → caching store = false →
          load_object self name idx store w = self_load store (IInt index) w)
       ∧ (0 ≤ index → caching store = true →
          load_object self name idx store w = (Raise TypeError, w))).
Proof.
  intros Hty Hst Hattr. repeat split.
  - rewrite run_list_to_numpy_object in H by done.
    unfold mbind, M_bind in H.
    destruct (mapM _ data w) as [[values|e] w1]; [|done].
    by apply astype_inv in H as (? & _ & _).
  - intros k Hk. rewrite run_list_to_numpy_object in H by done.
    unfold mbind, M_bind in H.
    destruct (mapM _ data w) as [[values|e] w1] eqn:Hm; [|done].
    apply astype_inv in H as (_ & Hitems & _).
    pose proof (mapM_index_of_value_lookup _ _ _ _ _ _ _ Hm Hk) as Hv.
    destruct (astype_items_lookup _ _ _ _ _ Hitems Hv) as (x & Hx & ->).
    by injection Hx as <-.
  - intros values allow_empty data w' H k i Hk Hi.
    erewrite run_list_from_numpy_object in H by done.
    by eapply mapM_value_of_index_lookup.
  - rewrite run_list_to_numpy_object by done.
    erewrite run_bind; [| by apply mapM_replicate].
    by apply run_astype, astype_items_replicate.
  - erewrite run_list_from_numpy_object by done. cbn [items].
    apply mapM_replicate. by apply run_value_of_index_negative.
  - intros t i allow_empty Hi.
    erewrite run_list_from_numpy_object by done. cbn [items mapM].
    unfold mbind at 1, M_bind at 1.
    rewrite run_value_of_index_nonneg by done.
    unfold mbind, M_bind.
    by destruct (self_load key_store (IInt i) w) as [[r|e] w1].
  - intros Hneg. unfold load_object. rewrite (run_bind _ _ _ _ _ H).
    by rewrite decide_True.
  - intros Hpos Hc. unfold load_object. rewrite (run_bind _ _ _ _ _ H).
    rewrite decide_False by lia. unfold self_load. by rewrite Hc.
  - intros Hpos Hc. unfold load_object. rewrite (run_bind _ _ _ _ _ H).
    rewrite decide_False by lia. unfold self_load, loadcache. rewrite Hc.
    rewrite bool_decide_false by lia. by rewrite bind_raise.
Qed.

(** The element types that [list_to_numpy] chooses: single-precision
    floats for "float" and also for "int", 8-bit unsigned integers for
    "bool", 32-bit signed integers for "index", "length" and references. *)
Lemma list_to_numpy_dtype self data value_type allow_empty w arr w' :
  list_to_numpy' self data value_type allow_empty w = (Ret arr, w') →
  dtype arr =
    if decide (value_type = "int") then np_float32
    else if decide (value_type = "float") then np_float32
    else if decide (value_type = "bool") then np_uint8
    else np_int32.
Proof.
  unfold list_to_numpy.
  repeat case_decide; try (by intros (? & _ & _)%astype_inv).
  unfold mbind, M_bind.
  destruct (mapM _ data w) as [[values|e] w1]; [|done].
  by intros (? & _ & _)%astype_inv.
Qed.

(** C5 fails on the code for integers.  [list_to_numpy] encodes a list of
    type "int" as single-precision floats, whatever the list, while the
    variable that receives it is declared with the 32-bit signed integers
    that [_parse_var_type_as_np_type] gives for "int". *)
Theorem list_to_numpy_int_is_float32 self w :
  (∀ data allow_empty arr w',
     list_to_numpy' self data "int" allow_empty w = (Ret arr, w') →
     dtype arr = np_float32)
  ∧ list_to_numpy' self [PyInt 1; PyInt 2; PyInt 3] "int" true w =
      (Ret (NdArray np_float32
              [PyFloat (single (float_of_int 1)); PyFloat (single (float_of_int 2));
               PyFloat (single (float_of_int 3))]), w)
  ∧ _parse_var_type_as_np_type "int" = Ret np_int32.
Proof.
  split; [|done].
  intros data allow_empty arr w' H. by apply list_to_numpy_dtype in H.
Qed.

End numpy_facts.

(** ** Names *)

(** In a well-formed world the cache has no name among its keys, so that
    [_update_name_in_cache] never extends the list of a name: it replaces
    the list by the one index at hand. *)
Lemma update_name_in_cache_overwrites self name idx w st :
  stores w !! prefix self = Some st → cache_ok st → name ≠ Some "" →
  _update_name_in_cache self name idx w =
    (Ret tt,
     set_stores w
       (<[prefix self := set_name_idx st (<[key_of_name name := [idx]]> (name_idx st))]>
          (stores w))).
Proof.
  intros Hst Hok Hne. unfold _update_name_in_cache.
  rewrite decide_False by done. step.
  destruct (cache st !! key_of_name name) as [l|] eqn:Hl; [|done].
  apply Hok in Hl as (z & Hz & _). by destruct name.
Qed.

(** C4 fails on the code.  After two objects were saved under the same
    name "x", first the object 0 under the index 0 and then the object 1
    under the index 1, [find("x")] returns the second object only and
    [find_first("x")] returns the second object, not the first.  The same
    holds when the storage is opened again and the names are read from the
    file: one object is found, and it is the one of row 1. *)
Theorem find_returns_last_saved_only :
  (self_save traj_store 0%nat None example_world).1 = Ret 0
  ∧ (self_save traj_store 1%nat None saved_world).1 = Ret 1
  ∧ (find traj_store "x" twice_saved_world).1 = Ret (RList [Some 1%nat])
  ∧ (find_first traj_store "x" twice_saved_world).1 = Ret (RObj (Some 1%nat))
  ∧ (find traj_store "x" (reopen twice_saved_world)).1 = Ret (RList [Some 0%nat])
  ∧ (o ← (find traj_store "x" (reopen twice_saved_world)).2.(heap) !! 0%nat;
     o_idx o !! "traj") = Some 1.
Proof. vm_compute. done. Qed.

(** ** The statements at work on the small storage *)

(** A save of the object 0 whose serialisation saves the object 1: the
    outer save gets the index 0 and the nested one the index 1. *)
Example nested_save_gets_next_index :
  (saveidx (save_nesting traj_store 1%nat (self_save traj_store)) traj_store 0%nat None
     example_world).1 = Ret 0
  ∧ (o ← (saveidx (save_nesting traj_store 1%nat (self_save traj_store)) traj_store 0%nat None
            example_world).2.(heap) !! 1%nat;
     o_idx o !! "traj") = Some 1.
Proof. vm_compute. done. Qed.

Lemma wf_saved_world : wf_world saved_world.
Proof. apply self_save_wf; [apply wf_example_world | exact I]. Qed.



Lemma first_last_of_empty_store_without_cache_entry_witness :
  last traj_store example_world = (Ret None, example_world)
  ∧ (caching traj_store = false ∨ cache new_store !! KInt 0 = None →
     first traj_store example_world = (Ret None, example_world))
  ∧ (∀ obj, caching traj_store = true → cache new_store !! KInt 0 = Some obj →
     first traj_store example_world = (Ret (Some obj), example_world))
  ∧ (wf_world example_world → first traj_store example_world = (Ret None, example_world)).
Proof.
  apply (first_last_of_empty_store_without_cache_entry traj_store example_world new_store).
  - reflexivity.
  - reflexivity.
Defined.

Lemma save_under_explicit_index_reindexes_witness :
  ∃ w' o', self_save traj_store 0%nat (Some (IInt 5)) saved_world = (Ret 5, w')
           ∧ heap w' !! 0%nat = Some o' ∧ o_idx o' !! prefix traj_store = Some 5.
Proof.
  eapply (save_under_explicit_index_reindexes traj_store 0%nat saved_world _ _ 0 5).
  - apply wf_saved_world.
  - vm_compute. reflexivity.
  - vm_compute. reflexivity.
  - intros _. vm_compute. eauto.
  - vm_compute. reflexivity.
  - lia.
Defined.


Lemma free_skips_reservations_witness :
  count traj_store saved_world = (Ret 1, saved_world)
  ∧ ∃ i w', free traj_store saved_world = (Ret i, w') ∧ 1 ≤ i.
Proof.
  destruct (free_skips_reservations traj_store saved_world
              (StoreState {[KInt 0 := 0%nat]} {[KStr "x" := [IInt 0]]} {[0]} false false 1%nat
                 {[0 := "A"]} {[0 := "x"]} ∅))
    as (Hc & (i & w' & Hf & Hi & _) & _).
  - vm_compute. reflexivity.
  - split; [exact Hc|]. exists i, w'. split; [exact Hf | exact Hi].
Defined.

Lemma none_is_stored_as_minus_one_witness :
  list_to_numpy Z id id id traj_store [PyNone; PyNone] "trajectories" true ref_world =
    (Ret (NdArray np_int32 [PyInt (-1); PyInt (-1)]), ref_world)
  ∧ list_from_numpy Z traj_store (NdArray np_int32 [PyInt (-1); PyInt (-1)])
      "trajectories" true ref_world = (Ret [PyNone; PyNone], ref_world)
  ∧ load_object traj_store "sample" 1 traj_store ref_world = (Ret None, ref_world)
  ∧ load_object traj_store "sample" 0 traj_store ref_world = (Raise TypeError, ref_world)
  ∧ self_load traj_store (IInt 0) ref_world = (Ret (Some 0%nat), ref_world).
Proof.
  destruct (none_is_stored_as_minus_one Z id id id traj_store "trajectories" traj_store
              ref_world saved_state) as (_ & _ & H & _ & Hobj).
  - repeat split; discriminate.
  - vm_compute. reflexivity.
  - reflexivity.
  - split; [exact (proj1 (H 2%nat true))|]. split; [exact (proj2 (H 2%nat true))|].
    split.
    + destruct (Hobj "sample" 1 (-1) traj_store) as (Hneg & _ & _);
        [vm_compute; reflexivity|].
      apply Hneg. lia.
    + split.
      * destruct (Hobj "sample" 0 0 traj_store) as (_ & _ & Hpos);
          [vm_compute; reflexivity|].
        apply Hpos; [lia | reflexivity].
      * vm_compute. reflexivity.
Defined.

(** * Further properties *)

(** ** Loading a row *)

Lemma run_loadcache_miss self n w st :
  stores w !! prefix self = Some st → cache st !! KInt n = None →
  0 ≤ n < Z.of_nat (dim st) →
  loadcache (loadidx (load self) self) self (IInt n) w =
    (cached_outcome self (obj_loaded self st n) (length (heap w)) n st (Some (length (heap w))),
     World (heap w ++ [obj_loaded self st n])
           (<[prefix self := st_cached self (obj_loaded self st n) (length (heap w)) n
                               (IInt n) st]> (stores w))
           (storage_attrs w) (variables w)).
Proof.
  intros Hst Hc Hn. unfold loadcache. rewrite bool_decide_false by lia.
  do 2 step. cbn [key_of_idx]. rewrite Hc.
  erewrite run_bind by (by apply run_loadidx_row).
  cbn beta iota.
  erewrite bind_getobj by (cbn [heap set_heap]; apply lookup_snoc).
  rewrite o_idx_obj_loaded, lookup_singleton_eq.
  do 2 step.
  unfold cached_outcome, st_cached, _update_name_in_cache.
  destruct (has_name self); [|by run].
  destruct (o_name (obj_loaded self st n)) as [nm|]; [|by run].
  destruct (decide (nm = Some "")); [by run|].
  rewrite bind_assoc. step. cbn [cache set_cache].
  unfold loc in *.
  match goal with |- context [ @lookup ?a ?b ?c ?d (key_of_name nm) ?m ] =>
    destruct (@lookup a b c d (key_of_name nm) m) end;
    run; normal_world; reflexivity.
Qed.

Lemma storable_obj_loaded self st n : class_ok self → storable self (obj_loaded self st n).
Proof. intros Hc Hn. apply o_name_obj_loaded. by apply Hc. Qed.

Lemma o_json_obj_loaded self st n :
  o_json (obj_loaded self st n) = Some (cell (var_json st) n).
Proof.
  unfold obj_loaded, build.
  destruct (has_uid self), (has_name self), (content_named self); reflexivity.
Qed.

Lemma o_body_obj_loaded self st n :
  o_body (obj_loaded self st n) = cell (var_json st) n.
Proof.
  unfold obj_loaded, build.
  destruct (has_uid self), (has_name self), (content_named self); reflexivity.
Qed.

Lemma o_name_obj_loaded_named self st n :
  has_name self = true → content_named self = true →
  o_name (obj_loaded self st n) = Some (Some (cell (var_name st) n)).
Proof.
  intros Hn Hc. unfold obj_loaded, build. rewrite Hn, Hc.
  by destruct (has_uid self).
Qed.

(** A load of a row through the cache: a hit gives the cached instance,
    a miss builds one and caches it; either way the same instance comes
    back from then on. *)
Lemma run_self_load_cached self n w st :
  caching self = true → class_ok self →
  stores w !! prefix self = Some st → cache_ok st →
  0 ≤ n < Z.of_nat (dim st) →
  ∃ obj w1 st1,
    self_load self (IInt n) w = (Ret (Some obj), w1)
    ∧ stores w1 !! prefix self = Some st1
    ∧ cache st1 !! KInt n = Some obj
    ∧ same_rows st st1.
Proof.
  intros Hc Hcl Hst Hok Hn. unfold self_load. rewrite Hc.
  destruct (cache st !! KInt n) as [obj|] eqn:Hhit.
  - exists obj, w, st. erewrite run_loadcache_hit by (done || lia). done.
  - erewrite run_loadcache_miss by done.
    rewrite cached_outcome_ok by (done || by apply storable_obj_loaded).
    eexists _, _, _. split; [done|]. cbn [stores]. rewrite lookup_insert_eq.
    split; [done|]. split; [apply st_cached_lookup | apply same_rows_st_cached].
Qed.

Lemma var_json_st_saved self o i st :
  var_json (st_saved self o i st) = <[i := payload o]> (var_json st).
Proof.
  unfold st_saved, payload.
  destruct (has_uid self), (has_name self), (o_uid o) as [u|], (o_name o) as [[s|]|];
    try destruct (decide (u = "")); reflexivity.
Qed.

Lemma var_name_st_saved_set self o i st s :
  has_name self = true → o_name o = Some (Some s) →
  var_name (st_saved self o i st) = <[i := s]> (var_name st).
Proof.
  intros Hn Ho. unfold st_saved. rewrite Hn, Ho.
  destruct (has_uid self), (o_uid o) as [u|];
    try destruct (decide (u = "")); reflexivity.
Qed.

Lemma var_name_st_saved_plain self o i st :
  has_name self = false → var_name (st_saved self o i st) = var_name st.
Proof.
  intros Hn. unfold st_saved. rewrite Hn.
  destruct (has_uid self), (o_uid o) as [u|];
    try destruct (decide (u = "")); reflexivity.
Qed.

Lemma cell_insert_eq (col : gmap Z string) i x : cell (<[i := x]> col) i = x.
Proof. unfold cell. by rewrite lookup_insert_eq. Qed.

Lemma cell_insert_ne (col : gmap Z string) i j x :
  i ≠ j → cell (<[i := x]> col) j = cell col j.
Proof. intros H. unfold cell. by rewrite lookup_insert_ne. Qed.

Lemma run_clear_cache self w st :
  stores w !! prefix self = Some st →
  clear_cache self w =
    (Ret tt, set_stores w (<[prefix self := set_cached_all (set_cache st ∅) false]> (stores w))).
Proof. intros H. unfold clear_cache. by step. Qed.

Lemma run_idx self obj w o :
  heap w !! obj = Some o → idx self obj w = (Ret (o_idx o !! prefix self), w).
Proof. intros H. unfold idx. by step. Qed.

(** The state of the store after [save] of a new object, with or
    without the cache update. *)
Lemma run_self_save_fresh_inv self obj w st o :
  stores w !! prefix self = Some st → heap w !! obj = Some o →
  o_idx o !! prefix self = None → name_is_set self o → cache_ok st →
  ∃ w1 st1,
    self_save self obj None w = (Ret (free_idx st), w1)
    ∧ heap w1 = <[obj := obj_saved self o (free_idx st)]> (heap w)
    ∧ stores w1 = <[prefix self := st1]> (stores w)
    ∧ same_rows (st_saved self o (free_idx st) (set_free st (live_free st))) st1
    ∧ (caching self = true → cache st1 !! KInt (free_idx st) = Some obj).
Proof.
  intros Hst Ho Hi Hn Hok.
  erewrite run_self_save_fresh by done.
  eexists _, _. split; [reflexivity|]. cbn [heap stores].
  split; [done|]. split; [done|].
  destruct (caching self).
  - split; [apply same_rows_st_cached|]. intros _. apply st_cached_lookup.
  - by split.
Qed.

(** ** Rows of the table *)

Lemma dim_st_saved_fresh self o st fr :
  Z.of_nat (dim (st_saved self o (free_idx st) (set_free st fr))) = free_idx st + 1.
Proof.
  rewrite dim_st_saved. cbn [dim set_free].
  pose proof (free_idx_spec st) as [Hle _]. lia.
Qed.

(** X1: a save of an object that carries its [json] attribute (an object
    that was loaded, or saved in another store, so that [save_json] writes
    the attribute and does not call the Serializer) and has no index in
    this store appends one row to the table: the index is at least the old
    count, the count becomes the index plus one, the [json] attribute and
    the name of the object are in the row, the other stores are as before,
    and [idx] gives the index of the object, which was [None] before. *)
Theorem fresh_save_appends_row self obj w st o :
  wf_world w → stores w !! prefix self = Some st → heap w !! obj = Some o →
  is_Some (o_json o) →
  o_idx o !! prefix self = None → name_is_set self o →
  ∃ i w1 st1,
    self_save self obj None w = (Ret i, w1)
    ∧ Z.of_nat (dim st) ≤ i
    ∧ stores w1 !! prefix self = Some st1
    ∧ count self w1 = (Ret (i + 1), w1)
    ∧ cell (var_json st1) i = payload o
    ∧ (∀ j, j ≠ i → cell (var_json st1) j = cell (var_json st) j)
    ∧ (has_name self = true → o_name o = Some (Some (cell (var_name st1) i)))
    ∧ (∀ q, q ≠ prefix self → stores w1 !! q = stores w !! q)
    ∧ idx self obj w = (Ret None, w)
    ∧ idx self obj w1 = (Ret (Some i), w1).
Proof.
  intros Hwf Hst Ho _ Hi Hn.
  destruct (run_self_save_fresh_inv self obj w st o) as (w1 & st1 & Hs & Hh & Hss & Hr & _);
    [done..|by eapply wf_cache_ok|].
  destruct Hr as (Hd & Hj & Hnm & _).
  assert (Hst1 : stores w1 !! prefix self = Some st1) by (by rewrite Hss, lookup_insert_eq).
  exists (free_idx st), w1, st1. split; [done|].
  split; [apply free_idx_spec|]. split; [done|].
  split. { erewrite run_count by done. by rewrite Hd, dim_st_saved_fresh. }
  split. { by rewrite Hj, var_json_st_saved, cell_insert_eq. }
  split. { intros j Hne. by rewrite Hj, var_json_st_saved, cell_insert_ne. }
  split.
  { intros Hnt. destruct (Hn Hnt) as [s Hs'].
    by erewrite Hnm, var_name_st_saved_set, cell_insert_eq. }
  split. { intros q Hq. by rewrite Hss, lookup_insert_ne. }
  split. { erewrite run_idx by done. by rewrite Hi. }
  erewrite run_idx by (rewrite Hh; apply list_lookup_insert_eq; by eapply lookup_lt_Some).
  by rewrite o_idx_obj_saved, lookup_insert_eq.
Qed.

(** X2: when the cache is cleared after a save, a load of the index reads
    the row back from the file: it builds a new instance, other than the
    saved one, that carries the index, the payload and the name of the
    saved object. *)
Theorem save_clear_cache_load_round_trip self obj w st o :
  wf_world w → caching self = true → class_ok self →
  stores w !! prefix self = Some st → heap w !! obj = Some o →
  o_idx o !! prefix self = None → name_is_set self o →
  ∃ i w1 w2 obj' w3 o',
    self_save self obj None w = (Ret i, w1)
    ∧ clear_cache self w1 = (Ret tt, w2)
    ∧ self_load self (IInt i) w2 = (Ret (Some obj'), w3)
    ∧ obj' ≠ obj
    ∧ heap w3 !! obj' = Some o'
    ∧ o_idx o' !! prefix self = Some i
    ∧ o_body o' = payload o
    ∧ o_json o' = Some (payload o)
    ∧ (has_name self = true → o_name o' = o_name o).
Proof.
  intros Hwf Hc Hcl Hst Ho Hi Hn.
  destruct (run_self_save_fresh_inv self obj w st o) as (w1 & st1 & Hs & Hh & Hss & Hr & _);
    [done..|by eapply wf_cache_ok|].
  destruct Hr as (Hd & Hj & Hnm & _).
  assert (Hst1 : stores w1 !! prefix self = Some st1) by (by rewrite Hss, lookup_insert_eq).
  set (i := free_idx st) in *.
  set (st2 := set_cached_all (set_cache st1 ∅) false).
  set (w2 := set_stores w1 (<[prefix self := st2]> (stores w1))).
  assert (Hst2 : stores w2 !! prefix self = Some st2) by apply lookup_insert_eq.
  assert (Hi2 : 0 ≤ i < Z.of_nat (dim st2)).
  { cbn [st2 dim set_cached_all set_cache]. rewrite Hd. unfold i.
    rewrite dim_st_saved_fresh. pose proof (free_idx_spec st) as [Hle _]. lia. }
  assert (Hlen : length (heap w2) = length (heap w)).
  { cbn [w2 heap set_stores]. by rewrite Hh, length_insert. }
  eexists i, w1, w2, (length (heap w)), _, (obj_loaded self st2 i).
  split; [done|]. split; [by apply run_clear_cache|].
  split.
  { unfold self_load. rewrite Hc.
    erewrite run_loadcache_miss by (done || apply lookup_empty).
    rewrite cached_outcome_ok, Hlen; [done| |by apply storable_obj_loaded].
    intros k l Hk. cbn [st2 cache set_cached_all set_cache] in Hk.
    by rewrite lookup_empty in Hk. }
  split. { apply lookup_lt_Some in Ho. lia. }
  split. { cbn [heap]. rewrite <- Hlen. apply lookup_snoc. }
  split. { by rewrite o_idx_obj_loaded, lookup_singleton_eq. }
  assert (Hcell : cell (var_json st2) i = payload o).
  { cbn [st2 var_json set_cached_all set_cache].
    by rewrite Hj, var_json_st_saved, cell_insert_eq. }
  split. { by rewrite o_body_obj_loaded. }
  split. { by rewrite o_json_obj_loaded, Hcell. }
  intros Hnt. destruct (Hn Hnt) as [s Hs'].
  rewrite o_name_obj_loaded_named by (done || by apply Hcl).
  cbn [st2 var_name set_cached_all set_cache].
  by erewrite Hnm, var_name_st_saved_set, cell_insert_eq.
Qed.


(** ** Instances *)

(** X4: a store with a cache hands out one instance per row: a load of
    an index below the count gives an object, and every later load of the
    index gives the same object and changes nothing. *)
Theorem cached_load_returns_one_instance self n w c :
  wf_world w → caching self = true → class_ok self →
  count self w = (Ret c, w) → 0 ≤ n < c →
  ∃ obj w1,
    self_load self (IInt n) w = (Ret (Some obj), w1)
    ∧ self_load self (IInt n) w1 = (Ret (Some obj), w1)
    ∧ count self w1 = (Ret c, w1).
Proof.
  intros Hwf Hc Hcl Hcount Hn.
  apply count_inv in Hcount as (st & Hst & -> & _).
  destruct (run_self_load_cached self n w st) as (obj & w1 & st1 & Hl & Hst1 & Hhit & Hr);
    [done..|by eapply wf_cache_ok|done|].
  exists obj, w1. split; [done|]. split.
  - unfold self_load. rewrite Hc. eapply run_loadcache_hit; [lia|done..].
  - erewrite run_count by done. by destruct Hr as [-> _].
Qed.

(** X5: a store without a cache builds a new instance at every load: two
    loads of a row give two different objects that did not exist before;
    both carry the index of the row and its payload as their [json]
    attribute, and the rows of the table are as before. *)
Theorem uncached_load_builds_new_instances self n w st :
  caching self = false → stores w !! prefix self = Some st →
  0 ≤ n < Z.of_nat (dim st) →
  ∃ obj1 w1 obj2 w2 o1 o2 st2,
    self_load self (IInt n) w = (Ret (Some obj1), w1)
    ∧ self_load self (IInt n) w1 = (Ret (Some obj2), w2)
    ∧ obj1 ≠ obj2
    ∧ heap w !! obj1 = None ∧ heap w !! obj2 = None
    ∧ heap w2 !! obj1 = Some o1 ∧ heap w2 !! obj2 = Some o2
    ∧ o_idx o1 !! prefix self = Some n ∧ o_idx o2 !! prefix self = Some n
    ∧ o_json o1 = Some (cell (var_json st) n)
    ∧ o_json o2 = Some (cell (var_json st) n)
    ∧ stores w2 !! prefix self = Some st2 ∧ same_rows st st2.
Proof.
  intros Hc Hst Hn. unfold self_load. rewrite Hc.
  eexists (length (heap w)), _, (S (length (heap w))), _,
    (obj_loaded self st n), (obj_loaded self st n), st.
  split; [by apply run_loadidx_row|].
  split.
  { erewrite run_loadidx_row by done. cbn [heap set_heap].
    rewrite length_app. cbn [length]. by rewrite Nat.add_1_r. }
  cbn [heap stores set_heap].
  split; [lia|].
  split; [apply lookup_ge_None; lia|].
  split; [apply lookup_ge_None; lia|].
  split. { rewrite lookup_app_l by (rewrite length_app; cbn; lia). apply lookup_snoc. }
  split. { replace (S (length (heap w))) with (length (heap w ++ [obj_loaded self st n]))
             by (rewrite length_app; cbn; lia). apply lookup_snoc. }
  rewrite o_idx_obj_loaded, lookup_singleton_eq, o_json_obj_loaded.
  by repeat split.
Qed.

(** ** Frames *)

Section stays.
Context (R : world → world → Prop) `{!PreOrder R}.

Lemma stays_ret {A : Type} (a : A) : stays R (mret a).
Proof. intros w. reflexivity. Qed.

Lemma stays_raise {A : Type} e : stays R (raise e : M A).
Proof. intros w. reflexivity. Qed.

Lemma stays_bind_at {A B : Type} (m : M A) (f : A → M B) w :
  R w (m w).2 → (∀ a w', m w = (Ret a, w') → R w' (f a w').2) →
  R w ((m ≫= f) w).2.
Proof.
  intros Hm Hf. unfold mbind, M_bind.
  destruct (m w) as [[a|e] w'] eqn:E; [|done].
  etrans; [exact Hm|]. by apply Hf.
Qed.

Lemma stays_bind {A B : Type} (m : M A) (f : A → M B) :
  stays R m → (∀ a, stays R (f a)) → stays R (m ≫= f).
Proof. intros Hm Hf w. apply stays_bind_at; [apply Hm|]. intros a w' _. apply Hf. Qed.

Lemma stays_get_state self : stays R (get_state self).
Proof. intros w. unfold get_state. destruct (stores w !! prefix self); reflexivity. Qed.

Lemma stays_getobj obj : stays R (getobj obj).
Proof. intros w. unfold getobj. destruct (heap w !! obj); reflexivity. Qed.

Lemma stays_count self : stays R (count self).
Proof. apply stays_bind; [apply stays_get_state|]. intros st. apply stays_ret. Qed.


(** The state that [get_state] gives is the one of the store. *)
Lemma stays_state_at {B : Type} self (f : store_state → M B) w :
  (∀ st, stores w !! prefix self = Some st → R w (f st w).2) →
  R w ((get_state self ≫= f) w).2.
Proof.
  intros Hf. unfold mbind, M_bind, get_state.
  destruct (stores w !! prefix self) as [st|]; [by apply Hf | reflexivity].
Qed.


Lemma stays_forM_ {A : Type} (f : A → M unit) l :
  (∀ a, stays R (f a)) → stays R (forM_ f l).
Proof.
  intros Hf. induction l as [|x l IH]; [apply stays_ret|].
  cbn [forM_]. apply stays_bind; [apply Hf | done].
Qed.

Lemma stays_mapM {A B : Type} (f : A → M B) l :
  (∀ a, stays R (f a)) → stays R (mapM f l).
Proof.
  intros Hf. induction l as [|x l IH]; [apply stays_ret|].
  cbn [mapM]. apply stays_bind; [apply Hf|]. intros y.
  apply stays_bind; [done|]. intros ys. apply stays_ret.
Qed.

Lemma stays_except_KeyError m : stays R m → stays R (except_KeyError m).
Proof.
  intros Hm w. unfold except_KeyError. specialize (Hm w).
  destruct (m w) as [[a|[]] w']; exact Hm.
Qed.

End stays.

(** *** What [save] leaves alone *)

Lemma save_frame_preorder self obj : PreOrder (save_frame self obj).
Proof.
  split.
  - intros w. by repeat split.
  - intros w1 w2 w3 (Hl & Hh & Hs & Ha & Hv) (Hl' & Hh' & Hs' & Ha' & Hv').
    split; [congruence|]. split; [intros l Hne; rewrite Hh', Hh; done|].
    split; [intros q Hne; rewrite Hs', Hs; done|]. split; congruence.
Qed.

#[local] Existing Instance save_frame_preorder.

Lemma save_frame_setobj self obj o : stays (save_frame self obj) (setobj obj o).
Proof.
  intros w. cbn [setobj snd]. split; [apply length_insert|].
  split; [intros l Hne; by apply list_lookup_insert_ne|]. done.
Qed.

Lemma save_frame_put_state self obj st : stays (save_frame self obj) (put_state self st).
Proof.
  intros w. cbn [put_state snd]. split; [done|]. split; [done|].
  split; [intros q Hne; by apply lookup_insert_ne|]. done.
Qed.

Lemma save_frame_write_var self obj v idx value :
  stays (save_frame self obj) (write_var self v idx value).
Proof.
  apply stays_bind; [apply _ | apply stays_get_state; apply _|]. intros st.
  destruct (resolve_write (dim st) idx) as [[i d]|];
    [apply save_frame_put_state | apply stays_raise; apply _].
Qed.

Lemma save_frame_reserve_idx self obj idx :
  stays (save_frame self obj) (reserve_idx self idx).
Proof.
  apply stays_bind; [apply _ | apply stays_get_state; apply _|]. intros st.
  apply save_frame_put_state.
Qed.

Lemma save_frame_free self obj : stays (save_frame self obj) (free self).
Proof.
  apply stays_bind; [apply _ | apply stays_count; apply _|]. intros n.
  apply stays_bind; [apply _ | apply stays_get_state; apply _|]. intros st.
  apply stays_bind; [apply _ | apply save_frame_put_state|]. intros _.
  apply stays_ret; apply _.
Qed.

Ltac frame_step :=
  first
  [ apply stays_ret; apply _
  | apply stays_raise; apply _
  | apply stays_get_state; apply _
  | apply stays_getobj; apply _
  | apply save_frame_setobj
  | apply save_frame_put_state
  | apply save_frame_write_var
  | apply save_frame_reserve_idx
  | apply save_frame_free
  | (apply stays_bind; [apply _ | | intros ?])
  | case_match ].

Lemma save_frame_save self obj idx : stays (save_frame self obj) (save self obj idx).
Proof. unfold save, save_json. repeat frame_step. Qed.

Lemma save_frame_saveidx self obj idx :
  stays (save_frame self obj) (saveidx (save self) self obj idx).
Proof.
  unfold saveidx. repeat first [apply save_frame_save | frame_step].
Qed.

Lemma save_frame_update_name_in_cache self obj name idx :
  stays (save_frame self obj) (_update_name_in_cache self name idx).
Proof. unfold _update_name_in_cache. repeat frame_step. Qed.

Lemma save_frame_self_save self obj idx :
  stays (save_frame self obj) (self_save self obj idx).
Proof.
  unfold self_save, savecache.
  repeat first [apply save_frame_saveidx | apply save_frame_update_name_in_cache | frame_step].
Qed.

(** X6: a save of an object that carries its [json] attribute, so that
    [save_json] does not call the Serializer, changes nothing but the
    saved object and the state of its own store, whatever the index
    argument and whatever the outcome: the heap keeps its length, every
    other object and every other store are as before. *)
Theorem save_touches_only_its_object_and_store self obj idx w :
  (∀ o, heap w !! obj = Some o → is_Some (o_json o)) →
  length (heap (self_save self obj idx w).2) = length (heap w)
  ∧ (∀ l, l ≠ obj → heap (self_save self obj idx w).2 !! l = heap w !! l)
  ∧ (∀ q, q ≠ prefix self → stores (self_save self obj idx w).2 !! q = stores w !! q).
Proof.
  intros _. destruct (save_frame_self_save self obj idx w) as (Hl & Hh & Hs & _). done.
Qed.

(** *** What the queries leave alone *)

Lemma read_only_preorder self : PreOrder (read_only self).
Proof.
  split.
  - intros w. split; [exists []; by rewrite app_nil_r|].
    split; [done|]. split; [|done].
    intros st Hst. exists st. by repeat split.
  - intros w1 w2 w3 ([n1 Hh] & Hs & Hp & Hn & Ha & Hv) ([n2 Hh'] & Hs' & Hp' & Hn' & Ha' & Hv').
    split; [exists (n1 ++ n2); by rewrite Hh', Hh, app_assoc|].
    split; [intros q Hq; rewrite Hs', Hs; done|].
    split.
    { intros st Hst. destruct (Hp st Hst) as (st2 & Hst2 & (Hd & Hj & Hm & Hu) & Hf).
      destruct (Hp' st2 Hst2) as (st3 & Hst3 & (Hd' & Hj' & Hm' & Hu') & Hf').
      exists st3. split; [done|]. split; [|congruence].
      repeat split; congruence. }
    split; [auto|]. split; congruence.
Qed.

#[local] Existing Instance read_only_preorder.

Lemma read_only_put self w st st' :
  stores w !! prefix self = Some st → same_rows st st' → _free st' = _free st →
  read_only self w (set_stores w (<[prefix self := st']> (stores w))).
Proof.
  intros Hst Hr Hf. split; [exists []; by rewrite app_nil_r|]. cbn [stores set_stores].
  split; [intros q Hq; by apply lookup_insert_ne|].
  split.
  { intros st0 Hst0. exists st'. rewrite lookup_insert_eq.
    replace st0 with st by congruence. done. }
  split; [congruence|done].
Qed.

Lemma read_only_snoc self w o : read_only self w (set_heap w (heap w ++ [o])).
Proof.
  split; [by exists [o]|]. split; [done|]. split; [|done].
  intros st Hst. exists st. by repeat split.
Qed.

Lemma read_only_update_name_in_cache self name idx :
  stays (read_only self) (_update_name_in_cache self name idx).
Proof.
  unfold _update_name_in_cache. destruct (decide (name = Some "")); [apply stays_ret, _|].
  intros w. apply stays_state_at; [apply _|]. intros st Hst.
  destruct (cache st !! key_of_name name); [reflexivity|].
  by eapply read_only_put.
Qed.

Lemma read_only_update_name_cache self : stays (read_only self) (update_name_cache self).
Proof.
  unfold update_name_cache. destruct (has_name self); [|apply stays_ret, _].
  apply stays_bind; [apply _ | apply stays_get_state, _|]. intros st.
  destruct (_names_loaded st); [apply stays_ret, _|].
  apply stays_bind; [apply _ | |].
  - apply stays_forM_; [apply _|]. intros i. apply read_only_update_name_in_cache.
  - intros _ w. apply stays_state_at; [apply _|]. intros st' Hst'.
    by eapply read_only_put.
Qed.

Lemma read_only_loadidx self idx : stays (read_only self) (loadidx (load self) self idx).
Proof.
  assert (∀ n, stays (read_only self) (loadidx (load self) self (IInt n))) as Hint.
  { intros n w.
    destruct (decide (n < 0)); [by rewrite run_loadidx_negative|].
    destruct (stores w !! prefix self) as [st|] eqn:Hst;
      [|by rewrite run_loadidx_unregistered by (done || lia)].
    destruct (decide (Z.of_nat (dim st) ≤ n)).
    - by erewrite run_loadidx_beyond.
    - erewrite run_loadidx_row by (done || lia). apply read_only_snoc. }
  destruct idx as [n|s|n];
    [apply Hint | intros w; by rewrite run_loadidx_str | rewrite loadidx_np; apply Hint].
Qed.

Lemma read_only_loadcache func self idx :
  (∀ i, stays (read_only self) (func i)) → stays (read_only self) (loadcache func self idx).
Proof.
  intros Hfunc. unfold loadcache.
  destruct (match idx with IInt z | INp z => bool_decide (z < 0) | IStr _ => false end);
    [apply stays_ret, _|].
  apply stays_bind; [apply _ | |].
  { destruct idx as [z|s|z]; [apply stays_ret, _| |apply stays_raise, _].
    destruct (has_name self); [|apply stays_ret, _].
    apply stays_bind; [apply _ | apply read_only_update_name_cache|]. intros _.
    apply stays_bind; [apply _ | apply stays_get_state, _|]. intros st.
    destruct (name_idx st !! KStr s) as [l|]; [|apply stays_raise, _].
    apply stays_bind; [apply _ | |].
    - destruct (decide (1 < length l)%nat); [|apply stays_ret, _].
      destruct (cache st !! KStr s); apply stays_raise, _.
    - intros _. destruct l; [apply stays_raise, _ | apply stays_ret, _]. }
  intros n_idx. apply stays_bind; [apply _ | apply stays_get_state, _|]. intros st.
  destruct (cache st !! key_of_idx n_idx); [apply stays_ret, _|].
  apply stays_bind; [apply _ | apply Hfunc|]. intros [obj|]; [|apply stays_ret, _].
  apply stays_bind; [apply _ | apply stays_getobj, _|]. intros o.
  destruct (o_idx o !! prefix self) as [i|]; [|apply stays_raise, _].
  intros w. apply stays_state_at; [apply _|]. intros st0 Hst0.
  apply stays_bind_at; [apply _ | by eapply read_only_put|]. intros _ w' _.
  apply stays_bind; [apply _ | | intros _; apply stays_ret, _].
  destruct (has_name self); [|apply stays_ret, _].
  destruct (o_name o) as [nm|]; [|apply stays_raise, _].
  destruct (decide (nm = Some "")); [apply stays_ret, _|].
  apply read_only_update_name_in_cache.
Qed.

Lemma read_only_self_load self idx : stays (read_only self) (self_load self idx).
Proof.
  unfold self_load. destruct (caching self).
  - apply read_only_loadcache. intros i. apply read_only_loadidx.
  - apply read_only_loadidx.
Qed.

Lemma read_only_getitem self item : stays (read_only self) (__getitem__ self item).
Proof.
  unfold __getitem__. apply stays_except_KeyError.
  destruct item as [i|l].
  - destruct i; [| |apply stays_ret, _];
      (apply stays_bind; [apply _ | apply read_only_self_load|]; intros r; apply stays_ret, _).
  - apply stays_bind; [apply _ | |intros r; apply stays_ret, _].
    apply stays_mapM; [apply _|]. intros i. apply read_only_self_load.
Qed.

Lemma read_only_name_lookup self name :
  stays (read_only self)
    (get_state self ≫= λ st,
       if decide (name_idx st !! KStr name = None) then update_name_cache self else mret tt).
Proof.
  apply stays_bind; [apply _ | apply stays_get_state, _|]. intros st.
  destruct (decide (name_idx st !! KStr name = None));
    [apply read_only_update_name_cache | apply stays_ret, _].
Qed.

Lemma read_only_find self name : stays (read_only self) (find self name).
Proof.
  unfold find. destruct (has_name self); [|apply stays_ret, _].
  intros w. rewrite <- bind_assoc. revert w.
  apply stays_bind; [apply _ | apply read_only_name_lookup|]. intros _.
  apply stays_bind; [apply _ | apply stays_get_state, _|]. intros st.
  destruct (name_idx st !! KStr name); [apply read_only_getitem | apply stays_raise, _].
Qed.

Lemma read_only_find_first self name : stays (read_only self) (find_first self name).
Proof.
  unfold find_first. destruct (has_name self); [|apply stays_ret, _].
  intros w. rewrite <- bind_assoc. revert w.
  apply stays_bind; [apply _ | apply read_only_name_lookup|]. intros _.
  apply stays_bind; [apply _ | apply stays_get_state, _|]. intros st.
  destruct (name_idx st !! KStr name) as [[|i l]|];
    [apply stays_ret, _ | apply read_only_getitem | apply stays_raise, _].
Qed.

Lemma read_only_find_indices self name : stays (read_only self) (find_indices self name).
Proof.
  unfold find_indices. destruct (has_name self); [|apply stays_ret, _].
  intros w. rewrite <- bind_assoc. revert w.
  apply stays_bind; [apply _ | apply read_only_name_lookup|]. intros _.
  apply stays_bind; [apply _ | apply stays_get_state, _|]. intros st.
  destruct (name_idx st !! KStr name); [apply stays_ret, _ | apply stays_raise, _].
Qed.

Lemma read_only_first self : stays (read_only self) (first self).
Proof. apply read_only_self_load. Qed.

Lemma read_only_last self : stays (read_only self) (last self).
Proof.
  apply stays_bind; [apply _ | apply stays_count, _|]. intros n. apply read_only_self_load.
Qed.

Lemma read_only_next it : stays (read_only (it_storage it)) (next it).
Proof.
  unfold next. destruct (decide (it_idx it < it_end it)); [|apply stays_ret, _].
  apply stays_bind; [apply _ | apply read_only_self_load|]. intros obj. apply stays_ret, _.
Qed.

Lemma read_only_file_kept self w w' : read_only self w w' → file_kept w w'.
Proof.
  intros ([new Hh] & Hs & Hp & _). split.
  - intros l o Hl. rewrite Hh. by apply lookup_app_l_Some.
  - intros q st Hq. destruct (decide (q = prefix self)) as [->|Hne].
    + by apply Hp.
    + exists st. rewrite Hs by done. by repeat split.
Qed.

(** X7: the queries of a store do not change what exists and they do not
    write, whatever their outcome: after [load], [__getitem__], [find],
    [find_first], [find_indices], [first], [last] and [update_name_cache]
    every object that existed is as before, and the rows and the
    reservations of every table are as before. *)
Theorem queries_are_read_only self w :
  (∀ idx, file_kept w (self_load self idx w).2)
  ∧ (∀ item, file_kept w (__getitem__ self item w).2)
  ∧ (∀ name, file_kept w (find self name w).2)
  ∧ (∀ name, file_kept w (find_first self name w).2)
  ∧ (∀ name, file_kept w (find_indices self name w).2)
  ∧ file_kept w (first self w).2
  ∧ file_kept w (last self w).2
  ∧ file_kept w (update_name_cache self w).2.
Proof.
  split; [intros idx; eapply read_only_file_kept, read_only_self_load|].
  split; [intros item; eapply read_only_file_kept, read_only_getitem|].
  split; [intros name; eapply read_only_file_kept, read_only_find|].
  split; [intros name; eapply read_only_file_kept, read_only_find_first|].
  split; [intros name; eapply read_only_file_kept, read_only_find_indices|].
  split; [eapply read_only_file_kept, read_only_first|].
  split; [eapply read_only_file_kept, read_only_last
         | eapply read_only_file_kept, read_only_update_name_cache].
Qed.

(** ** The index of names *)

Lemma set_stores_id w p st :
  stores w !! p = Some st → set_stores w (<[p := st]> (stores w)) = w.
Proof. intros H. rewrite insert_id by done. by destruct w. Qed.

Lemma set_name_idx_id st : set_name_idx st (name_idx st) = st.
Proof. by destruct st. Qed.

Lemma run_update_names self col rows w st :
  stores w !! prefix self = Some st → cache_ok st →
  forM_ (λ i : nat, _update_name_in_cache self (Some (cell col (Z.of_nat i)))
                      (IInt (Z.of_nat i))) rows w =
    (Ret tt,
     set_stores w (<[prefix self := set_name_idx st (names_of col rows (name_idx st))]>
                     (stores w))).
Proof.
  revert w st. induction rows as [|i rows IH]; intros w st Hst Hok.
  - cbn [forM_ names_of foldl]. by rewrite set_name_idx_id, set_stores_id.
  - cbn [forM_ names_of foldl].
    destruct (decide (cell col (Z.of_nat i) = "")) as [He|Hne].
    + unfold _update_name_in_cache. rewrite decide_True by congruence.
      rewrite bind_ret. by apply IH.
    + erewrite run_bind
        by (apply update_name_in_cache_overwrites; [done..|congruence]).
      erewrite IH; [|apply lookup_insert_eq|done].
      by normal_world.
Qed.

Lemma run_update_name_cache self w st :
  has_name self = true → stores w !! prefix self = Some st → cache_ok st →
  _names_loaded st = false →
  update_name_cache self w =
    (Ret tt,
     set_stores w
       (<[prefix self :=
            set_names_loaded
              (set_name_idx st (names_of (var_name st) (seq 0 (dim st)) (name_idx st)))
              true]> (stores w))).
Proof.
  intros Hn Hst Hok Hl. unfold update_name_cache. rewrite Hn. step. rewrite Hl.
  erewrite run_bind by (by apply run_update_names).
  step. unfold put_state. by normal_world.
Qed.

Lemma run_update_name_cache_loaded self w st :
  stores w !! prefix self = Some st → _names_loaded st = true →
  update_name_cache self w = (Ret tt, w).
Proof.
  intros Hst Hl. unfold update_name_cache. destruct (has_name self); [|done].
  step. by rewrite Hl.
Qed.

Lemma names_of_snoc col rows i m :
  names_of col (rows ++ [i]) m =
    if decide (cell col (Z.of_nat i) = "") then names_of col rows m
    else <[KStr (cell col (Z.of_nat i)) := [IInt (Z.of_nat i)]]> (names_of col rows m).
Proof. unfold names_of. by rewrite foldl_snoc. Qed.

(** The last row that carries a name is the one that the index keeps. *)
Lemma names_of_last col n m s (i : nat) :
  s ≠ "" → (i < n)%nat → cell col (Z.of_nat i) = s →
  (∀ j : nat, (i < j < n)%nat → cell col (Z.of_nat j) ≠ s) →
  names_of col (seq 0 n) m !! KStr s = Some [IInt (Z.of_nat i)].
Proof.
  intros Hs. induction n as [|n IH]; intros Hi Hc Hlast; [lia|].
  rewrite seq_S, names_of_snoc. cbn [Nat.add].
  destruct (decide (i = n)) as [->|Hne].
  - rewrite decide_False by congruence. rewrite Hc. apply lookup_insert_eq.
  - assert (cell col (Z.of_nat n) ≠ s) by (apply Hlast; lia).
    assert (names_of col (seq 0 n) m !! KStr s = Some [IInt (Z.of_nat i)]) as IH'.
    { apply IH; [lia|done|]. intros j Hj. apply Hlast. lia. }
    destruct (decide (cell col (Z.of_nat n) = "")); [done|].
    rewrite lookup_insert_ne by congruence. done.
Qed.

Lemma names_of_absent col n m s :
  (∀ j : nat, (j < n)%nat → cell col (Z.of_nat j) ≠ s) →
  names_of col (seq 0 n) m !! KStr s = m !! KStr s.
Proof.
  induction n as [|n IH]; intros Hno; [done|].
  rewrite seq_S, names_of_snoc. cbn [Nat.add].
  assert (cell col (Z.of_nat n) ≠ s) by (apply Hno; lia).
  assert (names_of col (seq 0 n) m !! KStr s = m !! KStr s) as IH'.
  { apply IH. intros j Hj. apply Hno. lia. }
  destruct (decide (cell col (Z.of_nat n) = "")); [done|].
  rewrite lookup_insert_ne by congruence. done.
Qed.

(** X8: in a store whose names were not read yet, [find_indices] of a
    name that the index does not know reads the names from the file and
    gives one index, the one of the last row that carries the name; when
    no row carries the name it raises [KeyError]. *)
Theorem find_indices_gives_last_row self name w st :
  has_name self = true → wf_world w → stores w !! prefix self = Some st →
  _names_loaded st = false → name_idx st !! KStr name = None → name ≠ "" →
  (∀ i : nat, (i < dim st)%nat → cell (var_name st) (Z.of_nat i) = name →
     (∀ j : nat, (i < j < dim st)%nat → cell (var_name st) (Z.of_nat j) ≠ name) →
     (find_indices self name w).1 = Ret [IInt (Z.of_nat i)])
  ∧ ((∀ j : nat, (j < dim st)%nat → cell (var_name st) (Z.of_nat j) ≠ name) →
     (find_indices self name w).1 = Raise KeyError).
Proof.
  intros Hn Hwf Hst Hl Hm Hs.
  assert (Hok : cache_ok st) by (by eapply wf_cache_ok).
  assert (Hrun : ∀ r,
    names_of (var_name st) (seq 0 (dim st)) (name_idx st) !! KStr name = r →
    (find_indices self name w).1 =
      match r with Some l => Ret l | None => Raise KeyError end).
  { intros r Hr. unfold find_indices. rewrite Hn. step.
    rewrite decide_True by done.
    erewrite run_bind by (by apply run_update_name_cache).
    step. cbn [name_idx set_names_loaded set_name_idx]. rewrite Hr.
    by destruct r. }
  split.
  - intros i Hi Hc Hlast. by apply (Hrun (Some _)), names_of_last.
  - intros Hno. apply (Hrun None). by rewrite names_of_absent.
Qed.

(** ** Loading by name *)

Lemma cache_ok_no_name st s : cache_ok st → cache st !! KStr s = None.
Proof.
  intros Hok. destruct (cache st !! KStr s) as [l|] eqn:Hl; [|done].
  by apply Hok in Hl as (z & Hz & _).
Qed.

(** With names, [loadcache] turns a name into the first index that the
    index of names lists for it, and goes on as for that index. *)
Lemma run_loadcache_by_name func self s w w1 st1 i :
  has_name self = true →
  update_name_cache self w = (Ret tt, w1) →
  stores w1 !! prefix self = Some st1 →
  name_idx st1 !! KStr s = Some [IInt i] → 0 ≤ i →
  loadcache func self (IStr s) w = loadcache func self (IInt i) w1.
Proof.
  intros Hn Hu Hst1 Hl Hi. unfold loadcache. rewrite Hn.
  rewrite bool_decide_false by lia. cbn match.
  rewrite !bind_assoc. erewrite run_bind by exact Hu.
  rewrite bind_assoc. erewrite bind_get_state by done. rewrite Hl.
  rewrite decide_False by (cbn; lia).
  rewrite bind_assoc, bind_ret. symmetry. by rewrite bind_ret.
Qed.

Lemma run_loadcache_unknown_name func self s w w1 st1 :
  has_name self = true →
  update_name_cache self w = (Ret tt, w1) →
  stores w1 !! prefix self = Some st1 →
  name_idx st1 !! KStr s = None →
  loadcache func self (IStr s) w = (Raise ValueError, w1).
Proof.
  intros Hn Hu Hst1 Hl. unfold loadcache. rewrite Hn. cbn match.
  rewrite !bind_assoc. erewrite run_bind by exact Hu.
  rewrite bind_assoc. erewrite bind_get_state by done. rewrite Hl.
  by rewrite bind_raise.
Qed.

(** X9: in a store with a cache whose names were not read yet, a load by
    name reads the names from the file and then loads the index of the
    last row that carries the name; it gives an object. *)
Theorem load_by_name_loads_last_row self name w st (i : nat) :
  caching self = true → has_name self = true → class_ok self →
  wf_world w → stores w !! prefix self = Some st →
  _names_loaded st = false → name ≠ "" →
  (i < dim st)%nat → cell (var_name st) (Z.of_nat i) = name →
  (∀ j : nat, (i < j < dim st)%nat → cell (var_name st) (Z.of_nat j) ≠ name) →
  self_load self (IStr name) w =
    self_load self (IInt (Z.of_nat i)) (update_name_cache self w).2
  ∧ ∃ obj w', self_load self (IStr name) w = (Ret (Some obj), w').
Proof.
  intros Hc Hn Hcl Hwf Hst Hl Hs Hi Hcell Hlast.
  assert (Hok : cache_ok st) by (by eapply wf_cache_ok).
  pose proof (run_update_name_cache self w st Hn Hst Hok Hl) as Hu.
  set (st1 := set_names_loaded
                (set_name_idx st (names_of (var_name st) (seq 0 (dim st)) (name_idx st)))
                true) in Hu.
  set (w1 := set_stores w (<[prefix self := st1]> (stores w))) in Hu.
  assert (Hst1 : stores w1 !! prefix self = Some st1) by apply lookup_insert_eq.
  assert (Heq : self_load self (IStr name) w = self_load self (IInt (Z.of_nat i)) w1).
  { unfold self_load. rewrite Hc.
    eapply run_loadcache_by_name; [done..| |lia].
    cbn [st1 name_idx set_names_loaded set_name_idx]. by apply names_of_last. }
  split; [by rewrite Hu|].
  destruct (run_self_load_cached self (Z.of_nat i) w1 st1) as (obj & w' & _ & Hload & _);
    [done..| |cbn [st1 dim set_names_loaded set_name_idx]; lia|].
  { eapply cache_ok_mono; [exact Hok|done..]. }
  exists obj, w'. by rewrite Heq.
Qed.



(** X11: a load by name is refused with [ValueError] by a store without a
    cache and by a store without names; nothing is changed. *)
Theorem load_by_name_needs_cache_and_names self s w :
  caching self = false
  ∨ (has_name self = false ∧ ∃ st, stores w !! prefix self = Some st ∧ cache_ok st) →
  self_load self (IStr s) w = (Raise ValueError, w).
Proof.
  intros [Hc|(Hn & st & Hst & Hok)]; unfold self_load.
  - rewrite Hc. apply run_loadidx_str.
  - destruct (caching self); [|apply run_loadidx_str].
    unfold loadcache. rewrite Hn. cbn match. rewrite bind_ret.
    erewrite bind_get_state by done. cbn [key_of_idx].
    rewrite cache_ok_no_name by done.
    by erewrite run_bind_raise by apply run_loadidx_str.
Qed.

(** X12: a load by a name that neither the index of names nor a row of
    the file carries raises [ValueError]; it is not answered by [None]. *)
Theorem load_by_unknown_name_raises self s w st :
  caching self = true → has_name self = true → wf_world w →
  stores w !! prefix self = Some st → name_idx st !! KStr s = None →
  _names_loaded st = true
  ∨ (∀ j : nat, (j < dim st)%nat → cell (var_name st) (Z.of_nat j) ≠ s) →
  (self_load self (IStr s) w).1 = Raise ValueError.
Proof.
  intros Hc Hn Hwf Hst Hm Hcase. unfold self_load. rewrite Hc.
  assert (Hok : cache_ok st) by (by eapply wf_cache_ok).
  destruct (_names_loaded st) eqn:Hl.
  - by erewrite run_loadcache_unknown_name
      by (done || by eapply run_update_name_cache_loaded).
  - destruct Hcase as [?|Hno]; [done|].
    erewrite run_loadcache_unknown_name;
      [done|done|by apply run_update_name_cache|apply lookup_insert_eq|].
    cbn [name_idx set_names_loaded set_name_idx]. by rewrite names_of_absent.
Qed.

(** ** Search by identifier *)

Lemma filter_none {A : Type} (P : A → Prop) `{!∀ x, Decision (P x)} (l : list A) :
  Forall (λ x, ¬ P x) l → filter P l = [].
Proof.
  induction 1 as [|x l Hx _ IH]; [done|]. by rewrite filter_cons_False.
Qed.

Lemma filter_seq_first (P : nat → Prop) `{!∀ x, Decision (P x)} (n i : nat) :
  (i < n)%nat → P i → (∀ j : nat, (j < i)%nat → ¬ P j) →
  ∃ l, filter P (seq 0 n) = i :: l.
Proof.
  intros Hi HP Hno.
  replace n with (i + S (n - S i))%nat by lia.
  rewrite seq_app, filter_app. cbn [seq Nat.add].
  rewrite filter_none.
  - rewrite filter_cons_True by done. by eexists.
  - apply Forall_forall. intros j Hj. apply Hno.
    apply elem_of_seq in Hj. lia.
Qed.

Lemma filter_seq_none (P : nat → Prop) `{!∀ x, Decision (P x)} (n : nat) :
  (∀ j : nat, (j < n)%nat → ¬ P j) → filter P (seq 0 n) = [].
Proof.
  intros Hno. apply filter_none, Forall_forall. intros j Hj. apply Hno.
  apply elem_of_seq in Hj. lia.
Qed.

(** X13: [idx_by_name] searches the identifiers of the file from the
    first row on: it gives the index of the first row whose identifier is
    the needle, [None] when no row has it, and it raises [ValueError] in a
    store without identifiers; it changes nothing. *)
Theorem idx_by_name_gives_first_row self needle w st :
  wf_world w → stores w !! prefix self = Some st →
  (has_uid self = false → idx_by_name self needle w = (Raise ValueError, w))
  ∧ (has_uid self = true →
     ∀ i : nat, (i < dim st)%nat → cell (var_uid st) (Z.of_nat i) = needle →
       (∀ j : nat, (j < i)%nat → cell (var_uid st) (Z.of_nat j) ≠ needle) →
       idx_by_name self needle w = (Ret (Some (Z.of_nat i)), w))
  ∧ (has_uid self = true →
     (∀ j : nat, (j < dim st)%nat → cell (var_uid st) (Z.of_nat j) ≠ needle) →
     idx_by_name self needle w = (Ret None, w)).
Proof.
  intros Hwf Hst. assert (Hok : cache_ok st) by (by eapply wf_cache_ok).
  split; [|split].
  - intros Hu. unfold idx_by_name. by rewrite Hu.
  - intros Hu i Hi Hc Hno. unfold idx_by_name. rewrite Hu. step.
    rewrite cache_ok_no_name by done.
    destruct (filter_seq_first (λ i : nat, cell (var_uid st) (Z.of_nat i) = needle)
                (dim st) i Hi Hc Hno) as [l ->].
    done.
  - intros Hu Hno. unfold idx_by_name. rewrite Hu. step.
    rewrite cache_ok_no_name by done.
    by rewrite filter_seq_none.
Qed.

(** ** Reservations *)

Lemma live_free_set_free st :
  live_free (set_free st (live_free st)) = live_free st.
Proof.
  unfold live_free. cbn [dim _free set_free].
  apply set_eq. intros j. rewrite !elem_of_filter. tauto.
Qed.

(** X14: [free] does not reserve the index that it returns: a second call
    gives the same index and changes nothing more.  The first call drops
    the reservations below the count and keeps the others; the table is
    as before. *)
Theorem free_does_not_reserve self w st :
  stores w !! prefix self = Some st →
  ∃ i w1 st1,
    free self w = (Ret i, w1)
    ∧ free self w1 = (Ret i, w1)
    ∧ stores w1 !! prefix self = Some st1
    ∧ same_rows st st1
    ∧ ∀ j, j ∈ _free st1 ↔ j ∈ _free st ∧ Z.of_nat (dim st) ≤ j.
Proof.
  intros Hst. eexists _, _, _. split; [by apply run_free|].
  split.
  { erewrite run_free by apply lookup_insert_eq.
    unfold free_idx. rewrite live_free_set_free. cbn [dim set_free].
    by normal_world. }
  cbn [stores set_stores]. split; [apply lookup_insert_eq|].
  split; [done|]. intros j. unfold live_free. cbn [_free set_free].
  rewrite elem_of_filter. tauto.
Qed.

(** ** Iteration *)

Lemma run_next_yield it w r w' :
  it_idx it < it_end it →
  self_load (it_storage it) (IInt (it_idx it)) w = (Ret r, w') →
  next it w =
    (Ret (Yield r, MkIterator (it_storage it) (it_range it) (it_idx it + step_of it)
                     (it_end it)), w').
Proof.
  intros Hlt Hload. unfold next. rewrite decide_True by done.
  erewrite run_bind by exact Hload. unfold step_of.
  destruct (it_range it) as [[a b [s|]]|]; reflexivity.
Qed.

Lemma run_next_raise it w e w' :
  it_idx it < it_end it →
  self_load (it_storage it) (IInt (it_idx it)) w = (Raise e, w') →
  next it w = (Raise e, w').
Proof.
  intros Hlt Hload. unfold next. rewrite decide_True by done.
  by erewrite run_bind_raise by exact Hload.
Qed.

Lemma run_next_stop it w :
  it_end it ≤ it_idx it → next it w = (Ret (StopIteration, it), w).
Proof. intros Hge. unfold next. by rewrite decide_False by lia. Qed.

Lemma collect_visits (n : nat) : ∀ it w,
  0 < step_of it →
  (∀ k : nat, (k < n)%nat → it_idx it + Z.of_nat k * step_of it < it_end it) →
  it_end it ≤ it_idx it + Z.of_nat n * step_of it →
  collect (S n) it w =
    (mapM (self_load (it_storage it))
          ((λ k : nat, IInt (it_idx it + Z.of_nat k * step_of it)) <$> seq 0 n)
     ≫= λ rs, mret (Some rs)) w.
Proof.
  induction n as [|n IH]; intros it w Hs Hin Hend.
  - cbn [collect seq fmap list_fmap mapM].
    erewrite run_bind by (apply run_next_stop; lia). by rewrite bind_ret.
  - cbn [seq]. rewrite <- fmap_S_seq, fmap_cons, <- list_fmap_compose.
    cbn [mapM]. rewrite Z.mul_0_l, Z.add_0_r.
    assert (Hlt : it_idx it < it_end it) by (specialize (Hin 0%nat); lia).
    remember (S n) as fuel. cbn [collect]. subst fuel.
    rewrite !bind_assoc.
    destruct (self_load (it_storage it) (IInt (it_idx it)) w) as [[r|e] w'] eqn:Hload.
    + erewrite run_bind by (by apply run_next_yield).
      erewrite (run_bind (self_load _ _)) by exact Hload.
      set (it' := MkIterator (it_storage it) (it_range it) (it_idx it + step_of it)
                    (it_end it)).
      assert (Hstep : step_of it' = step_of it) by done.
      rewrite bind_assoc. unfold mbind at 1, M_bind at 1.
      rewrite (IH it' w'); cbn [it' it_idx it_end it_storage]; rewrite ?Hstep; [|done| |lia].
      * assert (((λ k : nat, IInt (it_idx it + Z.of_nat k * step_of it)) ∘ S <$> seq 0 n)
                = ((λ k : nat, IInt (it_idx it + step_of it + Z.of_nat k * step_of it))
                     <$> seq 0 n)) as ->
          by (apply list_fmap_ext; intros ? k ?; cbn; f_equal; lia).
        unfold mbind, M_bind.
        destruct (mapM _ _ w') as [[rs|e] w'']; reflexivity.
      * intros k Hk. specialize (Hin (S k)). lia.
    + erewrite run_bind_raise by (by apply run_next_raise).
      by erewrite run_bind_raise by exact Hload.
Qed.

(** X15: an iteration over a store loads the indices from zero up to the
    count that the store had when the iterator was made, in this order,
    and then stops: collecting the objects of [iter(store)] is the same
    computation as loading these indices one after the other. *)
Theorem iteration_loads_all_indices self w c :
  count self w = (Ret c, w) →
  (__iter__ self ≫= collect (S (Z.to_nat c))) w =
    (mapM (self_load self) ((λ k : nat, IInt (Z.of_nat k)) <$> seq 0 (Z.to_nat c))
     ≫= λ rs, mret (Some rs)) w.
Proof.
  intros Hc. apply count_inv in Hc as (st & Hst & -> & _).
  unfold __iter__, iterator. rewrite bind_assoc. step. rewrite bind_ret.
  rewrite Nat2Z.id, collect_visits; cbn [it_idx it_end it_storage step_of it_range].
  - f_equal. f_equal. apply list_fmap_ext. intros ? k ?. f_equal. lia.
  - lia.
  - intros k Hk. lia.
  - lia.
Qed.

(** X16: an iteration over a range with a positive step loads the
    indices start, start + step, ... below the stop of the range, and then
    stops; a step that is not given counts as one. *)
Theorem iteration_over_range_loads_every_step this r (n : nat) w :
  0 < default 1 (step r) →
  (∀ k : nat, (k < n)%nat → start r + Z.of_nat k * default 1 (step r) < stop r) →
  stop r ≤ start r + Z.of_nat n * default 1 (step r) →
  (iterator this (Some r) ≫= collect (S n)) w =
    (mapM (self_load this)
          ((λ k : nat, IInt (start r + Z.of_nat k * default 1 (step r))) <$> seq 0 n)
     ≫= λ rs, mret (Some rs)) w.
Proof.
  intros Hs Hin Hend. unfold iterator. rewrite bind_ret.
  by rewrite collect_visits.
Qed.

(** ** Filling the cache *)

Lemma run_add_single_to_cache_hit self i json w st obj :
  stores w !! prefix self = Some st → cache st !! KInt i = Some obj →
  add_single_to_cache self i json w = (Ret tt, w).
Proof. intros Hst Hc. unfold add_single_to_cache. step. by rewrite Hc. Qed.

Ltac hstep :=
  first
    [ rewrite bind_ret
    | rewrite bind_assoc
    | erewrite bind_get_state by (world_simpl; first [eassumption | apply lookup_insert_eq])
    | (rewrite bind_put_state; world_simpl; rewrite ?insert_insert_eq)
    | erewrite bind_read_var
        by (world_simpl;
            first [eassumption | apply lookup_insert_eq
                  | cbn [dim set_cache set_name_idx]; lia])
    | erewrite bind_getobj by (world_simpl; apply lookup_snoc)
    | (rewrite bind_setobj; world_simpl; rewrite insert_snoc)
    | progress obj_simpl
    | progress cbn [get_var var_name var_uid cache set_cache set_name_idx key_of_name] ].

Lemma run_add_single_to_cache_miss self i json w st :
  stores w !! prefix self = Some st → cache_ok st → cache st !! KInt i = None →
  0 ≤ i < Z.of_nat (dim st) →
  add_single_to_cache self i json w =
    (Ret tt,
     World (heap w ++ [obj_cached self st i json])
           (<[prefix self := st_cached self (obj_cached self st i json) (length (heap w)) i
                               (IInt i) st]> (stores w))
           (storage_attrs w) (variables w)).
Proof.
  intros Hst Hok Hc Hi. destruct w as [h s a vs]. cbn in Hst.
  unfold add_single_to_cache. step. rewrite Hc.
  rewrite bind_newobj. world_simpl.
  unfold obj_cached, st_cached, build, get_uid. obj_simpl.
  assert (Hnone : ∀ nm, <[KInt i := length h]> (cache st) !! KStr nm = None).
  { intros nm. rewrite lookup_insert_ne by done. by apply cache_ok_no_name. }
  destruct (has_name self), (has_uid self);
    try destruct (decide (cell (var_name st) i = "")) as [He|Hne];
    unfold _update_name_in_cache;
    repeat first
      [ hstep
      | rewrite decide_True by congruence
      | rewrite decide_False by congruence
      | rewrite Hnone ];
    try (unfold setobj; world_simpl; rewrite insert_snoc);
    try (unfold put_state; world_simpl; rewrite ?insert_insert_eq);
    obj_simpl; reflexivity.
Qed.

Lemma cached_all_st_cached self o obj i n st :
  _cached_all (st_cached self o obj i n st) = _cached_all st.
Proof.
  unfold st_cached. destruct (has_name self); [|done].
  destruct (o_name o) as [nm|]; [|done].
  destruct (decide (nm = Some "")); [done|].
  by destruct (cache (set_cache st (<[KInt i:=obj]> (cache st))) !! key_of_name nm).
Qed.

Lemma o_idx_obj_cached self st i json :
  o_idx (obj_cached self st i json) = {[prefix self := i]}.
Proof.
  unfold obj_cached, build. destruct (has_name self), (has_uid self); reflexivity.
Qed.

(** What [add_single_to_cache] does for a row of the table. *)
Lemma add_single_to_cache_spec self i json w st :
  stores w !! prefix self = Some st → cache_ok st → 0 ≤ i < Z.of_nat (dim st) →
  ∃ w' st',
    add_single_to_cache self i json w = (Ret tt, w')
    ∧ stores w' !! prefix self = Some st'
    ∧ same_rows st st' ∧ cache_ok st'
    ∧ _cached_all st' = _cached_all st ∧ _free st' = _free st
    ∧ is_Some (cache st' !! KInt i)
    ∧ (∀ k l, cache st !! k = Some l → cache st' !! k = Some l)
    ∧ read_only self w w'
    ∧ (wf_world w → wf_world w').
Proof.
  intros Hst Hok Hi.
  destruct (cache st !! KInt i) as [obj|] eqn:Hc.
  - exists w, st. split; [by eapply run_add_single_to_cache_hit|].
    split; [done|]. split; [by repeat split|]. split; [done|].
    split; [done|]. split; [done|]. split; [by rewrite Hc|].
    split; [done|]. split; [|done].
    pose proof (read_only_preorder self). reflexivity.
  - eexists _, _. split; [by apply run_add_single_to_cache_miss|].
    cbn [stores]. split; [apply lookup_insert_eq|].
    split; [apply same_rows_st_cached|].
    split; [apply cache_ok_st_cached; [done|lia]|].
    split; [apply cached_all_st_cached|].
    split; [apply free_st_cached|].
    split; [by rewrite st_cached_lookup|].
    split.
    { intros k l Hk. rewrite cache_st_cached, lookup_insert_ne; [done|].
      intros <-. congruence. }
    split.
    { split; [by eexists|]. cbn [stores storage_attrs variables].
      split; [intros q Hq; by apply lookup_insert_ne|].
      split.
      { intros st0 Hst0. eexists. rewrite lookup_insert_eq. split; [done|].
        replace st0 with st by congruence.
        split; [apply same_rows_st_cached | apply free_st_cached]. }
      split; [congruence|done]. }
    intros Hwf.
    set (o := obj_cached self st i json).
    assert (Hw1 : wf_world (set_heap w (heap w ++ [o]))).
    { apply wf_snoc; [done|]. intros p j st0 Hj Hst0.
      unfold o in Hj. rewrite o_idx_obj_cached in Hj.
      apply lookup_singleton_Some in Hj as [<- <-].
      replace st0 with st by congruence. done. }
    eapply (wf_update_store _ (prefix self) st) in Hw1; [exact Hw1|done| |].
    + by rewrite dim_st_cached.
    + apply cache_ok_st_cached; [done|lia].
Qed.

Lemma cache_rows_spec self (jsons : nat → string) rows : ∀ w st,
  stores w !! prefix self = Some st → cache_ok st →
  Forall (λ i : nat, (i < dim st)%nat) rows →
  ∃ w' st',
    forM_ (λ i : nat, add_single_to_cache self (Z.of_nat i) (jsons i)) rows w = (Ret tt, w')
    ∧ stores w' !! prefix self = Some st'
    ∧ same_rows st st' ∧ cache_ok st'
    ∧ _cached_all st' = _cached_all st ∧ _free st' = _free st
    ∧ (∀ i : nat, i ∈ rows → is_Some (cache st' !! KInt (Z.of_nat i)))
    ∧ (∀ k l, cache st !! k = Some l → cache st' !! k = Some l)
    ∧ read_only self w w'
    ∧ (wf_world w → wf_world w').
Proof.
  pose proof (read_only_preorder self) as Hpre.
  induction rows as [|i rows IH]; intros w st Hst Hok Hrows.
  - exists w, st. split; [done|]. split; [done|]. split; [by repeat split|].
    split; [done|]. split; [done|]. split; [done|].
    split; [intros i Hi; by apply elem_of_nil in Hi|]. split; [done|].
    split; [reflexivity|done].
  - apply Forall_cons in Hrows as [Hi Hrows].
    destruct (add_single_to_cache_spec self (Z.of_nat i) (jsons i) w st Hst Hok)
      as (w1 & st1 & Hrun & Hst1 & Hr1 & Hok1 & Hca1 & Hf1 & Hin1 & Hmono1 & Hro1 & Hwf1);
      [lia|].
    destruct (IH w1 st1 Hst1 Hok1)
      as (w2 & st2 & Hrun2 & Hst2 & Hr2 & Hok2 & Hca2 & Hf2 & Hin2 & Hmono2 & Hro2 & Hwf2).
    { destruct Hr1 as [-> _]. done. }
    exists w2, st2. split.
    { cbn [forM_]. by erewrite run_bind by exact Hrun. }
    split; [done|].
    split.
    { destruct Hr1 as (? & ? & ? & ?), Hr2 as (? & ? & ? & ?). repeat split; congruence. }
    split; [done|]. split; [congruence|]. split; [congruence|].
    split.
    { intros j Hj. apply elem_of_cons in Hj as [->|Hj]; [|by apply Hin2].
      destruct Hin1 as [l Hl]. exists l. by apply Hmono2. }
    split; [intros k l Hk; by apply Hmono2, Hmono1|].
    split; [by etrans|]. intros Hwf. by apply Hwf2, Hwf1.
Qed.

(** The loop of [cache_all] and the flag that it sets. *)
Lemma cache_all_rows_wf self w st :
  wf_world w → stores w !! prefix self = Some st → _cached_all st = false →
  ∃ w', cache_all self w = (Ret tt, w') ∧ wf_world w'.
Proof.
  intros Hwf Hst Hca.
  assert (Hok : cache_ok st) by (by eapply wf_cache_ok).
  destruct (cache_rows_spec self (λ i : nat, cell (var_json st) (Z.of_nat i))
              (seq 0 (dim st)) w st Hst Hok)
    as (w1 & st1 & Hrun & Hst1 & Hr1 & Hok1 & Hca1 & Hf1 & Hin1 & Hmono1 & Hro1 & Hwf1).
  { apply Forall_forall. intros i Hi. apply elem_of_seq in Hi. lia. }
  eexists. split.
  { unfold cache_all. step. rewrite Hca.
    erewrite run_bind by exact Hrun. by step. }
  eapply wf_update_store; [by apply Hwf1|exact Hst1|done|done].
Qed.

(** X17: [cache_all] builds an instance for every row of the table that
    the cache does not hold yet and keeps the instances that it holds;
    it sets [_cached_all], so that a second call does nothing.  The table
    and every object that existed are as before, and the world stays
    well formed. *)
Theorem cache_all_caches_every_row self w st :
  wf_world w → stores w !! prefix self = Some st → _cached_all st = false →
  ∃ w' st',
    cache_all self w = (Ret tt, w')
    ∧ stores w' !! prefix self = Some st'
    ∧ (∀ i, 0 ≤ i < Z.of_nat (dim st) → is_Some (cache st' !! KInt i))
    ∧ (∀ k l, cache st !! k = Some l → cache st' !! k = Some l)
    ∧ same_rows st st'
    ∧ read_only self w w'
    ∧ wf_world w'
    ∧ cache_all self w' = (Ret tt, w').
Proof.
  intros Hwf Hst Hca.
  assert (Hok : cache_ok st) by (by eapply wf_cache_ok).
  destruct (cache_rows_spec self (λ i : nat, cell (var_json st) (Z.of_nat i))
              (seq 0 (dim st)) w st Hst Hok)
    as (w1 & st1 & Hrun & Hst1 & Hr1 & Hok1 & Hca1 & Hf1 & Hin1 & Hmono1 & Hro1 & Hwf1).
  { apply Forall_forall. intros i Hi. apply elem_of_seq in Hi. lia. }
  set (st2 := set_cached_all st1 true).
  exists (set_stores w1 (<[prefix self := st2]> (stores w1))), st2.
  split.
  { unfold cache_all. step. rewrite Hca.
    erewrite run_bind by exact Hrun. by step. }
  cbn [stores set_stores]. split; [apply lookup_insert_eq|].
  split.
  { intros i Hi. replace i with (Z.of_nat (Z.to_nat i)) by lia.
    apply (Hin1 (Z.to_nat i)). apply elem_of_seq. lia. }
  split; [exact Hmono1|].
  split; [exact Hr1|].
  split.
  { pose proof (read_only_preorder self). etrans; [exact Hro1|].
    by eapply read_only_put. }
  split.
  { eapply wf_update_store; [by apply Hwf1|exact Hst1|done|done]. }
  unfold cache_all. erewrite bind_get_state by apply lookup_insert_eq. done.
Qed.

(** ** Lists and arrays *)

Lemma mapM_Forall2 {A B : Type} (f : A → M B) (l : list A) (l' : list B) w :
  Forall2 (λ a b, f a w = (Ret b, w)) l l' → mapM f l w = (Ret l', w).
Proof.
  induction 1 as [|a b l l' Hab _ IH]; [done|].
  cbn [mapM]. erewrite run_bind by exact Hab.
  erewrite run_bind by exact IH. done.
Qed.

Lemma wrap_int32_small z : - 2 ^ 31 ≤ z < 2 ^ 31 → wrap_int32 z = z.
Proof. intros Hz. unfold wrap_int32. rewrite Z.mod_small; lia. Qed.

Section list_facts.
Variable float : Type.
Variable float_of_int : Z → float.
Variable single : float → float.
Variable trunc : float → Z.

Local Abbreviation list_to_numpy'' := (list_to_numpy float float_of_int single trunc).
Local Abbreviation astype_items'' := (astype_items float float_of_int single trunc).

Lemma astype_items_int32_small (zs : list Z) :
  Forall (λ z, - 2 ^ 31 ≤ z < 2 ^ 31) zs →
  astype_items'' np_int32 (PyInt <$> zs) = Ret (PyInt <$> zs).
Proof.
  induction 1 as [|z zs Hz _ IH]; [done|].
  rewrite !fmap_cons. cbn [astype_items astype_item]. rewrite IH.
  unfold fits_64. rewrite bool_decide_true by lia.
  by rewrite wrap_int32_small.
Qed.

Lemma astype_items_uint8_bool (bs : list bool) :
  astype_items'' np_uint8 (PyBool <$> bs) = Ret (PyInt ∘ int_of_bool <$> bs).
Proof.
  induction bs as [|b bs IH]; [done|].
  rewrite !fmap_cons. cbn [astype_items astype_item]. by rewrite IH.
Qed.

(** The index that [list_to_numpy] writes for a value that the store
    holds. *)
Lemma held_value_index self w (v : pyval float) :
  caching self = true → held_value self w v →
  ∃ z, - 1 ≤ z < 2 ^ 31
       ∧ index_of_value float self true v w = (Ret (PyInt z), w)
       ∧ value_of_index float self true (PyInt z) w = (Ret v, w).
Proof.
  intros Hcache. destruct v as [|b|z|x|l]; try done.
  - intros _. exists (-1). split; [lia|]. split; [done|].
    by apply run_value_of_index_negative.
  - intros (o & i & st & Ho & Hi & Hst & Hc & Hr). exists i.
    split; [lia|]. split.
    + cbn [index_of_value]. erewrite bind_getobj by done. by rewrite Hi.
    + rewrite run_value_of_index_nonneg by lia.
      unfold self_load. rewrite Hcache.
      by erewrite run_bind by (eapply run_loadcache_hit; [lia|done..]).
Qed.

(** X18: a list of references goes through an index array and back
    unchanged when the value type names the store itself and the store
    holds every object of the list in its cache: [None] becomes -1 and an
    object the index that it carries, and [list_from_numpy] gives [None]
    and the same objects back; nothing is changed. *)
Theorem reference_list_round_trip self value_type w st (data : list (pyval float)) :
  object_type value_type → storage_attrs w !! value_type = Some self →
  caching self = true → stores w !! prefix self = Some st →
  Forall (held_value self w) data →
  ∃ arr,
    list_to_numpy'' self data value_type true w = (Ret arr, w)
    ∧ dtype arr = np_int32
    ∧ length (items arr) = length data
    ∧ list_from_numpy float self arr value_type true w = (Ret data, w).
Proof.
  intros Hty Hattr Hc Hst Hdata.
  assert (∃ zs : list Z,
            Forall (λ z, - 2 ^ 31 ≤ z < 2 ^ 31) zs
            ∧ Forall2 (λ v x, index_of_value float self true v w = (Ret x, w))
                data (PyInt <$> zs)
            ∧ Forall2 (λ x v, value_of_index float self true x w = (Ret v, w))
                (PyInt <$> zs) data) as (zs & Hzs & Hto & Hfrom).
  { induction Hdata as [|v data Hv _ (zs & Hzs & Hto & Hfrom)].
    - exists []. by repeat split; constructor.
    - destruct (held_value_index self w v Hc Hv) as (z & Hz & Hi & Hl).
      exists (z :: zs). rewrite fmap_cons.
      split; [constructor; [lia|done]|]. by split; constructor. }
  exists (NdArray np_int32 (PyInt <$> zs)).
  split.
  { rewrite run_list_to_numpy_object by done.
    erewrite run_bind by (by apply mapM_Forall2).
    apply run_astype. by apply astype_items_int32_small. }
  split; [done|].
  split. { cbn [items]. rewrite length_fmap. apply Forall2_length in Hto.
           by rewrite length_fmap in Hto. }
  erewrite run_list_from_numpy_object by done.
  by apply mapM_Forall2.
Qed.

(** X19: a list of integers that 32 bits hold goes through an array of
    the value types [index] and [length] and back unchanged; a list of
    booleans comes back from an array of the value type [bool] as the
    integers 0 and 1.  Nothing is changed. *)
Theorem scalar_list_round_trips self allow_empty w :
  (∀ value_type (zs : list Z),
     value_type = "index" ∨ value_type = "length" →
     Forall (λ z, - 2 ^ 31 ≤ z < 2 ^ 31) zs →
     ∃ arr,
       list_to_numpy'' self (PyInt <$> zs) value_type allow_empty w = (Ret arr, w)
       ∧ dtype arr = np_int32
       ∧ list_from_numpy float self arr value_type allow_empty w = (Ret (PyInt <$> zs), w))
  ∧ (∀ bs : list bool,
       ∃ arr,
         list_to_numpy'' self (PyBool <$> bs) "bool" allow_empty w = (Ret arr, w)
         ∧ dtype arr = np_uint8
         ∧ list_from_numpy float self arr "bool" allow_empty w =
             (Ret (PyInt ∘ int_of_bool <$> bs), w)).
Proof.
  split.
  - intros value_type zs Hty Hzs. exists (NdArray np_int32 (PyInt <$> zs)).
    split; [|split; [done|]].
    + destruct Hty as [-> | ->]; apply run_astype; by apply astype_items_int32_small.
    + by destruct Hty as [-> | ->].
  - intros bs. exists (NdArray np_uint8 (PyInt ∘ int_of_bool <$> bs)).
    split; [|done]. apply run_astype. apply astype_items_uint8_bool.
Qed.

End list_facts.

(** ** The latest object *)

(** X20: after the save, in a store with a cache, of an object that
    carries its [json] attribute (so that [save_json] does not call the
    Serializer) and has no index in the store, [last] gives the saved
    object: the save took the last row of the table. *)
Theorem last_gives_latest_saved self obj w st o :
  wf_world w → caching self = true →
  stores w !! prefix self = Some st → heap w !! obj = Some o →
  is_Some (o_json o) →
  o_idx o !! prefix self = None → name_is_set self o →
  ∃ i w1,
    self_save self obj None w = (Ret i, w1)
    ∧ count self w1 = (Ret (i + 1), w1)
    ∧ last self w1 = (Ret (Some obj), w1).
Proof.
  intros Hwf Hc Hst Ho _ Hi Hn.
  destruct (run_self_save_fresh_inv self obj w st o) as (w1 & st1 & Hs & Hh & Hss & Hr & Hhit);
    [done..|by eapply wf_cache_ok|].
  destruct Hr as (Hd & _).
  assert (Hst1 : stores w1 !! prefix self = Some st1) by (by rewrite Hss, lookup_insert_eq).
  assert (Hdim : Z.of_nat (dim st1) = free_idx st + 1)
    by (by rewrite Hd, dim_st_saved_fresh).
  pose proof (free_idx_spec st) as [Hle _].
  exists (free_idx st), w1. split; [done|].
  split; [erewrite run_count by done; by rewrite Hdim|].
  unfold last. erewrite bind_count by done. rewrite Hdim.
  replace (free_idx st + 1 - 1) with (free_idx st) by lia.
  unfold self_load. rewrite Hc.
  eapply run_loadcache_hit; [lia|done|by apply Hhit].
Qed.

(** ** The element types *)

Section element_types.
Variable float : Type.
Variable float_of_int : Z → float.
Variable single : float → float.
Variable trunc : float → Z.

(** X21: for the value types [float], [bool], [index] and [length] the
    array that [list_to_numpy] makes has the element type that
    [_parse_var_type_as_np_type] gives for the variable. *)
Theorem list_to_numpy_has_declared_type self data value_type allow_empty w arr w' :
  value_type = "float" ∨ value_type = "bool" ∨ value_type = "index"
  ∨ value_type = "length" →
  list_to_numpy float float_of_int single trunc self data value_type allow_empty w
    = (Ret arr, w') →
  _parse_var_type_as_np_type value_type = Ret (dtype arr) ∧ w' = w.
Proof.
  intros Hty Hrun.
  assert (∃ t, _parse_var_type_as_np_type value_type = Ret t
               ∧ list_to_numpy float float_of_int single trunc self data value_type
                   allow_empty w
                 = astype float float_of_int single trunc t data w) as (t & Ht & Heq).
  { destruct Hty as [-> | [-> | [-> | ->]]]; eexists; split; reflexivity. }
  rewrite Heq in Hrun. apply astype_inv in Hrun as (Hd & _ & ->).
  by rewrite Ht, Hd.
Qed.

End element_types.

(** ** The invariant and the further methods *)

Lemma preserves_clear_cache self : preserves (clear_cache self).
Proof.
  unfold clear_cache. apply preserves_get_state. intros st w Hwf Hst.
  cbn [put_state snd]. eapply wf_update_store; [done|exact Hst|done|].
  intros k l Hk. cbn [cache set_cached_all set_cache] in Hk.
  by rewrite lookup_empty in Hk.
Qed.

Lemma preserves_cache_all self : preserves (cache_all self).
Proof.
  intros w Hwf. destruct (stores w !! prefix self) as [st|] eqn:Hst.
  - destruct (_cached_all st) eqn:Hca.
    + unfold cache_all. erewrite bind_get_state by done. by rewrite Hca.
    + destruct (cache_all_rows_wf self w st Hwf Hst Hca) as (w' & Hrun & Hwf').
      by rewrite Hrun.
  - unfold cache_all. erewrite run_bind_raise; [done|].
    unfold get_state. by rewrite Hst.
Qed.

Lemma preserves_state {B : Type} self (f : store_state → M B) :
  (∀ st, preserves (f st)) → preserves (get_state self ≫= f).
Proof. intros Hf. apply preserves_get_state. intros st w Hwf _. by apply Hf. Qed.

Lemma preserves_find_indices self name : preserves (find_indices self name).
Proof.
  unfold find_indices. destruct (has_name self); [|apply preserves_ret].
  apply preserves_state. intros st. apply preserves_bind.
  { destruct (decide (name_idx st !! KStr name = None));
      [apply preserves_update_name_cache | apply preserves_ret]. }
  intros _. apply preserves_state. intros st0.
  destruct (name_idx st0 !! KStr name); [apply preserves_ret | apply preserves_raise].
Qed.

Lemma preserves_next it : preserves (next it).
Proof.
  unfold next. destruct (decide (it_idx it < it_end it)); [|apply preserves_ret].
  apply preserves_bind; [apply self_load_wf|]. intros obj. apply preserves_ret.
Qed.

(** X22: the further methods keep the storage well formed, whatever
    their outcome: [clear_cache], [cache_all], [find_indices],
    [update_name_cache] and a step of an iteration. *)
Theorem further_methods_keep_wf self w :
  wf_world w →
  wf_world (clear_cache self w).2
  ∧ wf_world (cache_all self w).2
  ∧ (∀ name, wf_world (find_indices self name w).2)
  ∧ wf_world (update_name_cache self w).2
  ∧ (∀ it, wf_world (next it w).2).
Proof.
  intros Hwf.
  split; [by apply preserves_clear_cache|].
  split; [by apply preserves_cache_all|].
  split; [intros name; by apply preserves_find_indices|].
  split; [by apply preserves_update_name_cache|].
  intros it. by apply preserves_next.
Qed.

(** ** Saving under an index that is taken *)

Lemma run_self_save_explicit self obj j w st o :
  caching self = true → stores w !! prefix self = Some st → cache_ok st →
  heap w !! obj = Some o → name_is_set self o → 0 ≤ j →
  self_save self obj (Some (IInt j)) w =
    (Ret j,
     World (<[obj := obj_saved self o j]> (heap w))
           (<[prefix self := st_cached self (obj_saved self o j) obj j (IInt j)
                               (st_saved self o j st)]> (stores w))
           (storage_attrs w) (variables w)).
Proof.
  intros Hc Hst Hok Ho Hn Hj. unfold self_save. rewrite Hc.
  erewrite run_savecache;
    [| erewrite run_saveidx_explicit by done; by rewrite save_outcome_set
     | cbn [heap]; apply list_lookup_insert_eq; by eapply lookup_lt_Some
     | rewrite o_idx_obj_saved; apply lookup_insert_eq
     | cbn [stores]; apply lookup_insert_eq ].
  rewrite cached_outcome_ok.
  - by normal_world.
  - eapply cache_ok_mono; [exact Hok | apply cache_st_saved |].
    rewrite dim_st_saved. lia.
  - unfold storable. rewrite o_name_obj_saved. by apply name_is_set_storable.
Qed.

(** X23: nothing guards an index that is taken.  In a store with a
    cache, a save of an object whose name is set and that carries its
    [json] attribute (as an object does that was saved before) under the
    index that another object carries writes its payload over the row and
    takes the place in the cache; the count is as before, both objects
    carry the index, and a load of the index gives the object that was
    saved last. *)
Theorem explicit_save_overwrites_row self obj other w st o oo j :
  wf_world w → caching self = true →
  stores w !! prefix self = Some st → heap w !! obj = Some o → name_is_set self o →
  is_Some (o_json o) →
  other ≠ obj → heap w !! other = Some oo → o_idx oo !! prefix self = Some j →
  ∃ w' st',
    self_save self obj (Some (IInt j)) w = (Ret j, w')
    ∧ stores w' !! prefix self = Some st'
    ∧ (count self w').1 = (count self w).1
    ∧ cell (var_json st') j = payload o
    ∧ idx self obj w' = (Ret (Some j), w')
    ∧ idx self other w' = (Ret (Some j), w')
    ∧ self_load self (IInt j) w' = (Ret (Some obj), w').
Proof.
  intros Hwf Hc Hst Ho Hn _ Hne Hoo Hj.
  assert (Hok : cache_ok st) by (by eapply wf_cache_ok).
  assert (Hr : 0 ≤ j < Z.of_nat (dim st)) by (by eapply wf_idx_ok).
  eexists _, _. split; [apply run_self_save_explicit; (done || lia)|].
  cbn [stores]. split; [apply lookup_insert_eq|].
  split.
  { erewrite !run_count by (done || apply lookup_insert_eq).
    rewrite dim_st_cached, dim_st_saved.
    by replace (Nat.max (dim st) (Z.to_nat j + 1)) with (dim st) by lia. }
  split.
  { destruct (same_rows_st_cached self (obj_saved self o j) obj j (IInt j)
                (st_saved self o j st)) as (_ & -> & _).
    by rewrite var_json_st_saved, cell_insert_eq. }
  split.
  { erewrite run_idx
      by (cbn [heap]; apply list_lookup_insert_eq; by eapply lookup_lt_Some).
    by rewrite o_idx_obj_saved, lookup_insert_eq. }
  split.
  { erewrite run_idx by (cbn [heap]; rewrite list_lookup_insert_ne by done; exact Hoo).
    by rewrite Hj. }
  unfold self_load. rewrite Hc.
  eapply run_loadcache_hit; [lia|apply lookup_insert_eq|apply st_cached_lookup].
Qed.

(** ** What every program keeps *)

Lemma persists_preorder (P : world → Prop) : PreOrder (persists P).
Proof.
  split; [intros w Hp; exact Hp|]. intros w1 w2 w3 H1 H2 Hp. by apply H2, H1.
Qed.

#[local] Existing Instance persists_preorder.


(** *** The writes *)















(** *** The methods of the class *)




(** *** The decorators *)











(** *** The queries *)








(** *** The cache of all rows *)



(** *** The invariant *)


(** ** Instances on the small storages *)

Lemma wf_twice_saved_world : wf_world twice_saved_world.
Proof. apply self_save_wf; [apply wf_saved_world | exact I]. Qed.

Lemma wf_reopen w : wf_world (reopen w).
Proof.
  apply wf_fresh_world; [constructor|].
  intros p st Hp. apply lookup_fmap_Some in Hp as (st0 & <- & _). done.
Qed.

Lemma wf_snap_world : wf_world snap_world.
Proof.
  apply self_save_wf; [|exact I]. apply wf_fresh_world.
  - by repeat constructor.
  - intros p st Hp. apply lookup_singleton_Some in Hp as [_ <-]. done.
Qed.

Lemma wf_copy_world : wf_world copy_world.
Proof.
  split.
  - intros p st Hp. cbn [copy_world stores] in Hp.
    apply lookup_singleton_Some in Hp as [_ <-]. by intros k l Hk.
  - intros l o p i st Hl Hi Hp. cbn [copy_world stores heap] in Hl, Hp.
    apply lookup_singleton_Some in Hp as [<- _].
    apply list_lookup_singleton_Some in Hl as [_ <-]. done.
Qed.

Lemma fresh_save_appends_row_witness :
  ∃ i w1 st1,
    self_save traj_store 0%nat None copy_world = (Ret i, w1)
    ∧ Z.of_nat (dim new_store) ≤ i
    ∧ stores w1 !! prefix traj_store = Some st1
    ∧ count traj_store w1 = (Ret (i + 1), w1)
    ∧ cell (var_json st1) i = payload copied_obj
    ∧ (∀ j, j ≠ i → cell (var_json st1) j = cell (var_json new_store) j)
    ∧ (has_name traj_store = true →
       o_name copied_obj = Some (Some (cell (var_name st1) i)))
    ∧ (∀ q, q ≠ prefix traj_store → stores w1 !! q = stores copy_world !! q)
    ∧ idx traj_store 0%nat copy_world = (Ret None, copy_world)
    ∧ idx traj_store 0%nat w1 = (Ret (Some i), w1).
Proof.
  apply (fresh_save_appends_row traj_store 0%nat copy_world new_store copied_obj).
  - apply wf_copy_world.
  - reflexivity.
  - reflexivity.
  - by exists "A".
  - reflexivity.
  - intros _. by exists "x".
Defined.

Lemma save_clear_cache_load_round_trip_witness :
  ∃ i w1 w2 obj' w3 o',
    self_save traj_store 0%nat None example_world = (Ret i, w1)
    ∧ clear_cache traj_store w1 = (Ret tt, w2)
    ∧ self_load traj_store (IInt i) w2 = (Ret (Some obj'), w3)
    ∧ obj' ≠ 0%nat
    ∧ heap w3 !! obj' = Some o'
    ∧ o_idx o' !! prefix traj_store = Some i
    ∧ o_body o' = payload (named_obj (Some "x") "A")
    ∧ o_json o' = Some (payload (named_obj (Some "x") "A"))
    ∧ (has_name traj_store = true → o_name o' = o_name (named_obj (Some "x") "A")).
Proof.
  apply (save_clear_cache_load_round_trip traj_store 0%nat example_world new_store
           (named_obj (Some "x") "A")).
  - apply wf_example_world.
  - reflexivity.
  - intros _. reflexivity.
  - reflexivity.
  - reflexivity.
  - reflexivity.
  - intros _. by exists "x".
Defined.


Lemma cached_load_returns_one_instance_witness :
  ∃ obj w1,
    self_load traj_store (IInt 0) saved_world = (Ret (Some obj), w1)
    ∧ self_load traj_store (IInt 0) w1 = (Ret (Some obj), w1)
    ∧ count traj_store w1 = (Ret 1, w1).
Proof.
  apply (cached_load_returns_one_instance traj_store 0 saved_world 1).
  - apply wf_saved_world.
  - reflexivity.
  - intros _. reflexivity.
  - vm_compute. reflexivity.
  - lia.
Defined.

Lemma uncached_load_builds_new_instances_witness :
  ∃ obj1 w1 obj2 w2 o1 o2 st2,
    self_load snap_store (IInt 0) snap_world = (Ret (Some obj1), w1)
    ∧ self_load snap_store (IInt 0) w1 = (Ret (Some obj2), w2)
    ∧ obj1 ≠ obj2
    ∧ heap snap_world !! obj1 = None ∧ heap snap_world !! obj2 = None
    ∧ heap w2 !! obj1 = Some o1 ∧ heap w2 !! obj2 = Some o2
    ∧ o_idx o1 !! prefix snap_store = Some 0 ∧ o_idx o2 !! prefix snap_store = Some 0
    ∧ o_json o1 = Some (cell (var_json snap_state) 0)
    ∧ o_json o2 = Some (cell (var_json snap_state) 0)
    ∧ stores w2 !! prefix snap_store = Some st2 ∧ same_rows snap_state st2.
Proof.
  apply (uncached_load_builds_new_instances snap_store 0 snap_world snap_state).
  - reflexivity.
  - vm_compute. reflexivity.
  - cbn. lia.
Defined.

Lemma save_touches_only_its_object_and_store_witness :
  length (heap (self_save traj_store 0%nat None copy_world).2) = length (heap copy_world)
  ∧ (∀ l, l ≠ 0%nat →
       heap (self_save traj_store 0%nat None copy_world).2 !! l = heap copy_world !! l)
  ∧ (∀ q, q ≠ prefix traj_store →
       stores (self_save traj_store 0%nat None copy_world).2 !! q = stores copy_world !! q).
Proof.
  apply (save_touches_only_its_object_and_store traj_store 0%nat None copy_world).
  intros o Ho. cbn [copy_world heap] in Ho.
  apply list_lookup_singleton_Some in Ho as [_ <-]. by exists "A".
Defined.

Lemma find_indices_gives_last_row_witness :
  (find_indices traj_store "x" reopened_world).1 = Ret [IInt (Z.of_nat 1)].
Proof.
  eapply (find_indices_gives_last_row traj_store "x" reopened_world).
  - reflexivity.
  - apply wf_reopen.
  - vm_compute. reflexivity.
  - reflexivity.
  - reflexivity.
  - discriminate.
  - cbn. lia.
  - reflexivity.
  - intros j Hj. cbn in Hj. lia.
Defined.

Lemma load_by_name_loads_last_row_witness :
  self_load traj_store (IStr "x") reopened_world =
    self_load traj_store (IInt (Z.of_nat 1)) (update_name_cache traj_store reopened_world).2
  ∧ ∃ obj w', self_load traj_store (IStr "x") reopened_world = (Ret (Some obj), w').
Proof.
  eapply (load_by_name_loads_last_row traj_store "x" reopened_world).
  - reflexivity.
  - reflexivity.
  - intros _. reflexivity.
  - apply wf_reopen.
  - vm_compute. reflexivity.
  - reflexivity.
  - discriminate.
  - cbn. lia.
  - reflexivity.
  - intros j Hj. cbn in Hj. lia.
Defined.


Lemma load_by_name_needs_cache_and_names_witness :
  self_load snap_store (IStr "u0") snap_world = (Raise ValueError, snap_world).
Proof.
  apply (load_by_name_needs_cache_and_names snap_store "u0" snap_world).
  left. reflexivity.
Defined.

Lemma load_by_unknown_name_raises_witness :
  (self_load traj_store (IStr "y") saved_world).1 = Raise ValueError.
Proof.
  eapply (load_by_unknown_name_raises traj_store "y" saved_world).
  - reflexivity.
  - reflexivity.
  - apply wf_saved_world.
  - vm_compute. reflexivity.
  - reflexivity.
  - right. intros j Hj. cbn in Hj. assert (j = 0%nat) as -> by lia. discriminate.
Defined.

Lemma idx_by_name_gives_first_row_witness :
  idx_by_name snap_store "u0" snap_world = (Ret (Some (Z.of_nat 0)), snap_world).
Proof.
  eapply (idx_by_name_gives_first_row snap_store "u0" snap_world).
  - apply wf_snap_world.
  - vm_compute. reflexivity.
  - reflexivity.
  - cbn. lia.
  - reflexivity.
  - intros j Hj. lia.
Defined.

Lemma free_does_not_reserve_witness :
  ∃ i w1 st1,
    free traj_store saved_world = (Ret i, w1)
    ∧ free traj_store w1 = (Ret i, w1)
    ∧ stores w1 !! prefix traj_store = Some st1
    ∧ same_rows saved_state st1
    ∧ ∀ j, j ∈ _free st1 ↔ j ∈ _free saved_state ∧ Z.of_nat (dim saved_state) ≤ j.
Proof.
  apply (free_does_not_reserve traj_store saved_world saved_state).
  vm_compute. reflexivity.
Defined.

Lemma iteration_loads_all_indices_witness :
  (__iter__ traj_store ≫= collect (S (Z.to_nat 1))) saved_world =
    (mapM (self_load traj_store) ((λ k : nat, IInt (Z.of_nat k)) <$> seq 0 (Z.to_nat 1))
     ≫= λ rs, mret (Some rs)) saved_world.
Proof.
  apply (iteration_loads_all_indices traj_store saved_world 1).
  vm_compute. reflexivity.
Defined.

Lemma iteration_over_range_loads_every_step_witness :
  (iterator traj_store (Some (PySlice 0 3 (Some 2))) ≫= collect (S 2)) twice_saved_world =
    (mapM (self_load traj_store)
          ((λ k : nat, IInt (start (PySlice 0 3 (Some 2))
                             + Z.of_nat k * default 1 (step (PySlice 0 3 (Some 2)))))
             <$> seq 0 2)
     ≫= λ rs, mret (Some rs)) twice_saved_world.
Proof.
  apply (iteration_over_range_loads_every_step traj_store (PySlice 0 3 (Some 2)) 2
           twice_saved_world).
  - cbn. lia.
  - intros k Hk. cbn. lia.
  - cbn. lia.
Defined.

Lemma cache_all_caches_every_row_witness :
  ∃ w' st',
    cache_all traj_store reopened_world = (Ret tt, w')
    ∧ stores w' !! prefix traj_store = Some st'
    ∧ (∀ i, 0 ≤ i < Z.of_nat (dim reopened_state) → is_Some (cache st' !! KInt i))
    ∧ (∀ k l, cache reopened_state !! k = Some l → cache st' !! k = Some l)
    ∧ same_rows reopened_state st'
    ∧ read_only traj_store reopened_world w'
    ∧ wf_world w'
    ∧ cache_all traj_store w' = (Ret tt, w').
Proof.
  apply (cache_all_caches_every_row traj_store reopened_world reopened_state).
  - apply wf_reopen.
  - vm_compute. reflexivity.
  - reflexivity.
Defined.

Lemma reference_list_round_trip_witness :
  ∃ arr,
    list_to_numpy Z id id id traj_store [PyRef 0%nat; PyNone] "trajectories" true saved_world
      = (Ret arr, saved_world)
    ∧ dtype arr = np_int32
    ∧ length (items arr) = length [PyRef (float := Z) 0%nat; PyNone]
    ∧ list_from_numpy Z traj_store arr "trajectories" true saved_world =
        (Ret [PyRef 0%nat; PyNone], saved_world).
Proof.
  eapply (reference_list_round_trip Z id id id traj_store "trajectories" saved_world).
  - repeat split; discriminate.
  - reflexivity.
  - reflexivity.
  - vm_compute. reflexivity.
  - constructor; [|constructor; [exact I|constructor]].
    eexists _, 0, _. split; [vm_compute; reflexivity|].
    split; [vm_compute; reflexivity|]. split; [vm_compute; reflexivity|].
    split; [vm_compute; reflexivity|]. lia.
Defined.

Lemma scalar_list_round_trips_witness :
  ∃ arr,
    list_to_numpy Z id id id traj_store (PyInt <$> [3; -1]) "index" true example_world
      = (Ret arr, example_world)
    ∧ dtype arr = np_int32
    ∧ list_from_numpy Z traj_store arr "index" true example_world =
        (Ret (PyInt <$> [3; -1]), example_world).
Proof.
  destruct (scalar_list_round_trips Z id id id traj_store true example_world) as [H _].
  apply (H "index" [3; -1]).
  - by left.
  - repeat constructor; lia.
Defined.

Lemma last_gives_latest_saved_witness :
  ∃ i w1,
    self_save traj_store 0%nat None copy_world = (Ret i, w1)
    ∧ count traj_store w1 = (Ret (i + 1), w1)
    ∧ last traj_store w1 = (Ret (Some 0%nat), w1).
Proof.
  apply (last_gives_latest_saved traj_store 0%nat copy_world new_store copied_obj).
  - apply wf_copy_world.
  - reflexivity.
  - reflexivity.
  - reflexivity.
  - by exists "A".
  - reflexivity.
  - intros _. by exists "x".
Defined.

Lemma list_to_numpy_has_declared_type_witness :
  _parse_var_type_as_np_type "index" = Ret (dtype (NdArray (float := Z) np_int32 [PyInt 7]))
  ∧ example_world = example_world.
Proof.
  apply (list_to_numpy_has_declared_type Z id id id traj_store [PyInt 7] "index" true
           example_world (NdArray np_int32 [PyInt 7]) example_world).
  - right. right. by left.
  - reflexivity.
Defined.

Lemma further_methods_keep_wf_witness :
  wf_world (clear_cache traj_store saved_world).2
  ∧ wf_world (cache_all traj_store saved_world).2
  ∧ (∀ name, wf_world (find_indices traj_store name saved_world).2)
  ∧ wf_world (update_name_cache traj_store saved_world).2
  ∧ (∀ it, wf_world (next it saved_world).2).
Proof. apply (further_methods_keep_wf traj_store saved_world), wf_saved_world. Defined.

Lemma explicit_save_overwrites_row_witness :
  ∃ w' st',
    self_save traj_store 1%nat (Some (IInt 0)) twice_saved_world = (Ret 0, w')
    ∧ stores w' !! prefix traj_store = Some st'
    ∧ (count traj_store w').1 = (count traj_store twice_saved_world).1
    ∧ cell (var_json st') 0 = payload (obj_saved traj_store (named_obj (Some "x") "B") 1)
    ∧ idx traj_store 1%nat w' = (Ret (Some 0), w')
    ∧ idx traj_store 0%nat w' = (Ret (Some 0), w')
    ∧ self_load traj_store (IInt 0) w' = (Ret (Some 1%nat), w').
Proof.
  eapply (explicit_save_overwrites_row traj_store 1%nat 0%nat twice_saved_world _
            (obj_saved traj_store (named_obj (Some "x") "B") 1) _ 0).
  - apply wf_twice_saved_world.
  - reflexivity.
  - vm_compute. reflexivity.
  - vm_compute. reflexivity.
  - intros _. by exists "x".
  - by exists "B".
  - discriminate.
  - vm_compute. reflexivity.
  - vm_compute. reflexivity.
Defined.

Lemma reachable_example_world : reachable example_world.
Proof.
  refine (reach_new_object
            (World [named_obj (Some "x") "A"; named_obj (Some "x") "B"]
                   {["traj" := new_store]} {["trajectories" := traj_store]} ∅)
            (named_obj None "C") _ eq_refl).
  refine (reach_new_object
            (World [named_obj (Some "x") "A"]
                   {["traj" := new_store]} {["trajectories" := traj_store]} ∅)
            (named_obj (Some "x") "B") _ eq_refl).
  refine (reach_new_object
            (World [] {["traj" := new_store]} {["trajectories" := traj_store]} ∅)
            (named_obj (Some "x") "A") _ eq_refl).
  apply (reach_created {["traj" := new_store]} {["trajectories" := traj_store]} ∅).
  intros p st Hp.
  change (({["traj" := new_store]} : gmap string store_state) !! p = Some st) in Hp.
  apply lookup_singleton_Some in Hp as [_ <-]. reflexivity.
Qed.

Lemma reachable_wf_witness : wf_world saved_world.
Proof.
  apply (reachable_wf saved_world).
  apply (reach_save example_world traj_store 0%nat None); [|exact I].
  apply reachable_example_world.
Defined.




